(** * Oracle for the multiples of k: a shallow embedding of the circuit builders

    The Python sources build descriptions of quantum circuits (they never run
    them).  This development embeds the builders of [utilities_multiples.py],
    [code/operations.py], [code/multiples_functions.py] and the root level
    [multiples_functions.py] and proves properties of what they build.

    Conventions of the embedding:
    - Python [int] is [Z], also for widths, indices and wire numbers.
    - A rotation angle is kept as its exact rational coefficient of pi: the
      source computes [sum(2^e ...) * np.pi] with [e <= 0], a dyadic rational
      times the constant [np.pi]; the coefficient is what is modelled, and
      the rounding of double precision is not.  The sums are exact in double
      precision for registers of up to 53 wires; on wire 53 of a wider
      register the sum of all 54 powers rounds to 2.  What is proved of the
      values of the coefficients is proved of the exact sums.
    - Calls into the circuit library succeed, with one exception: a
      register of negative size is rejected ([CircuitError]).  The other
      checks of the library (wires in range, no wire twice) are not
      modelled; theorems that depend on them carry the condition as a
      hypothesis.
    - [np.ceil(np.log2(k)).astype(int)] raises TypeError for an integer
      outside the 64 bit range and is modelled as [Z.log2_up k] for
      [1 <= k < 2^64].  This is the value of the library for every
      [k <= 2^32]; beyond, the double precision logarithm of a number just
      above a power of two can round to the integer below (49 for
      [2^49 + 1]), so the theorems that depend on the number of remainder
      wires are stated for [k <= 2^32].
    - A circuit is the list of instructions in append order.
    - Python exceptions are values of [error]; code that mutates a circuit or
      the adder cache runs in a state monad whose state survives a failure,
      as a mutated Python object does. *)

From Stdlib Require Import ZArith QArith Qpower Qfield List String Ascii Lia.
From Stdlib Require Import Permutation Sorted FinFun.
From stdpp Require Import gmap list sorting.
Import ListNotations.

Local Open Scope Z_scope.

(** ** Python values shared by all modules *)

Inductive error : Type :=
| TypeError        (* subscripting None *)
| IndexError       (* list index out of range *)
| ValueError       (* np.zeros of a negative size *)
| NameError        (* local name read before assignment *)
| AssertionError   (* a failed assert *)
| CircuitError.    (* the circuit library rejects a register size *)

Definition result (A : Type) : Type := error + A.

(** [range(lo, hi)] *)
Definition py_range (lo hi : Z) : list Z :=
  map (fun i : nat => lo + Z.of_nat i) (seq 0 (Z.to_nat (hi - lo))).

(** [l * n] on lists: [n] copies of [l], none when [n <= 0]. *)
Definition list_mul {A} (l : list A) (n : Z) : list A :=
  concat (repeat l (Z.to_nat n)).

(** [l[:n]] *)
Definition slice_to {A} (l : list A) (n : Z) : list A :=
  if 0 <=? n then firstn (Z.to_nat n) l
  else firstn (Z.to_nat (Z.of_nat (length l) + n)) l.

(** [l[-1]] on a list known to be non-empty, [d] is never read then. *)
Definition list_last (l : list Z) : Z := List.last l 0.

Definition len {A} (l : list A) : Z := Z.of_nat (length l).

(** [l[i]]: a negative index counts from the end, an index out of range
    raises IndexError. *)
Definition py_index {A} (l : list A) (i : Z) : result A :=
  let i' := if i <? 0 then i + len l else i in
  if i' <? 0 then inl IndexError
  else match nth_error l (Z.to_nat i') with
       | Some a => inr a
       | None => inl IndexError
       end.

(** ** The monads of the embedding

    [result] for pure code that may raise, [M S] for code that mutates an
    object of type [S]: the object is returned in the state it had when the
    exception was raised. *)

Definition rbind {A B} (r : result A) (f : A -> result B) : result B :=
  match r with
  | inl e => inl e
  | inr a => f a
  end.

Definition M (S A : Type) : Type := S -> result A * S.

Definition ret {S A} (a : A) : M S A := fun s => (inr a, s).

Definition raise {S A} (e : error) : M S A := fun s => (inl e, s).

Definition lift {S A} (r : result A) : M S A := fun s => (r, s).

Definition bind {S A B} (m : M S A) (f : A -> M S B) : M S B :=
  fun s =>
    match m s with
    | (inl e, s') => (inl e, s')
    | (inr a, s') => f a s'
    end.

Notation "'try' x <- r ; k" := (rbind r (fun x => k))
  (at level 10, x name, r at level 100, k at level 200).
Notation "'do' x <- m ; k" := (bind m (fun x => k))
  (at level 10, x name, m at level 100, k at level 200).
Notation "m ;; k" := (bind m (fun _ => k))
  (at level 100, k at level 200, right associativity).

(** [for a in l: body(a)] *)
Fixpoint for_each {S A} (l : list A) (body : A -> M S unit) : M S unit :=
  match l with
  | [] => ret tt
  | a :: l' => body a ;; for_each l' body
  end.

(** ** Circuits

    A gate level circuit over wires [W] is the list of its gates in append
    order.  [G_cu] is the controlled gate that [_gate_u] builds from a 2x2
    matrix; [G_QFT] is the library's Fourier transform block, taken as it is
    parametrised in the source.  Circuit names are not modelled. *)

Definition matrix := list (list Z).

Inductive gate (W : Type) : Type :=
| G_h (qubit : W)
| G_x (qubit : W)
| G_p (theta : Q) (qubit : W)
| G_cp (theta : Q) (control_qubit target_qubit : W)
| G_cx (control_qubit target_qubit : W)
| G_crx (theta : Q) (control_qubit target_qubit : W)
| G_cu (agate : matrix) (coef : Q) (signal : Z) (control_qubit target_qubit : W)
| G_QFT (num_qubits approximation_degree : Z) (inverse : bool) (qargs : list W).

Arguments G_h {W}.
Arguments G_x {W}.
Arguments G_p {W}.
Arguments G_cp {W}.
Arguments G_cx {W}.
Arguments G_crx {W}.
Arguments G_cu {W}.
Arguments G_QFT {W}.

Abbreviation circuit W := (list (gate W)) (only parsing).

(** Appending one instruction to the circuit being built. *)
Definition emit {I} (i : I) : M (list I) unit := fun c => (inr tt, c ++ [i]).

Module utilities_multiples.

(** The body of [for p in range(2, power + 1)]: the loop variable is not
    read, the [break] returns the tiled prefix at once. *)
Fixpoint remainders_loop (number power : Z) (ps : list Z) (remainders : list Z)
  : list Z :=
  match ps with
  | [] => remainders
  | _ :: ps' =>
      let check_num := list_last remainders * 2 in
      let check_num :=
        if number <=? check_num then check_num - number else check_num in
      if check_num =? 1 then
        let complete_repetitions :=
          power / Z.of_nat (length remainders) + 1 in
        slice_to (list_mul remainders complete_repetitions) (power + 1)
      else remainders_loop number power ps' (remainders ++ [check_num])
  end.

Definition get_remainders_power_2 (number power : Z) : list Z :=
  remainders_loop number power (py_range 2 (power + 1)) [1; 2].


Fixpoint bin_digits (p : positive) (acc : string) : string :=
  match p with
  | xH => String "1" acc
  | xO p' => bin_digits p' (String "0" acc)
  | xI p' => bin_digits p' (String "1" acc)
  end.

(** [bin(number)] *)
Definition bin (number : Z) : string :=
  match number with
  | Z0 => "0b0"
  | Zpos p => String "0" (String "b" (bin_digits p EmptyString))
  | Zneg p => String "-" (String "0" (String "b" (bin_digits p EmptyString)))
  end%string.

(** [s[n:]] for [n >= 0] *)
Fixpoint str_drop (n : nat) (s : string) : string :=
  match n, s with
  | O, _ => s
  | S n', String _ s' => str_drop n' s'
  | S _, EmptyString => EmptyString
  end.

(** ['0' * n] *)
Fixpoint zeros (n : nat) : string :=
  match n with
  | O => EmptyString
  | S n' => String "0" (zeros n')
  end.

Definition str_len (s : string) : Z := Z.of_nat (String.length s).

(** [to_binary(number, nbits)].  [None] is Python's [None]: the value of the
    branch that only prints 'Error, a larger nbits number is required.' and
    falls off the end of the function. *)
Definition to_binary (number : Z) (nbits : option Z) : option string :=
  match nbits with
  | None => Some (str_drop 2 (bin number))
  | Some nbits =>
      let binary := str_drop 2 (bin number) in
      if nbits <? str_len binary then None
      else Some (zeros (Z.to_nat (nbits - str_len binary)) ++ binary)%string
  end.

(** [l.sort(key=key, reverse=reverse)]: Python's sort is stable, also when
    reversed (elements with equal keys keep their relative order). *)
Fixpoint sort_insert {A} (before : Z -> Z -> bool) (key : A -> Z) (a : A)
  (l : list A) : list A :=
  match l with
  | [] => [a]
  | b :: l' =>
      if before (key a) (key b) then a :: l
      else b :: sort_insert before key a l'
  end.

Fixpoint sort_with {A} (before : Z -> Z -> bool) (key : A -> Z) (l : list A)
  : list A :=
  match l with
  | [] => []
  | a :: l' => sort_insert before key a (sort_with before key l')
  end.

Definition py_sort {A} (key : A -> Z) (reverse : bool) (l : list A) : list A :=
  sort_with (if reverse then Z.geb else Z.leb) key l.

(** [namedtuple("pairs", ["control", "target"])] *)
Record pairs : Type := Pairs { control : Z; target : Z }.

(** The list [qubit_pairs] of [_c1c2] after its sort. *)
Definition qubit_pairs (n_qubits step : Z) : list pairs :=
  let start := if step =? 1 then 0 else 1 in
  let reverse := if step =? 1 then true else false in
  let qubit_pairs :=
    flat_map (fun target => map (fun control => Pairs control target)
                                (py_range start target))
             (py_range 0 n_qubits) in
  py_sort (fun e => control e + target e) reverse qubit_pairs.

(** [_c1c2(gate, n_qubits, qcirc, first, step)]; [qcirc] is the state.  The
    gate of [_gate_u(gate, param, signal)] is recorded as [G_cu] with these
    arguments; the angle of [crx] is [signal * pi / param]. *)
Definition _c1c2 (agate : matrix) (n_qubits : Z) (first : bool) (step : Z)
  : M (circuit Z) unit :=
  for_each (qubit_pairs n_qubits step) (fun pair =>
    let exponent := target pair - control pair in
    let exponent := if control pair =? 0 then exponent - 1 else exponent in
    let param := (2 ^ exponent)%Q in
    let signal := if (control pair =? 0) && negb first then -1 else 1 in
    let signal := step * signal in
    if (target pair =? n_qubits - 1) && first then
      emit (G_cu agate param signal (control pair) (target pair))
    else
      emit (G_crx (inject_Z signal / param)%Q (control pair) (target pair))).

Definition gate_map {W W'} (f : W -> W') (g : gate W) : gate W' :=
  match g with
  | G_h q => G_h (f q)
  | G_x q => G_x (f q)
  | G_p theta q => G_p theta (f q)
  | G_cp theta c t => G_cp theta (f c) (f t)
  | G_cx c t => G_cx (f c) (f t)
  | G_crx theta c t => G_crx theta (f c) (f t)
  | G_cu u coef signal c t => G_cu u coef signal (f c) (f t)
  | G_QFT n a inv qs => G_QFT n a inv (map f qs)
  end.

(** [circuit.compose(other, qubits, inplace=True)]: wire [i] of [other] is
    wire [qubits[i]] of the circuit. *)
Definition compose (other : circuit Z) (qubits : list Z) : M (circuit Z) unit :=
  for_each other (fun g =>
    emit (gate_map (fun i => nth (Z.to_nat i) qubits 0) g)).

Definition mc_gate (agate : matrix) (controls : list Z) (targ : Z)
  : M (circuit Z) unit :=
  let n_qubits := len controls + 1 in
  let gate_circuit :=
    snd ((_c1c2 agate n_qubits true 1 ;;
          _c1c2 agate n_qubits true (-1) ;;
          _c1c2 agate (n_qubits - 1) false 1 ;;
          _c1c2 agate (n_qubits - 1) false (-1)) []) in
  compose gate_circuit (controls ++ [targ]).

(** [multi_control_z(nqubits)] on at least one wire: the gates of the
    circuit it returns. *)
Definition multi_control_z (nqubits : Z) : circuit Z :=
  let xgate := [[1; 0]; [0; -1]] in
  let controls := py_range 0 (nqubits - 1) in
  let target := nqubits - 1 in
  snd (mc_gate xgate controls target []).

(** The call [multi_control_z(nqubits)] for any [nqubits]: the library
    rejects a circuit of negative size, and on a circuit without wires
    [mc_gate] composes its gate onto wire [-1], which the library rejects
    too. *)
Definition call_multi_control_z (nqubits : Z) : result (circuit Z) :=
  if nqubits <=? 0 then inl CircuitError else inr (multi_control_z nqubits).

End utilities_multiples.

Module operations.
Import utilities_multiples.

(** [num_binary[j]]: subscripting [None] raises TypeError. *)
Definition subscript (num_binary : option string) (j : Z) : result ascii :=
  match num_binary with
  | None => inl TypeError
  | Some s =>
      let j' := if j <? 0 then j + str_len s else j in
      if j' <? 0 then inl IndexError
      else match String.get (Z.to_nat j') s with
           | Some c => inr c
           | None => inl IndexError
           end
  end.

(** The inner comprehension
    [[math.pow(2, nqubits-i-1-j) for j in js if num_binary[j]=='1']]. *)
Fixpoint angle_terms (num_binary : option string) (nqubits i : Z) (js : list Z)
  : result (list Q) :=
  match js with
  | [] => inr []
  | j :: js' =>
      try c <- subscript num_binary j;
      try rest <- angle_terms num_binary nqubits i js';
      inr (if Ascii.eqb c "1" then (2 ^ (nqubits - i - 1 - j))%Q :: rest
           else rest)
  end.

(** [sum(l)]: starts from 0 and adds from the left. *)
Definition py_sum (l : list Q) : Q := fold_left Qplus l 0%Q.

(** The outer comprehension, one angle (as a coefficient of pi) per [i]. *)
Fixpoint angle_list (num_binary : option string) (nqubits : Z) (indices : list Z)
  : result (list Q) :=
  match indices with
  | [] => inr []
  | i :: indices' =>
      try terms <- angle_terms num_binary nqubits i
                     (py_range (nqubits - i - 1) nqubits);
      try rest <- angle_list num_binary nqubits indices';
      inr (py_sum terms :: rest)
  end.

Definition get_angles_phase_addition (number_ nqubits : Z) : result (list Q) :=
  let num_binary := to_binary number_ (Some nqubits) in
  if nqubits <? 0 then inl ValueError
  else angle_list num_binary nqubits (py_range 0 nqubits).

(** [-1 * angles] *)
Definition negate (angles : list Q) : list Q := map (Qmult (-1)) angles.

(** [phase_add(circuit, target_register, num_sum, inv)] *)
Definition phase_add (target_register : list Z) (num_sum : Z) (inv : bool)
  : M (circuit Z) unit :=
  let nqubits := len target_register in
  do angles <- lift (if inv
                     then try a <- get_angles_phase_addition num_sum nqubits;
                          inr (negate a)
                     else get_angles_phase_addition num_sum nqubits);
  for_each (py_range 0 nqubits) (fun i =>
    do theta <- lift (py_index angles i);
    do qubit <- lift (py_index target_register i);
    emit (G_p theta qubit)).

(** [c_phase_add(circuit, control, target_register, num_sum, inv)] *)
Definition c_phase_add (control : Z) (target_register : list Z) (num_sum : Z)
  (inv : bool) : M (circuit Z) unit :=
  let nqubits := len target_register in
  do angles <- lift (if inv
                     then try a <- get_angles_phase_addition num_sum nqubits;
                          inr (negate a)
                     else get_angles_phase_addition num_sum nqubits);
  for_each (py_range 0 nqubits) (fun i =>
    do theta <- lift (py_index angles i);
    do qubit <- lift (py_index target_register i);
    emit (G_cp theta control qubit)).

(** The statements of [c_phase_add_mod_K] on its local [circuit]. *)
Definition c_phase_add_mod_K_body (target_register : list Z)
  (control ancilla_qubit num_sum K approx_QFT : Z) (include_QFTs : bool)
  : M (circuit Z) unit :=
  let nqubits := len target_register in
  let directQFT := G_QFT nqubits approx_QFT false target_register in
  let inverseQFT := G_QFT nqubits approx_QFT true target_register in
  (if include_QFTs then emit directQFT else ret tt) ;;
  c_phase_add control target_register num_sum false ;;
  phase_add target_register K true ;;
  emit inverseQFT ;;
  (do top <- lift (py_index target_register (nqubits - 1));
   emit (G_cx top ancilla_qubit)) ;;
  emit directQFT ;;
  c_phase_add ancilla_qubit target_register K false ;;
  c_phase_add control target_register num_sum true ;;
  emit inverseQFT ;;
  (do top <- lift (py_index target_register (nqubits - 1)); emit (G_x top)) ;;
  (do top <- lift (py_index target_register (nqubits - 1));
   emit (G_cx top ancilla_qubit)) ;;
  (do top <- lift (py_index target_register (nqubits - 1)); emit (G_x top)) ;;
  emit directQFT ;;
  c_phase_add control target_register num_sum false ;;
  (if include_QFTs then emit inverseQFT else ret tt).

(** [c_phase_add_mod_K]: the circuit is created empty, built and returned;
    an exception leaves nothing to the caller. *)
Definition c_phase_add_mod_K (target_register : list Z)
  (control ancilla_qubit num_sum K approx_QFT : Z) (include_QFTs : bool)
  : result (circuit Z) :=
  match c_phase_add_mod_K_body target_register control ancilla_qubit num_sum K
          approx_QFT include_QFTs [] with
  | (inl e, _) => inl e
  | (inr _, circuit) => inr circuit
  end.

End operations.

(** ** The oracle circuit

    Its wires are the bits of the three quantum registers.  Besides gates it
    holds appended sub-circuits: a modulo adder taken from the cache, the
    multi-controlled Z, or the caller's oracle (plain or controlled). *)

Inductive register : Type := input_register | remainders | ancilla.

Record qubit : Type := Qubit { qreg : register; qidx : Z }.

(** [QuantumRegister(size, name)] as the list of its bits. *)
Definition register_bits (r : register) (size : Z) : list qubit :=
  map (Qubit r) (py_range 0 size).

(** A circuit built by [c_phase_add_mod_K] during this invocation; [serial]
    numbers the calls of [c_phase_add_mod_K] and so tells two objects built
    for equal arguments apart. *)
Record adder_instance : Type :=
  Adder { serial : nat; adder_circuit : circuit Z }.

Inductive operation : Type :=
| Op_gate (g : gate qubit)
| Op_adder (inst : adder_instance) (qargs : list qubit)
| Op_circuit (sub : circuit Z) (qargs : list qubit)
| Op_controlled (sub : circuit Z) (num_ctrl_qubits : Z) (qargs : list qubit).

(** What one invocation of [oracle_multiples] mutates: the circuit, the
    dictionary [circuits_sums], and (for the proofs) the log of the [num_sum]
    arguments of its calls of [c_phase_add_mod_K], in call order. *)
Record builder : Type := Builder {
  ops : list operation;
  circuits_sums : gmap Z adder_instance;
  adder_calls : list Z
}.

Definition append_op (o : operation) : M builder unit :=
  fun s => (inr tt, Builder (ops s ++ [o]) (circuits_sums s) (adder_calls s)).

(** [circuit.h(qubits)], [circuit.x(qubits)]: one gate per qubit. *)
Definition each_qubit (g : qubit -> gate qubit) (qubits : list qubit)
  : M builder unit :=
  for_each qubits (fun q => append_op (Op_gate (g q))).

(** [enumerate(l)] *)
Definition enumerate {A} (l : list A) : list (Z * A) :=
  combine (py_range 0 (len l)) l.

(** [np.ceil(np.log2(k)).astype(int)].  A Python integer outside the 64 bit
    range has no [log2] loop (TypeError).  The logarithm of 0 is [-inf] and
    that of a negative number is [nan]; the cast of either to [int] is left
    to the platform and is the least 64 bit integer on x86-64, which is what
    is written here; no theorem below is about [k <= 0].  For
    [1 <= k < 2^64] see the conventions above. *)
Definition np_ceil_log2 (k : Z) : result Z :=
  if (2 ^ 64 <=? k) || (k <? - 2 ^ 63) then inl TypeError
  else if k <=? 0 then inr (- 2 ^ 63)
  else inr (Z.log2_up k).

(** [QuantumRegister(size, name)]: the library rejects a negative size. *)
Definition QuantumRegister (size : Z) : result unit :=
  if size <? 0 then inl CircuitError else inr tt.

Module multiples_functions.
Import utilities_multiples operations.

(** [if num_sum not in circuits_sums: circuits_sums[num_sum] =
    ops.c_phase_add_mod_K(...)] followed by the read [circuits_sums[num_sum]].
    A call that raises is logged and stores nothing. *)
Definition cached_adder (num_sum k approx_QFT : Z) (range_remainders : list Z)
  : M builder adder_instance :=
  fun s =>
    match circuits_sums s !! num_sum with
    | Some inst => (inr inst, s)
    | None =>
        let calls := adder_calls s ++ [num_sum] in
        match c_phase_add_mod_K range_remainders 0 (len range_remainders + 1)
                num_sum k approx_QFT false with
        | inl e => (inl e, Builder (ops s) (circuits_sums s) calls)
        | inr c =>
            let inst := Adder (length (adder_calls s)) c in
            (inr inst,
             Builder (ops s) (<[num_sum := inst]> (circuits_sums s)) calls)
        end
    end.

(** One iteration of either loop: the adder of [num_sum] on input wire [i]. *)
Definition append_adder (k nqubits_input n_rem approx_QFT : Z) (i num_sum : Z)
  : M builder unit :=
  let range_remainders := py_range 1 (n_rem + 1) in
  do inst <- cached_adder num_sum k approx_QFT range_remainders;
  do q <- lift (py_index (register_bits input_register nqubits_input) i);
  append_op (Op_adder inst ([q] ++ register_bits remainders n_rem
                                ++ [Qubit ancilla 0])).

(** [for i, remainder in enumerate(list_remainders)] *)
Definition fold_in (k nqubits_input n_rem approx_QFT : Z)
  (list_remainders : list Z) : M builder unit :=
  for_each (enumerate list_remainders) (fun ir =>
    let remainder := snd ir in
    append_adder k nqubits_input n_rem approx_QFT (fst ir) remainder).

(** [for i, remainder_original in enumerate(list_remainders)] *)
Definition fold_out (k nqubits_input n_rem approx_QFT : Z)
  (list_remainders : list Z) : M builder unit :=
  for_each (enumerate list_remainders) (fun ir =>
    let inverse_remainder := k - snd ir in
    append_adder k nqubits_input n_rem approx_QFT (fst ir) inverse_remainder).

(** [[qubits[i] for i, state in enumerate(state_control[::-1]) if state==0]] *)
Fixpoint zero_state_qubits (qubits : list qubit) (states : list (Z * Z))
  : result (list qubit) :=
  match states with
  | [] => inr []
  | (i, state) :: states' =>
      if state =? 0 then
        try q <- py_index qubits i;
        try rest <- zero_state_qubits qubits states';
        inr (q :: rest)
      else zero_state_qubits qubits states'
  end.

(** The qubits to negate around the caller's oracle. *)
Definition qubits_apply_not_gate (qubits : list qubit)
  (state_control : option (list Z)) : result (list qubit) :=
  match state_control with
  | None | Some [] => inr qubits
  | Some states =>
      if len qubits =? len states
      then zero_state_qubits qubits (enumerate (rev states))
      else inl AssertionError
  end.

(** The [if oracle: ... else: ...] statement.  [oracle] is false when it is
    None or a circuit without instructions; a [qubits_oracle] that is None or
    empty is replaced by the register object, which [list + register]
    rejects with TypeError. *)
Definition mark (nqubits_input n_rem : Z) (oracle : option (circuit Z))
  (qubits_oracle qubits_control : option (list qubit))
  (state_control : option (list Z)) : M builder unit :=
  match oracle with
  | Some (g :: gs) =>
      let oracle := g :: gs in
      let defaulted :=
        match qubits_oracle with None | Some [] => true | _ => false end in
      let qubits_oracle :=
        match qubits_oracle with
        | None | Some [] => register_bits input_register nqubits_input
        | Some qs => qs
        end in
      match qubits_control with
      | Some (c :: cs) =>
          let qubits_control := c :: cs in
          do nots <- lift (qubits_apply_not_gate qubits_control state_control);
          each_qubit G_x nots ;;
          (if defaulted then raise TypeError
           else append_op (Op_controlled oracle (len qubits_control)
                             (qubits_control ++ qubits_oracle))) ;;
          each_qubit G_x nots
      | _ =>
          do nots <- lift (qubits_apply_not_gate qubits_oracle state_control);
          each_qubit G_x nots ;;
          append_op (Op_circuit oracle qubits_oracle) ;;
          each_qubit G_x nots
      end
  | _ =>
      let all_but_last := register_bits remainders (n_rem - 1) in
      each_qubit G_x all_but_last ;;
      (do control_z <- lift (call_multi_control_z (n_rem - 1));
       append_op (Op_circuit control_z all_but_last)) ;;
      each_qubit G_x all_but_last
  end.

(** The statements of [oracle_multiples] after the circuit is created.
    [n_rem] is [len(remainders)]. *)
Definition oracle_multiples_body (k nqubits_input approx_QFT : Z)
  (oracle : option (circuit Z))
  (qubits_oracle qubits_control : option (list qubit))
  (state_control : option (list Z)) (init_H : bool) : M builder unit :=
  let n_remainders := Z.log2_up k in
  let n_rem := n_remainders + 1 in
  let remainder_bits := register_bits remainders n_rem in
  (if init_H
   then each_qubit G_h (register_bits input_register nqubits_input)
   else ret tt) ;;
  each_qubit G_h remainder_bits ;;
  let list_remainders := get_remainders_power_2 k (nqubits_input - 1) in
  fold_in k nqubits_input n_rem approx_QFT list_remainders ;;
  append_op (Op_gate (G_QFT n_rem approx_QFT true remainder_bits)) ;;
  mark nqubits_input n_rem oracle qubits_oracle qubits_control state_control ;;
  append_op (Op_gate (G_QFT n_rem approx_QFT false remainder_bits)) ;;
  fold_out k nqubits_input n_rem approx_QFT list_remainders ;;
  append_op (Op_gate (G_QFT n_rem approx_QFT true remainder_bits)).

(** The returned circuit: its classical register (if any) and operations. *)
Record quantum_circuit : Type := QuantumCircuit {
  classic_multiples : option Z;
  data : list operation
}.

(** The statements after the circuit is created, from empty circuit and
    empty dictionary, with the final state of what they mutated.  They are
    reached only after [np_ceil_log2 k] has returned a number of remainder
    wires that the register accepts, which is [Z.log2_up k]. *)
Definition oracle_multiples_run (k nqubits_input approx_QFT : Z)
  (oracle : option (circuit Z))
  (qubits_oracle qubits_control : option (list qubit))
  (state_control : option (list Z)) (init_H : bool)
  : result unit * builder :=
  oracle_multiples_body k nqubits_input approx_QFT oracle qubits_oracle
    qubits_control state_control init_H (Builder [] ∅ []).

Definition oracle_multiples (k nqubits_input approx_QFT : Z)
  (oracle : option (circuit Z))
  (qubits_oracle qubits_control : option (list qubit))
  (state_control : option (list Z)) (init_H : bool)
  (classic_register : option bool) : result quantum_circuit :=
  try n_remainders <- np_ceil_log2 k;
  let classic_register :=
    match classic_register with None => init_H | Some b => b end in
  try input_register <- QuantumRegister nqubits_input;
  try remainders <- QuantumRegister (n_remainders + 1);
  let classic_multiples :=
    if classic_register then Some nqubits_input else None in
  match oracle_multiples_run k nqubits_input approx_QFT oracle qubits_oracle
          qubits_control state_control init_H with
  | (inl e, _) => inl e
  | (inr _, s) => inr (QuantumCircuit classic_multiples (ops s))
  end.

End multiples_functions.

(** The variant in the repository root, [multiples_functions.py]. *)
Module root_multiples_functions.
Import utilities_multiples operations.

(** Lines 110 to 125: one X bracket around either marking gate. *)
Definition mark (nqubits_input n_rem : Z) (oracle : option (circuit Z))
  (qubits_oracle : option (list qubit)) : M builder unit :=
  let all_but_last := register_bits remainders (n_rem - 1) in
  each_qubit G_x all_but_last ;;
  match oracle with
  | Some (g :: gs) =>
      let qubits_oracle :=
        match qubits_oracle with
        | None | Some [] => register_bits input_register nqubits_input
        | Some qs => qs
        end in
      append_op (Op_circuit (g :: gs) qubits_oracle)
  | _ => do control_z <- lift (call_multi_control_z (n_rem - 1));
         append_op (Op_circuit control_z all_but_last)
  end ;;
  each_qubit G_x all_but_last.

(** The statements after the circuit is created; the two loops are the text
    of the other variant. *)
Definition oracle_multiples_body (k nqubits_input approx_QFT : Z)
  (oracle : option (circuit Z)) (qubits_oracle : option (list qubit))
  (init_H : bool) : M builder unit :=
  let n_remainders := Z.log2_up k in
  let n_rem := n_remainders + 1 in
  let remainder_bits := register_bits remainders n_rem in
  (if init_H
   then each_qubit G_h (register_bits input_register nqubits_input)
   else ret tt) ;;
  each_qubit G_h remainder_bits ;;
  let list_remainders := get_remainders_power_2 k (nqubits_input - 1) in
  multiples_functions.fold_in k nqubits_input n_rem approx_QFT
    list_remainders ;;
  append_op (Op_gate (G_QFT n_rem approx_QFT true remainder_bits)) ;;
  mark nqubits_input n_rem oracle qubits_oracle ;;
  append_op (Op_gate (G_QFT n_rem approx_QFT false remainder_bits)) ;;
  multiples_functions.fold_out k nqubits_input n_rem approx_QFT
    list_remainders ;;
  append_op (Op_gate (G_QFT n_rem approx_QFT true remainder_bits)).

(** A local variable, [None] while it is unassigned: reading it then raises
    UnboundLocalError, which is a NameError. *)
Definition read_local {A} (v : option A) : result A :=
  match v with
  | Some a => inr a
  | None => inl NameError
  end.

(** The opening statements in source order: the number of remainder wires
    (line 45), the default of [classic_register], the registers (lines 54
    and 55), then the creation of the circuit.  [classic_multiples] is
    assigned only in the branch taken when [classic_register] is true (line
    65); both branches then pass it to [QuantumCircuit] (lines 66-70 and
    72-76). *)
Definition oracle_multiples (k nqubits_input approx_QFT : Z)
  (oracle : option (circuit Z)) (qubits_oracle : option (list qubit))
  (init_H : bool) (classic_register : option bool)
  : result multiples_functions.quantum_circuit :=
  try n_remainders <- np_ceil_log2 k;
  let classic_register :=
    match classic_register with None => negb init_H | Some b => b end in
  try input_register <- QuantumRegister nqubits_input;
  try remainders <- QuantumRegister (n_remainders + 1);
  let classic_multiples :=
    if classic_register then Some nqubits_input else None in
  try register <- read_local classic_multiples;
  match oracle_multiples_body k nqubits_input approx_QFT oracle
          qubits_oracle init_H (Builder [] ∅ []) with
  | (inl e, _) => inl e
  | (inr _, s) =>
      inr (multiples_functions.QuantumCircuit (Some register) (ops s))
  end.

End root_multiples_functions.

(** * Properties *)

Import utilities_multiples operations.

(** ** get_remainders_power_2 *)

Section Remainders.

Variable K : Z.
Hypothesis K_ge_3 : 3 <= K.

(** The remainder of the [i]-th power of two. *)
Definition pow2_mod (i : nat) : Z := 2 ^ Z.of_nat i mod K.

Definition pows (n : nat) : list Z := map pow2_mod (seq 0 n).

Lemma pow2_mod_range i : 0 <= pow2_mod i < K.
Proof. unfold pow2_mod. apply Z.mod_pos_bound. lia. Qed.

Lemma pow2_mod_S i :
  pow2_mod (S i) =
  (if K <=? pow2_mod i * 2 then pow2_mod i * 2 - K else pow2_mod i * 2).
Proof.
  pose proof (pow2_mod_range i) as Hr. unfold pow2_mod in *.
  rewrite Nat2Z.inj_succ, Z.pow_succ_r by lia.
  rewrite <- Zmult_mod_idemp_r.
  set (a := 2 ^ Z.of_nat i mod K) in *.
  destruct (K <=? a * 2) eqn:E.
  - apply Z.leb_le in E.
    symmetry. apply Z.mod_unique_pos with (q := 1); lia.
  - apply Z.leb_gt in E. rewrite Z.mod_small; lia.
Qed.

Lemma pows_S n : pows (S n) = pows n ++ [pow2_mod n].
Proof. unfold pows. now rewrite seq_S, map_app. Qed.

Lemma pows_length n : length (pows n) = n.
Proof. unfold pows. now rewrite length_map, length_seq. Qed.

Lemma pows_last n : list_last (pows (S n)) = pow2_mod n.
Proof. unfold list_last. rewrite pows_S. apply last_last. Qed.

Lemma pows_lookup n i : (i < n)%nat -> nth_error (pows n) i = Some (pow2_mod i).
Proof.
  intros Hi. unfold pows.
  rewrite nth_error_map, nth_error_seq.
  destruct (Nat.ltb_spec i n); [reflexivity | lia].
Qed.

(** Once a power has remainder 1 the remainders repeat with that period. *)
Lemma pow2_mod_period n i : pow2_mod n = 1 -> pow2_mod (i + n) = pow2_mod i.
Proof.
  unfold pow2_mod. intros Hn.
  rewrite Nat2Z.inj_add, Z.pow_add_r by lia.
  rewrite <- Zmult_mod_idemp_r, Hn. now rewrite Z.mul_1_r.
Qed.

Lemma pows_shift n m s :
  pow2_mod n = 1 -> map pow2_mod (seq (s + n) m) = map pow2_mod (seq s m).
Proof.
  intros Hn. revert s. induction m as [|m IH]; intros s; simpl.
  - reflexivity.
  - rewrite pow2_mod_period by assumption. f_equal. apply (IH (S s)).
Qed.

(** Tiling the first period gives the remainders themselves. *)
Lemma pows_tile n c : pow2_mod n = 1 -> list_mul (pows n) (Z.of_nat c) = pows (c * n).
Proof.
  intros Hn. unfold list_mul. rewrite Nat2Z.id.
  induction c as [|c IH]; simpl.
  - reflexivity.
  - rewrite IH. unfold pows. rewrite seq_app, map_app. f_equal.
    symmetry. apply (pows_shift n (c * n) 0 Hn).
Qed.

Lemma pows_firstn n m : (m <= n)%nat -> firstn m (pows n) = pows m.
Proof.
  intros Hm. unfold pows. rewrite firstn_map, take_seq. f_equal. f_equal. lia.
Qed.

Variable power : Z.

(** The loop keeps the list equal to the true remainders; [n] elements are
    there and one more comes with every remaining iteration. *)
Lemma remainders_loop_pows ps n :
  (1 <= n)%nat -> (n + length ps)%nat = Z.to_nat (power + 1) -> 0 <= power ->
  remainders_loop K power ps (pows n) = pows (Z.to_nat (power + 1)).
Proof.
  revert n. induction ps as [|p0 ps IH]; intros n Hn Hlen Hpow; simpl in *.
  - f_equal. lia.
  - destruct n as [|n]; [lia |].
    rewrite pows_last, <- pow2_mod_S.
    destruct (pow2_mod (S n) =? 1) eqn:E.
    + apply Z.eqb_eq in E. rewrite pows_length.
      set (c := power / Z.of_nat (S n) + 1).
      assert (Hc : 0 <= power / Z.of_nat (S n)) by (apply Z.div_pos; lia).
      assert (Hlt : power < Z.of_nat (S n) * c).
      { unfold c. pose proof (Z.mod_pos_bound power (Z.of_nat (S n))).
        pose proof (Z.div_mod power (Z.of_nat (S n))). lia. }
      replace c with (Z.of_nat (Z.to_nat c)) by lia.
      rewrite pows_tile by assumption.
      unfold slice_to. destruct (0 <=? power + 1) eqn:E2; [| lia].
      apply pows_firstn. nia.
    + rewrite <- pows_S. apply IH; lia.
Qed.

Lemma py_range_length lo hi : length (py_range lo hi) = Z.to_nat (hi - lo).
Proof. unfold py_range. now rewrite length_map, length_seq. Qed.

Lemma get_remainders_power_2_pows :
  1 <= power -> get_remainders_power_2 K power = pows (Z.to_nat (power + 1)).
Proof.
  intros Hp. unfold get_remainders_power_2.
  assert (H2 : [1; 2] = pows 2).
  { unfold pows, pow2_mod. simpl. rewrite !Z.mod_small by lia. reflexivity. }
  rewrite H2.
  apply remainders_loop_pows; [lia | | lia].
  rewrite py_range_length. lia.
Qed.

End Remainders.

Example get_remainders_power_2_7_5 :
  get_remainders_power_2 7 5 = [1; 2; 4; 1; 2; 4].
Proof. reflexivity. Qed.

Example get_remainders_power_2_12_5 :
  get_remainders_power_2 12 5 = [1; 2; 4; 8; 4; 8].
Proof. reflexivity. Qed.

(** C2 (as amended). For every K >= 3 and p >= 1, get_remainders_power_2(K, p)
    returns exactly p+1 elements and its element at index i <= p is
    2^i mod K, a non-negative integer strictly less than K. *)
Theorem get_remainders_power_2_spec (K p : Z) :
  3 <= K -> 1 <= p ->
  length (get_remainders_power_2 K p) = Z.to_nat (p + 1) /\
  forall i, 0 <= i <= p ->
    nth_error (get_remainders_power_2 K p) (Z.to_nat i) = Some (2 ^ i mod K) /\
    0 <= 2 ^ i mod K < K.
Proof.
  intros HK Hp. rewrite get_remainders_power_2_pows by assumption. split.
  - apply pows_length.
  - intros i Hi. split.
    + rewrite pows_lookup by lia. unfold pow2_mod. now rewrite Z2Nat.id by lia.
    + apply Z.mod_pos_bound. lia.
Qed.

Lemma get_remainders_power_2_spec_witness :
  length (get_remainders_power_2 7 5) = 6%nat /\
  nth_error (get_remainders_power_2 7 5) 4 = Some 2.
Proof.
  destruct (get_remainders_power_2_spec 7 5 ltac:(lia) ltac:(lia)) as [Hl Hi].
  split; [exact Hl |].
  exact (proj1 (Hi 4 ltac:(lia))).
Defined.

(** C2 as stated fails: for p = 0 the two seed elements are returned, for
    K = 2 the seed 2 is not a remainder, and 2^2 mod 4 is not positive. *)
Lemma get_remainders_power_2_counterexample :
  length (get_remainders_power_2 3 0) <> Z.to_nat (0 + 1) /\
  nth_error (get_remainders_power_2 2 1) 1 <> Some (2 ^ 1 mod 2) /\
  nth_error (get_remainders_power_2 4 2) 2 = Some 0.
Proof. repeat split; vm_compute; congruence. Qed.

(** ** The pair order of _c1c2 *)

Section Sorting.

Context {A : Type}.
Variable before : Z -> Z -> bool.
Variable key : A -> Z.
Hypothesis before_total : forall a b, before a b = false -> before b a = true.
Hypothesis before_trans :
  forall a b c, before a b = true -> before b c = true -> before a c = true.

Definition in_order (a b : A) : Prop := before (key a) (key b) = true.

Lemma sort_insert_perm a l : Permutation (a :: l) (sort_insert before key a l).
Proof.
  induction l as [|b l IH]; simpl.
  - reflexivity.
  - destruct (before (key a) (key b)); [reflexivity |].
    rewrite perm_swap. now constructor.
Qed.

Lemma sort_with_perm l : Permutation l (sort_with before key l).
Proof.
  induction l as [|a l IH]; simpl.
  - constructor.
  - rewrite <- sort_insert_perm. now constructor.
Qed.

Lemma sort_insert_sorted a l :
  StronglySorted in_order l -> StronglySorted in_order (sort_insert before key a l).
Proof.
  induction 1 as [|b l Hs IH Hall]; simpl.
  - repeat constructor.
  - destruct (before (key a) (key b)) eqn:E.
    + constructor; [now constructor |].
      constructor; [exact E |].
      eapply Forall_impl; [exact Hall |].
      intros c Hc. unfold in_order in *. eauto.
    + constructor; [exact IH |].
      apply (Permutation_Forall (sort_insert_perm a l)).
      constructor; [now apply before_total | exact Hall].
Qed.

Lemma sort_with_sorted l : StronglySorted in_order (sort_with before key l).
Proof.
  induction l as [|a l IH]; simpl.
  - constructor.
  - now apply sort_insert_sorted.
Qed.

(** The sort is stable: elements that the keys do not separate stay in the
    order [R] they had in the list that is sorted. *)
Variable R : A -> A -> Prop.

Definition in_stable_order (a b : A) : Prop :=
  in_order a b /\ (in_order b a -> R a b).

Lemma sort_insert_stable a l :
  Forall (R a) l -> StronglySorted in_stable_order l ->
  StronglySorted in_stable_order (sort_insert before key a l).
Proof.
  intros Ha Hs. induction Hs as [|b l Hs IH Hall]; simpl.
  - repeat constructor.
  - apply Forall_cons_1 in Ha. destruct Ha as [Hab Hal].
    destruct (before (key a) (key b)) eqn:E.
    + constructor; [now constructor |].
      constructor; [split; [exact E | intros _; exact Hab] |].
      apply Forall_forall. intros c Hc. split.
      * apply (before_trans _ (key b)); [exact E |].
        rewrite Forall_forall in Hall. now apply Hall.
      * intros _. rewrite Forall_forall in Hal. now apply Hal.
    + constructor; [now apply IH |].
      apply (Permutation_Forall (sort_insert_perm a l)).
      constructor; [| exact Hall].
      split; [now apply before_total |].
      unfold in_order. rewrite E. discriminate.
Qed.

Lemma sort_with_stable l :
  StronglySorted R l -> StronglySorted in_stable_order (sort_with before key l).
Proof.
  induction 1 as [|a l Hs IH Hall]; simpl.
  - constructor.
  - apply sort_insert_stable; [| exact IH].
    now apply (Permutation_Forall (sort_with_perm l)).
Qed.

End Sorting.

Lemma py_range_In lo hi i : In i (py_range lo hi) <-> lo <= i < hi.
Proof.
  unfold py_range. rewrite in_map_iff. split.
  - intros (j & <- & Hj). apply in_seq in Hj. lia.
  - intros Hi. exists (Z.to_nat (i - lo)). split; [lia |].
    apply in_seq. lia.
Qed.

Lemma py_range_NoDup lo hi : NoDup (py_range lo hi).
Proof.
  unfold py_range. apply NoDup_ListNoDup, Injective_map_NoDup.
  - intros a b Hab. lia.
  - apply seq_NoDup.
Qed.

(** The pairs of [_c1c2] before they are sorted. *)
Definition enumerated_pairs (start : Z) (targets : list Z) : list pairs :=
  flat_map (fun target => map (fun control => Pairs control target)
                              (py_range start target)) targets.

Lemma enumerated_pairs_In start targets c t :
  In (Pairs c t) (enumerated_pairs start targets) <->
  In t targets /\ start <= c < t.
Proof.
  unfold enumerated_pairs. rewrite in_flat_map. split.
  - intros (t' & Ht' & Hin). apply in_map_iff in Hin.
    destruct Hin as (c' & Heq & Hc'). inversion Heq; subst.
    apply py_range_In in Hc'. auto.
  - intros (Ht & Hc). exists t. split; [exact Ht |].
    apply in_map_iff. exists c. split; [reflexivity |].
    now apply py_range_In.
Qed.

Lemma enumerated_pairs_NoDup start targets :
  NoDup targets -> NoDup (enumerated_pairs start targets).
Proof.
  induction 1 as [|t targets Hnotin Hnd IH]; simpl.
  - constructor.
  - apply NoDup_app. repeat split.
    + apply NoDup_ListNoDup, Injective_map_NoDup.
      * intros a b Hab. now inversion Hab.
      * apply NoDup_ListNoDup, py_range_NoDup.
    + intros [c t'] Hin Hin'.
      apply list_elem_of_In, in_map_iff in Hin. destruct Hin as (c' & Heq & _).
      inversion Heq; subst.
      apply list_elem_of_In, enumerated_pairs_In in Hin'.
      apply Hnotin, list_elem_of_In. tauto.
    + exact IH.
Qed.

(** The order of the enumeration: by target, and by control for one target. *)
Definition enumerated_before (a b : pairs) : Prop :=
  target a < target b \/ (target a = target b /\ control a < control b).

Lemma py_range_sorted lo hi : StronglySorted Z.lt (py_range lo hi).
Proof.
  unfold py_range. generalize (Z.to_nat (hi - lo)) as n. intros n.
  generalize 0%nat as i. induction n as [|n IH]; intros i; simpl.
  - constructor.
  - constructor; [apply IH |].
    apply Forall_forall. intros j Hj. apply list_elem_of_In, in_map_iff in Hj.
    destruct Hj as (m & <- & Hm). apply in_seq in Hm. lia.
Qed.

Lemma enumerated_pairs_sorted start targets :
  StronglySorted Z.lt targets ->
  StronglySorted enumerated_before (enumerated_pairs start targets).
Proof.
  induction 1 as [|t targets Hs IH Hall]; simpl.
  - constructor.
  - apply StronglySorted_app_2; [| | exact IH].
    + intros [c1 t1] [c2 t2] H1 H2.
      apply list_elem_of_In, in_map_iff in H1. destruct H1 as (c & Heq & _).
      inversion Heq; subst.
      apply list_elem_of_In, enumerated_pairs_In in H2. destruct H2 as [H2 _].
      left. simpl. rewrite Forall_forall in Hall.
      now apply Hall, list_elem_of_In.
    + apply StronglySorted_fmap with (R1 := Z.lt).
      * intros c1 c2 Hc. right. simpl. auto.
      * apply py_range_sorted.
Qed.

(** The gate [_c1c2] emits for one pair. *)
Definition c1c2_gate (agate : matrix) (n_qubits : Z) (first : bool) (step : Z)
  (pair : pairs) : gate Z :=
  let exponent := target pair - control pair in
  let exponent := if control pair =? 0 then exponent - 1 else exponent in
  let param := (2 ^ exponent)%Q in
  let signal := if (control pair =? 0) && negb first then -1 else 1 in
  let signal := step * signal in
  if (target pair =? n_qubits - 1) && first then
    G_cu agate param signal (control pair) (target pair)
  else G_crx (inject_Z signal / param)%Q (control pair) (target pair).

(** The wires a gate acts on, in argument order. *)
Definition gate_qubits {W} (g : gate W) : list W :=
  match g with
  | G_h q | G_x q | G_p _ q => [q]
  | G_cp _ c t | G_cx c t | G_crx _ c t | G_cu _ _ _ c t => [c; t]
  | G_QFT _ _ _ qs => qs
  end.

Lemma for_each_ext {S A} (l : list A) (body body' : A -> M S unit) s :
  (forall a s', body a s' = body' a s') ->
  for_each l body s = for_each l body' s.
Proof.
  intros Hext. revert s. induction l as [|a l IH]; intros s; simpl.
  - reflexivity.
  - unfold bind. rewrite Hext. destruct (body' a s) as [[e|[]] s']; auto.
Qed.

Lemma for_each_emit {I A} (f : A -> I) (l : list A) (c : list I) :
  for_each l (fun a => emit (f a)) c = (inr tt, c ++ map f l).
Proof.
  revert c. induction l as [|a l IH]; intros c; simpl.
  - now rewrite app_nil_r.
  - unfold bind, emit at 1. rewrite IH. now rewrite <- app_assoc.
Qed.

Lemma c1c2_emits agate n_qubits first step c :
  _c1c2 agate n_qubits first step c =
  (inr tt, c ++ map (c1c2_gate agate n_qubits first step)
                    (qubit_pairs n_qubits step)).
Proof.
  unfold _c1c2. rewrite <- for_each_emit. apply for_each_ext.
  intros pair s'. unfold c1c2_gate.
  now destruct ((target pair =? n_qubits - 1) && first).
Qed.

Lemma c1c2_gate_qubits agate n_qubits first step pair :
  gate_qubits (c1c2_gate agate n_qubits first step pair) =
  [control pair; target pair].
Proof.
  unfold c1c2_gate. now destruct ((target pair =? n_qubits - 1) && first).
Qed.

Lemma StronglySorted_weaken {A} (R R' : A -> A -> Prop) (l : list A) :
  (forall a b, R a b -> R' a b) -> StronglySorted R l -> StronglySorted R' l.
Proof.
  intros HR. induction 1 as [|a l Hs IH Hall]; constructor; [exact IH |].
  eapply Forall_impl; [exact Hall |]. intros b. apply HR.
Qed.

Lemma qubit_pairs_sorted_enumeration n_qubits step :
  qubit_pairs n_qubits step =
  sort_with (if step =? 1 then Z.geb else Z.leb)
            (fun e => control e + target e)
            (enumerated_pairs (if step =? 1 then 0 else 1)
                              (py_range 0 n_qubits)).
Proof. unfold qubit_pairs, py_sort. now destruct (step =? 1). Qed.

(** The order of the pairs of a pass: by control + target, descending when
    [step = 1] and ascending otherwise; pairs with the same sum follow by
    ascending target, the order in which they are enumerated. *)
Definition pair_before (step : Z) (a b : pairs) : Prop :=
  let key := fun e => control e + target e in
  (if step =? 1 then key b < key a else key a < key b) \/
  (key a = key b /\ target a < target b).

Lemma pair_before_asymmetric step a b :
  pair_before step a b -> pair_before step b a -> False.
Proof. unfold pair_before. destruct (step =? 1); lia. Qed.

Lemma qubit_pairs_stable n_qubits step :
  StronglySorted (pair_before step) (qubit_pairs n_qubits step).
Proof.
  rewrite qubit_pairs_sorted_enumeration.
  eapply StronglySorted_weaken;
    [| apply (sort_with_stable _ _) with (R := enumerated_before);
       [| | apply enumerated_pairs_sorted, py_range_sorted]].
  - intros a b [Hab Htie]. unfold in_order, enumerated_before in *.
    unfold pair_before. destruct (step =? 1).
    + destruct (Z.eq_dec (control a + target a) (control b + target b))
        as [Heq | Hne]; [right | left; lia].
      split; [exact Heq |]. destruct Htie; lia.
    + destruct (Z.eq_dec (control a + target a) (control b + target b))
        as [Heq | Hne]; [right | left; lia].
      split; [exact Heq |]. destruct Htie; lia.
  - intros a b. destruct (step =? 1); lia.
  - intros a b c. destruct (step =? 1); lia.
Qed.

(** C4 (as amended). A pass of the decomposition emits one gate per pair
    (control, target) with start <= control < target < n_qubits, where start
    is 0 in the forward pass (step = 1) and 1 in the reverse pass; each pair
    occurs once, and the pairs are sorted stably by control + target,
    descending in the forward pass and ascending in the reverse pass: pairs
    with the same sum keep the order of the enumeration, ascending target.
    This fixes the whole order: a list of the same pairs in an order that
    meets [pair_before] is the list of the pass. *)
Theorem c1c2_pair_order (agate : matrix) (n_qubits : Z) (first : bool)
  (step : Z) :
  let start := if step =? 1 then 0 else 1 in
  let key := fun e => control e + target e in
  map gate_qubits (snd (_c1c2 agate n_qubits first step [])) =
    map (fun e => [control e; target e]) (qubit_pairs n_qubits step) /\
  (forall c t, In (Pairs c t) (qubit_pairs n_qubits step) <->
               start <= c < t /\ t < n_qubits) /\
  NoDup (qubit_pairs n_qubits step) /\
  StronglySorted
    (fun a b => (if step =? 1 then key b < key a else key a < key b) \/
                (key a = key b /\ target a < target b))
    (qubit_pairs n_qubits step) /\
  (forall l, Permutation l (qubit_pairs n_qubits step) ->
             StronglySorted (pair_before step) l ->
             l = qubit_pairs n_qubits step).
Proof.
  intros start key. rewrite c1c2_emits.
  split; [| split; [| split; [| split]]].
  - simpl. rewrite map_map.
    apply map_ext. intros pair. apply c1c2_gate_qubits.
  - rewrite qubit_pairs_sorted_enumeration. fold start key.
    set (before := if step =? 1 then Z.geb else Z.leb).
    set (l := enumerated_pairs start (py_range 0 n_qubits)).
    pose proof (sort_with_perm before key l) as Hperm.
    intros c t. rewrite <- (Permutation_in' eq_refl Hperm).
    subst l. rewrite enumerated_pairs_In, py_range_In.
    subst start. destruct (step =? 1); lia.
  - rewrite qubit_pairs_sorted_enumeration, <- sort_with_perm.
    apply enumerated_pairs_NoDup, py_range_NoDup.
  - apply (qubit_pairs_stable n_qubits step).
  - intros l Hperm Hl.
    apply (StronglySorted_unique_strong (pair_before step));
      [| exact Hl | apply qubit_pairs_stable | exact Hperm].
    intros a b _ _ Hab Hba.
    destruct (pair_before_asymmetric step a b Hab Hba).
Qed.

(** The forward pass of four wires has the tie (1, 2), (0, 3); the reverse
    pass of five wires has the tie (2, 3), (1, 4). *)
Lemma qubit_pairs_ties :
  qubit_pairs 4 1 =
    [Pairs 2 3; Pairs 1 3; Pairs 1 2; Pairs 0 3; Pairs 0 2; Pairs 0 1] /\
  qubit_pairs 5 (-1) =
    [Pairs 1 2; Pairs 1 3; Pairs 2 3; Pairs 1 4; Pairs 2 4; Pairs 3 4].
Proof. split; reflexivity. Qed.

(** C4 as stated fails: the forward pass of three wires is not ascending in
    control + target, the reverse pass of four wires is not descending and
    has no pair with control 0. *)
Lemma c1c2_pair_order_counterexample :
  let key := fun e => control e + target e in
  qubit_pairs 3 1 = [Pairs 1 2; Pairs 0 2; Pairs 0 1] /\
  ~ StronglySorted (fun a b => key a <= key b) (qubit_pairs 3 1) /\
  qubit_pairs 4 (-1) = [Pairs 1 2; Pairs 1 3; Pairs 2 3] /\
  ~ StronglySorted (fun a b => key b <= key a) (qubit_pairs 4 (-1)).
Proof.
  intros key. split; [reflexivity |]. split.
  - change (qubit_pairs 3 1) with [Pairs 1 2; Pairs 0 2; Pairs 0 1].
    intros H. apply StronglySorted_inv in H. destruct H as [_ H].
    apply Forall_cons_1 in H. destruct H as [H _]. vm_compute in H. congruence.
  - split; [reflexivity |].
    change (qubit_pairs 4 (-1)) with [Pairs 1 2; Pairs 1 3; Pairs 2 3].
    intros H. apply StronglySorted_inv in H. destruct H as [_ H].
    apply Forall_cons_1 in H. destruct H as [H _]. vm_compute in H. congruence.
Qed.

(** ** Builders only append

    A builder that receives the circuit [c] leaves [c ++ g], where the gates
    [g] and the outcome are those of a run on the empty circuit. *)

Definition appends {I A} (m : M (list I) A) : Prop :=
  forall c, m c = (fst (m []), c ++ snd (m [])).

Create HintDb appends.

Lemma appends_ret {I A} (a : A) : appends (@ret (list I) A a).
Proof. intros c. unfold ret. simpl. now rewrite app_nil_r. Qed.

Lemma appends_raise {I A} (e : error) : appends (@raise (list I) A e).
Proof. intros c. unfold raise. simpl. now rewrite app_nil_r. Qed.

Lemma appends_lift {I A} (r : result A) : appends (@lift (list I) A r).
Proof. intros c. unfold lift. simpl. now rewrite app_nil_r. Qed.

Lemma appends_emit {I} (i : I) : appends (emit i).
Proof. intros c. reflexivity. Qed.

Lemma appends_bind {I A B} (m : M (list I) A) (f : A -> M (list I) B) :
  appends m -> (forall a, appends (f a)) -> appends (bind m f).
Proof.
  intros Hm Hf c. unfold bind. rewrite (Hm c).
  destruct (m []) as [[e | a] g]; simpl.
  - reflexivity.
  - rewrite (Hf a (c ++ g)), (Hf a g). simpl. now rewrite app_assoc.
Qed.

Lemma appends_for_each {I A} (l : list A) (body : A -> M (list I) unit) :
  (forall a, appends (body a)) -> appends (for_each l body).
Proof.
  intros Hb. induction l as [|a l IH]; simpl.
  - apply appends_ret.
  - apply appends_bind; auto.
Qed.

Lemma appends_if {I A} (b : bool) (m1 m2 : M (list I) A) :
  appends m1 -> appends m2 -> appends (if b then m1 else m2).
Proof. now destruct b. Qed.

#[local] Hint Resolve appends_ret appends_raise appends_lift appends_emit
  appends_bind appends_for_each appends_if : appends.

Lemma appends_phase_add target_register num_sum inv :
  appends (phase_add target_register num_sum inv).
Proof. unfold phase_add. auto 10 with appends. Qed.

Lemma appends_c_phase_add control target_register num_sum inv :
  appends (c_phase_add control target_register num_sum inv).
Proof. unfold c_phase_add. auto 10 with appends. Qed.

#[local] Hint Resolve appends_phase_add appends_c_phase_add : appends.

(** One step of a sequence, in terms of the run on the empty circuit. *)
Lemma bind_appends {I A B} (m : M (list I) A) (f : A -> M (list I) B) c :
  appends m ->
  bind m f c =
  match m [] with
  | (inl e, g) => (inl e, c ++ g)
  | (inr a, g) => f a (c ++ g)
  end.
Proof.
  intros Hm. unfold bind. rewrite (Hm c). now destruct (m []) as [[e | a] g].
Qed.

(** Running a sequence statement by statement on a known circuit. *)
Ltac run_step :=
  first
    [ match goal with
      | H : ?m [] = _ |- context [?m []] => rewrite H; cbv beta iota
      end
    | match goal with
      | |- context [emit ?g ?c] =>
          change (emit g c) with (@inr error unit tt, c ++ [g]); cbv beta iota
      | |- context [@ret ?S ?A ?a ?c] =>
          change (@ret S A a c) with (@inr error A a, c); cbv beta iota
      | |- context [@lift ?S ?A ?r ?c] =>
          change (@lift S A r c) with (r, c); cbv beta iota
      end
    | progress (rewrite bind_appends by auto 10 with appends; cbv beta iota)
    | match goal with
      | |- context [match ?m [] with _ => _ end] =>
          let E := fresh "E" in
          destruct (m []) as [[?|[]] ?] eqn:E; cbv beta iota
      | |- context [match ?r with inl _ => _ | inr _ => _ end] =>
          let E := fresh "E" in destruct r eqn:E; cbv beta iota
      end ].

(** The flag [include_QFTs] puts the direct transform in front of the
    sequence built without it and the inverse transform behind; one build
    fails exactly when the other does, with the same exception. *)
Lemma include_QFTs_wraps (target_register : list Z)
  (control ancilla_qubit num_sum K approx_QFT : Z) :
  c_phase_add_mod_K target_register control ancilla_qubit num_sum K
    approx_QFT true =
  (try gates <- c_phase_add_mod_K target_register control ancilla_qubit
                  num_sum K approx_QFT false;
   inr ([G_QFT (len target_register) approx_QFT false target_register] ++
        gates ++
        [G_QFT (len target_register) approx_QFT true target_register])).
Proof.
  unfold c_phase_add_mod_K, c_phase_add_mod_K_body.
  set (directQFT := G_QFT (len target_register) approx_QFT false
                      target_register).
  set (inverseQFT := G_QFT (len target_register) approx_QFT true
                       target_register).
  repeat run_step; simpl; reflexivity.
Qed.

(** ** to_binary and the bits of the addend *)

Definition digit_char (b : bool) : ascii := if b then "1"%char else "0"%char.

Lemma string_length_append (s1 s2 : string) :
  String.length (s1 ++ s2) = (String.length s1 + String.length s2)%nat.
Proof. induction s1 as [|c s1 IH]; simpl; [reflexivity | now rewrite IH]. Qed.

Lemma string_append_assoc (s1 s2 s3 : string) :
  ((s1 ++ s2) ++ s3 = s1 ++ (s2 ++ s3))%string.
Proof.
  induction s1 as [|c s1 IH]; [reflexivity |].
  change (String c ((s1 ++ s2) ++ s3) = String c (s1 ++ (s2 ++ s3)))%string.
  now rewrite IH.
Qed.

Lemma string_get_append_l (s1 s2 : string) (j : nat) :
  (j < String.length s1)%nat -> String.get j (s1 ++ s2) = String.get j s1.
Proof. intros Hj. symmetry. now apply append_correct1. Qed.

Lemma string_get_append_r (s1 s2 : string) (j : nat) :
  (String.length s1 <= j)%nat ->
  String.get j (s1 ++ s2) = String.get (j - String.length s1) s2.
Proof.
  intros Hj. rewrite (append_correct2 s1 s2 (j - String.length s1)).
  f_equal. lia.
Qed.

Lemma bin_digits_acc p acc :
  bin_digits p acc = (bin_digits p EmptyString ++ acc)%string.
Proof.
  revert acc. induction p as [p IH | p IH |]; intros acc; simpl.
  - rewrite (IH (String "1" acc)), (IH (String "1" EmptyString)).
    now rewrite string_append_assoc.
  - rewrite (IH (String "0" acc)), (IH (String "0" EmptyString)).
    now rewrite string_append_assoc.
  - reflexivity.
Qed.

Lemma bin_digits_length p :
  String.length (bin_digits p EmptyString) = Pos.size_nat p.
Proof.
  induction p as [p IH | p IH |]; simpl; try reflexivity;
    rewrite bin_digits_acc, string_length_append, IH; simpl; lia.
Qed.

Lemma size_nat_bounds p :
  2 ^ (Z.of_nat (Pos.size_nat p) - 1) <= Zpos p < 2 ^ Z.of_nat (Pos.size_nat p).
Proof.
  induction p as [p IH | p IH |]; simpl Pos.size_nat.
  - rewrite Nat2Z.inj_succ, Z.pow_succ_r by lia.
    replace (Z.succ (Z.of_nat (Pos.size_nat p)) - 1)
      with (Z.succ (Z.of_nat (Pos.size_nat p) - 1)) by lia.
    assert (0 < Pos.size_nat p)%nat by (destruct p; simpl; lia).
    rewrite Z.pow_succ_r by lia. lia.
  - rewrite Nat2Z.inj_succ, Z.pow_succ_r by lia.
    replace (Z.succ (Z.of_nat (Pos.size_nat p)) - 1)
      with (Z.succ (Z.of_nat (Pos.size_nat p) - 1)) by lia.
    assert (0 < Pos.size_nat p)%nat by (destruct p; simpl; lia).
    rewrite Z.pow_succ_r by lia. lia.
  - simpl. lia.
Qed.

(** The characters of [bin] are the bits, most significant first. *)
Lemma bin_digits_get p j :
  (j < Pos.size_nat p)%nat ->
  String.get j (bin_digits p EmptyString) =
  Some (digit_char (Z.testbit (Zpos p) (Z.of_nat (Pos.size_nat p - 1 - j)))).
Proof.
  revert j. induction p as [p IH | p IH |]; intros j Hj; simpl in Hj.
  - simpl bin_digits. rewrite bin_digits_acc.
    destruct (Nat.eq_dec j (Pos.size_nat p)) as [-> | Hne].
    + rewrite string_get_append_r by (rewrite bin_digits_length; lia).
      rewrite bin_digits_length, Nat.sub_diag. simpl Pos.size_nat.
      replace (S (Pos.size_nat p) - 1 - Pos.size_nat p)%nat with 0%nat by lia.
      reflexivity.
    + rewrite string_get_append_l by (rewrite bin_digits_length; lia).
      rewrite IH by lia. simpl Pos.size_nat.
      replace (Z.of_nat (S (Pos.size_nat p) - 1 - j))
        with (Z.succ (Z.of_nat (Pos.size_nat p - 1 - j))) by lia.
      rewrite Pos2Z.inj_xI, Z.testbit_odd_succ by lia. reflexivity.
  - simpl bin_digits. rewrite bin_digits_acc.
    destruct (Nat.eq_dec j (Pos.size_nat p)) as [-> | Hne].
    + rewrite string_get_append_r by (rewrite bin_digits_length; lia).
      rewrite bin_digits_length, Nat.sub_diag. simpl Pos.size_nat.
      replace (S (Pos.size_nat p) - 1 - Pos.size_nat p)%nat with 0%nat by lia.
      reflexivity.
    + rewrite string_get_append_l by (rewrite bin_digits_length; lia).
      rewrite IH by lia. simpl Pos.size_nat.
      replace (Z.of_nat (S (Pos.size_nat p) - 1 - j))
        with (Z.succ (Z.of_nat (Pos.size_nat p - 1 - j))) by lia.
      rewrite Pos2Z.inj_xO, Z.testbit_even_succ by lia. reflexivity.
  - assert (j = 0)%nat as -> by lia. reflexivity.
Qed.

Lemma zeros_length n : String.length (zeros n) = n.
Proof. induction n; simpl; congruence. Qed.

Lemma zeros_get n j : (j < n)%nat -> String.get j (zeros n) = Some "0"%char.
Proof.
  revert j. induction n as [|n IH]; intros j Hj; [lia |].
  destruct j; simpl; [reflexivity | apply IH; lia].
Qed.

(** The length of [bin(m)[2:]] for a non-negative [m]. *)
Definition bit_length (m : Z) : Z :=
  match m with
  | Zpos p => Z.of_nat (Pos.size_nat p)
  | _ => 1
  end.

Lemma bit_length_pos m : 0 < bit_length m.
Proof. destruct m as [|p|p]; simpl; try lia. destruct p; simpl; lia. Qed.

Lemma bin_length m : 0 <= m -> str_len (str_drop 2 (bin m)) = bit_length m.
Proof.
  destruct m as [|p|p]; intros Hm; [reflexivity | | lia].
  unfold str_len. simpl. now rewrite bin_digits_length.
Qed.

Lemma bit_length_fits m w : 0 <= m -> 1 <= w -> (bit_length m <= w <-> m < 2 ^ w).
Proof.
  intros Hm Hw. destruct m as [|p|p]; simpl; [| | lia].
  - split; [intros _; apply Z.pow_pos_nonneg; lia | lia].
  - pose proof (size_nat_bounds p) as [Hlo Hhi]. split; intros H.
    + eapply Z.lt_le_trans; [exact Hhi |]. apply Z.pow_le_mono_r; lia.
    + destruct (Z_le_gt_dec (Z.of_nat (Pos.size_nat p)) w) as [|Hgt]; [lia |].
      assert (2 ^ w <= 2 ^ (Z.of_nat (Pos.size_nat p) - 1))
        by (apply Z.pow_le_mono_r; lia).
      lia.
Qed.

(** [to_binary] on an addend that fits: [w] characters, the bits of [m] from
    the most significant one. *)
Lemma to_binary_fits m w :
  0 <= m < 2 ^ w -> 1 <= w ->
  exists s, to_binary m (Some w) = Some s /\
            str_len s = w /\
            forall j, 0 <= j < w ->
              String.get (Z.to_nat j) s =
              Some (digit_char (Z.testbit m (w - 1 - j))).
Proof.
  intros [Hm Hlt] Hw. unfold to_binary.
  pose proof (proj2 (bit_length_fits m w Hm Hw) Hlt) as Hlen.
  rewrite bin_length by assumption.
  destruct (w <? bit_length m) eqn:E; [apply Z.ltb_lt in E; lia |].
  eexists. split; [reflexivity |]. split.
  - unfold str_len. rewrite string_length_append, zeros_length.
    fold (str_len (str_drop 2 (bin m))). rewrite Nat2Z.inj_add.
    fold (str_len (str_drop 2 (bin m))). rewrite bin_length by assumption.
    pose proof (bit_length_pos m). lia.
  - intros j Hj.
    pose proof (bit_length_pos m) as Hpos.
    destruct (Z_lt_le_dec j (w - bit_length m)) as [Hlow | Hhigh].
    + rewrite string_get_append_l by (rewrite zeros_length; lia).
      rewrite zeros_get by lia.
      destruct m as [|p|p]; [now rewrite Z.bits_0 | | lia].
      rewrite Z.bits_above_log2; [reflexivity | lia |].
      pose proof (size_nat_bounds p) as [_ Hhi]. simpl in Hlow.
      apply Z.log2_lt_pow2; [lia |].
      eapply Z.lt_le_trans; [exact Hhi |]. apply Z.pow_le_mono_r; lia.
    + rewrite string_get_append_r by (rewrite zeros_length; lia).
      rewrite zeros_length.
      destruct m as [|p|p]; [| | lia].
      * simpl in *. replace (Z.to_nat j - Z.to_nat (w - 1))%nat with 0%nat by lia.
        now rewrite Z.bits_0.
      * simpl in *. rewrite bin_digits_get by lia. do 3 f_equal. lia.
Qed.

(** [to_binary] on a non-negative addend that does not fit: the branch
    that prints. *)
Lemma to_binary_too_wide m w :
  0 <= m -> 1 <= w -> 2 ^ w <= m -> to_binary m (Some w) = None.
Proof.
  intros Hm Hw Hge. unfold to_binary. rewrite bin_length by assumption.
  destruct (w <? bit_length m) eqn:E; [reflexivity |].
  apply Z.ltb_ge in E. apply bit_length_fits in E; lia.
Qed.

(** ** The angles of the phase addition *)

(** The terms of the inner comprehension, read off the bits of [m]: the
    character at index [j] is the bit of weight [w - 1 - j]. *)
Definition bit_terms (m w i : Z) (js : list Z) : list Q :=
  flat_map (fun j => if Z.testbit m (w - 1 - j)
                     then [(2 ^ (w - i - 1 - j))%Q] else []) js.

Definition Qsum (l : list Q) : Q := fold_right Qplus 0%Q l.

(** The angle of wire [i] for the addend [m], in closed form. *)
Definition draper_angle (m i : Z) : Q :=
  (inject_Z (m mod 2 ^ (i + 1)) / inject_Z (2 ^ i))%Q.

Lemma py_sum_Qsum l : (py_sum l == Qsum l)%Q.
Proof.
  unfold py_sum.
  assert (H : forall a, (fold_left Qplus l a == a + Qsum l)%Q).
  { induction l as [|x l IH]; intros a; simpl.
    - ring.
    - rewrite IH. ring. }
  rewrite H. ring.
Qed.

Lemma py_range_cons lo hi : lo < hi -> py_range lo hi = lo :: py_range (lo + 1) hi.
Proof.
  intros Hlt. unfold py_range.
  replace (Z.to_nat (hi - lo)) with (S (Z.to_nat (hi - (lo + 1)))) by lia.
  simpl. f_equal; [lia |].
  rewrite <- seq_shift, map_map. apply map_ext. intros i. lia.
Qed.

Lemma py_range_nil lo hi : hi <= lo -> py_range lo hi = [].
Proof.
  intros Hle. unfold py_range. now replace (Z.to_nat (hi - lo)) with 0%nat by lia.
Qed.

Lemma mod_pow2_succ m n :
  0 <= n ->
  m mod 2 ^ (n + 1) = m mod 2 ^ n + (if Z.testbit m n then 2 ^ n else 0).
Proof.
  intros Hn. rewrite Z.pow_add_r, Z.pow_1_r by lia.
  assert (0 < 2 ^ n) by (apply Z.pow_pos_nonneg; lia).
  rewrite Z.rem_mul_r by lia.
  rewrite <- Z.testbit_spec' by lia.
  destruct (Z.testbit m n); simpl; lia.
Qed.

Lemma Qpow2_nonzero e : ~ (2 ^ e == 0)%Q.
Proof. apply Qpower_not_0. discriminate. Qed.

Lemma inject_pow2 n : 0 <= n -> (inject_Z (2 ^ n) == 2 ^ n)%Q.
Proof. intros Hn. now rewrite Zpower_Qpower. Qed.

(** The bits of weight below [n] contribute [m mod 2^n], scaled by [2^i]. *)
Lemma Qsum_bit_terms m w i (n : nat) :
  0 <= i ->
  (Qsum (bit_terms m w i (py_range (w - Z.of_nat n) w)) ==
   inject_Z (m mod 2 ^ Z.of_nat n) / inject_Z (2 ^ i))%Q.
Proof.
  intros Hi. induction n as [|n IH].
  - rewrite py_range_nil by lia. simpl. rewrite Z.mod_1_r. reflexivity.
  - rewrite py_range_cons by lia.
    replace (w - Z.of_nat (S n) + 1) with (w - Z.of_nat n) by lia.
    unfold bit_terms in *. simpl flat_map.
    replace (w - 1 - (w - Z.of_nat (S n))) with (Z.of_nat n) by lia.
    replace (w - i - 1 - (w - Z.of_nat (S n))) with (Z.of_nat n + - i) by lia.
    rewrite Nat2Z.inj_succ, <- Z.add_1_r, mod_pow2_succ by lia.
    unfold Qsum in *. rewrite fold_right_app, inject_Z_plus.
    fold (Qsum (flat_map
      (fun j => if Z.testbit m (w - 1 - j) then [(2 ^ (w - i - 1 - j))%Q] else [])
      (py_range (w - Z.of_nat n) w))).
    destruct (Z.testbit m (Z.of_nat n)); simpl fold_right.
    + unfold Qsum. rewrite IH.
      rewrite Qpower_plus by discriminate.
      rewrite Qpower_opp, !inject_pow2 by lia. field. apply Qpow2_nonzero.
    + unfold Qsum. rewrite IH. rewrite !inject_pow2 by lia.
      field. apply Qpow2_nonzero.
Qed.

Lemma digit_char_is_1 b : Ascii.eqb (digit_char b) "1"%char = b.
Proof. now destruct b. Qed.

Section Angles.

Variables (m w : Z) (s : string).
Hypothesis s_bits : forall j, 0 <= j < w ->
  String.get (Z.to_nat j) s = Some (digit_char (Z.testbit m (w - 1 - j))).

Lemma subscript_bit j :
  0 <= j < w -> subscript (Some s) j = inr (digit_char (Z.testbit m (w - 1 - j))).
Proof.
  intros Hj. unfold subscript.
  destruct (j <? 0) eqn:E; [apply Z.ltb_lt in E; lia |]. rewrite E.
  now rewrite s_bits.
Qed.

Lemma angle_terms_bits i js :
  Forall (fun j => 0 <= j < w) js ->
  angle_terms (Some s) w i js = inr (bit_terms m w i js).
Proof.
  induction 1 as [|j js Hj _ IH]; cbn [angle_terms].
  - reflexivity.
  - rewrite subscript_bit by assumption. cbn [rbind]. rewrite IH. cbn [rbind].
    rewrite digit_char_is_1. unfold bit_terms. cbn [flat_map].
    now destruct (Z.testbit m (w - 1 - j)).
Qed.

Lemma py_range_Forall lo hi : Forall (fun j => lo <= j < hi) (py_range lo hi).
Proof. apply List.Forall_forall. intros j. apply py_range_In. Qed.

Lemma angle_list_bits indices :
  Forall (fun i => 0 <= i < w) indices ->
  exists angles,
    angle_list (Some s) w indices = inr angles /\
    Forall2 Qeq angles (map (draper_angle m) indices).
Proof.
  induction 1 as [|i indices Hi _ (angles & Heq & Hall)]; cbn [angle_list map].
  - exists []. split; [reflexivity | constructor].
  - rewrite angle_terms_bits.
    + cbn [rbind]. rewrite Heq. cbn [rbind]. eexists. split; [reflexivity |].
      constructor; [| exact Hall].
      rewrite py_sum_Qsum.
      replace (w - i - 1) with (w - Z.of_nat (Z.to_nat (i + 1))) by lia.
      rewrite Qsum_bit_terms by lia. unfold draper_angle.
      now rewrite Z2Nat.id by lia.
    + eapply Forall_impl; [apply py_range_Forall |].
      intros j Hj. simpl in Hj. lia.
Qed.

End Angles.

(** The angles of an addend that fits in [w] bits: wire [i] gets
    [(m mod 2^(i+1)) / 2^i] times pi. *)
Lemma get_angles_closed m w :
  0 <= w -> 0 <= m < 2 ^ w ->
  exists angles,
    get_angles_phase_addition m w = inr angles /\
    Forall2 Qeq angles (map (draper_angle m) (py_range 0 w)).
Proof.
  intros Hw Hm. unfold get_angles_phase_addition.
  destruct (w <? 0) eqn:E; [apply Z.ltb_lt in E; lia |].
  destruct (Z.eq_dec w 0) as [-> | Hne].
  - exists []. split; [reflexivity | constructor].
  - destruct (to_binary_fits m w Hm ltac:(lia)) as (s & -> & Hlen & Hbits).
    apply (angle_list_bits m w s Hbits). apply py_range_Forall.
Qed.

Lemma Forall2_nth_error_r {A B} (R : A -> B -> Prop) l l' n b :
  Forall2 R l l' -> nth_error l' n = Some b ->
  exists a, nth_error l n = Some a /\ R a b.
Proof.
  intros H. revert n. induction H as [|a0 b0 l l' HR _ IH]; intros n Hn.
  - destruct n; discriminate.
  - destruct n as [|n]; simpl in *.
    + inversion Hn; subst. eauto.
    + now apply IH.
Qed.

Lemma py_range_nth_error lo hi i :
  lo <= i < hi -> nth_error (py_range lo hi) (Z.to_nat (i - lo)) = Some i.
Proof.
  intros Hi. unfold py_range. rewrite nth_error_map, nth_error_seq.
  destruct (Nat.ltb_spec (Z.to_nat (i - lo)) (Z.to_nat (hi - lo))); [| lia].
  simpl. f_equal. lia.
Qed.

Lemma len_py_range lo hi : lo <= hi -> len (py_range lo hi) = hi - lo.
Proof. intros H. unfold len. rewrite py_range_length. lia. Qed.

(** [get_angles_closed], entry by entry. *)
Lemma get_angles_entries m w :
  0 <= w -> 0 <= m < 2 ^ w ->
  exists angles,
    get_angles_phase_addition m w = inr angles /\
    len angles = w /\
    forall i, 0 <= i < w ->
      exists theta, nth_error angles (Z.to_nat i) = Some theta /\
                    (theta == draper_angle m i)%Q.
Proof.
  intros Hw Hm. destruct (get_angles_closed m w Hw Hm) as (angles & Heq & Hall).
  exists angles. split; [exact Heq |]. split.
  - unfold len. rewrite (Forall2_length _ _ _ Hall), length_map, py_range_length.
    lia.
  - intros i Hi.
    apply (Forall2_nth_error_r _ _ _ (Z.to_nat i) (draper_angle m i) Hall).
    rewrite nth_error_map.
    replace (Z.to_nat i) with (Z.to_nat (i - 0)) by lia.
    now rewrite py_range_nth_error by lia.
Qed.

(** The sum the specification writes for wire [i], over the indices [j]
    from [lo] to [w - 1] of the binary expansion [b]. *)
Definition expansion_sum (b : Z -> bool) (lo w i : Z) : Q :=
  Qsum (flat_map (fun j => if b j then [(2 ^ (w - 1 - i - j))%Q] else [])
                 (py_range lo w)).

Lemma expansion_sum_draper m w i :
  0 <= i < w ->
  (expansion_sum (fun j => Z.testbit m (w - 1 - j)) (w - 1 - i) w i ==
   draper_angle m i)%Q.
Proof.
  intros Hi. unfold expansion_sum, draper_angle.
  pose proof (Qsum_bit_terms m w i (Z.to_nat (i + 1)) ltac:(lia)) as H.
  rewrite Z2Nat.id in H by lia.
  replace (w - (i + 1)) with (w - 1 - i) in H by lia.
  rewrite <- H. unfold bit_terms.
  erewrite flat_map_ext; [reflexivity |].
  intros j. simpl. now replace (w - 1 - i - j) with (w - i - 1 - j) by lia.
Qed.

Example get_angles_phase_addition_5_3 :
  get_angles_phase_addition 5 3 = inr [1; 1 # 2; 5 # 4]%Q.
Proof. reflexivity. Qed.

(** C3 (as amended). For an addend m with 0 <= m < 2^w, whose w-character
    binary expansion is b[0..w-1] from the most significant bit, the vector
    has w entries and theta[i] is pi times the sum over the set bits
    j = w-1-i .. w-1 of 2^(w-1-i-j), that is (m mod 2^(i+1)) / 2^i: the
    contributions of the bits of weight at most i. *)
Theorem get_angles_phase_addition_closed_form (m w : Z) :
  0 <= w -> 0 <= m < 2 ^ w ->
  exists angles,
    get_angles_phase_addition m w = inr angles /\
    len angles = w /\
    forall i, 0 <= i < w ->
      exists theta,
        nth_error angles (Z.to_nat i) = Some theta /\
        (theta == expansion_sum (fun j => Z.testbit m (w - 1 - j))
                                (w - 1 - i) w i)%Q /\
        (theta == draper_angle m i)%Q.
Proof.
  intros Hw Hm.
  destruct (get_angles_entries m w Hw Hm) as (angles & Heq & Hlen & Hent).
  exists angles. repeat split; try assumption.
  intros i Hi. destruct (Hent i Hi) as (theta & Hnth & Htheta).
  exists theta. repeat split; try assumption.
  now rewrite expansion_sum_draper.
Qed.

Lemma get_angles_phase_addition_closed_form_witness :
  exists angles,
    get_angles_phase_addition 5 3 = inr angles /\
    len angles = 3 /\
    exists theta, nth_error angles 2 = Some theta /\ (theta == 5 # 4)%Q.
Proof.
  destruct (get_angles_phase_addition_closed_form 5 3 ltac:(lia) ltac:(lia))
    as (angles & Heq & Hlen & Hent).
  exists angles. split; [exact Heq |]. split; [exact Hlen |].
  destruct (Hent 2 ltac:(lia)) as (theta & Hnth & _ & Htheta).
  exists theta. split; [exact Hnth |]. rewrite Htheta. reflexivity.
Defined.

(** C3 as stated fails at m = 2, w = 2, i = 1: the code gives pi, the
    claimed sum from j = i gives 0 when b[j] is the j-th character and pi/2
    when b[j] is the bit of weight 2^j. *)
Lemma get_angles_phase_addition_counterexample :
  exists angles theta,
    get_angles_phase_addition 2 2 = inr angles /\
    nth_error angles 1 = Some theta /\
    ~ (theta == expansion_sum (fun j => Z.testbit 2 (2 - 1 - j)) 1 2 1)%Q /\
    ~ (theta == expansion_sum (Z.testbit 2) 1 2 1)%Q.
Proof.
  eexists. eexists. split; [reflexivity |]. split; [reflexivity |].
  split; intros H; vm_compute in H; discriminate.
Qed.

Lemma complement_mod m w i :
  0 <= i < w ->
  (2 ^ w - m) mod 2 ^ (i + 1) =
  if m mod 2 ^ (i + 1) =? 0 then 0 else 2 ^ (i + 1) - m mod 2 ^ (i + 1).
Proof.
  intros Hi.
  assert (Hpos : 0 < 2 ^ (i + 1)) by (apply Z.pow_pos_nonneg; lia).
  replace (2 ^ w - m) with (- m + 2 ^ (w - (i + 1)) * 2 ^ (i + 1)).
  - rewrite Z_mod_plus_full.
    destruct (m mod 2 ^ (i + 1) =? 0) eqn:E.
    + apply Z.eqb_eq in E. now apply Z.mod_opp_l_z; [lia |].
    + apply Z.eqb_neq in E. now apply Z.mod_opp_l_nz; [lia |].
  - rewrite <- Z.pow_add_r by lia. replace (w - (i + 1) + (i + 1)) with w by lia.
    lia.
Qed.

Lemma draper_angle_complement m w i :
  0 <= i < w ->
  (draper_angle (2 ^ w - m) i + draper_angle m i ==
   if m mod 2 ^ (i + 1) =? 0 then 0 else 2)%Q.
Proof.
  intros Hi. unfold draper_angle. rewrite (complement_mod m w i Hi).
  assert (Hnz : ~ (inject_Z (2 ^ i) == 0)%Q).
  { rewrite inject_pow2 by lia. apply Qpow2_nonzero. }
  destruct (m mod 2 ^ (i + 1) =? 0) eqn:E.
  - apply Z.eqb_eq in E. rewrite E. field. exact Hnz.
  - unfold Z.sub. rewrite inject_Z_plus, inject_Z_opp.
    rewrite Z.pow_add_r, Z.pow_1_r, inject_Z_mult by lia.
    field. exact Hnz.
Qed.

(** C8 (as amended). For all 0 < m < 2^w the vectors computed for 2^w - m
    and for m at width w are opposite modulo 2 pi: theta_inv[i] + theta[i] is
    0 when 2^(i+1) divides m and 2 pi otherwise. *)
Theorem angles_of_complement (m w : Z) :
  0 < m < 2 ^ w ->
  exists theta theta_inv,
    get_angles_phase_addition m w = inr theta /\
    get_angles_phase_addition (2 ^ w - m) w = inr theta_inv /\
    len theta = w /\ len theta_inv = w /\
    forall i, 0 <= i < w ->
      exists t ti,
        nth_error theta (Z.to_nat i) = Some t /\
        nth_error theta_inv (Z.to_nat i) = Some ti /\
        (ti + t == if m mod 2 ^ (i + 1) =? 0 then 0 else 2)%Q.
Proof.
  intros Hm.
  assert (Hw : 0 <= w).
  { destruct (Z_lt_le_dec w 0) as [Hneg |]; [| assumption].
    rewrite Z.pow_neg_r in Hm by assumption. lia. }
  destruct (get_angles_entries m w Hw ltac:(lia)) as (theta & Heq & Hlen & Hent).
  destruct (get_angles_entries (2 ^ w - m) w Hw ltac:(lia))
    as (theta_inv & Heqi & Hleni & Henti).
  exists theta, theta_inv. repeat split; try assumption.
  intros i Hi.
  destruct (Hent i Hi) as (t & Hnth & Ht).
  destruct (Henti i Hi) as (ti & Hnthi & Hti).
  exists t, ti. repeat split; try assumption.
  rewrite Ht, Hti. now apply draper_angle_complement.
Qed.

Lemma angles_of_complement_witness :
  exists theta theta_inv,
    get_angles_phase_addition 3 3 = inr theta /\
    get_angles_phase_addition (2 ^ 3 - 3) 3 = inr theta_inv /\
    exists t ti,
      nth_error theta 2 = Some t /\ nth_error theta_inv 2 = Some ti /\
      (ti + t == 2)%Q.
Proof.
  destruct (angles_of_complement 3 3 ltac:(lia))
    as (theta & theta_inv & Heq & Heqi & _ & _ & Hent).
  exists theta, theta_inv. split; [exact Heq |]. split; [exact Heqi |].
  destruct (Hent 2 ltac:(lia)) as (t & ti & Hnth & Hnthi & Hsum).
  exists t, ti. split; [exact Hnth |]. split; [exact Hnthi |]. exact Hsum.
Defined.

(** C8 as stated fails: for m = 1 and w = 1 both vectors are [pi], and pi
    is not minus pi; for m = 0 the addend 2^w does not fit and no vector is
    computed. *)
Lemma angles_of_complement_counterexample :
  (exists t ti,
     get_angles_phase_addition 1 1 = inr [t] /\
     get_angles_phase_addition (2 ^ 1 - 1) 1 = inr [ti] /\
     ~ (ti == - t)%Q) /\
  get_angles_phase_addition (2 ^ 1 - 0) 1 = inl TypeError.
Proof.
  split; [| reflexivity].
  eexists. eexists. split; [reflexivity |]. split; [reflexivity |].
  intros H. vm_compute in H. discriminate.
Qed.

(** ** An addend that does not fit *)

Lemma get_angles_too_wide m w :
  0 <= m -> 1 <= w -> 2 ^ w <= m ->
  get_angles_phase_addition m w = inl TypeError.
Proof.
  intros Hm Hw Hge. unfold get_angles_phase_addition.
  rewrite to_binary_too_wide by assumption.
  destruct (w <? 0) eqn:E; [apply Z.ltb_lt in E; lia |].
  rewrite (py_range_cons 0 w) by lia. cbn [angle_list].
  rewrite (py_range_cons (w - 0 - 1) w) by lia. reflexivity.
Qed.

(** For a register of at least one wire the failure comes before the first
    gate: the circuit is left as it was. *)
Lemma phase_add_too_wide target_register num_sum inv c :
  0 <= num_sum -> 1 <= len target_register ->
  2 ^ len target_register <= num_sum ->
  phase_add target_register num_sum inv c = (inl TypeError, c) /\
  forall control,
    c_phase_add control target_register num_sum inv c = (inl TypeError, c).
Proof.
  intros Hm Hw Hge. unfold phase_add, c_phase_add, bind, lift.
  rewrite get_angles_too_wide by assumption. now destruct inv.
Qed.

Example phase_add_4_on_two_wires :
  phase_add [1; 2] 4 false [G_h 0] = (inl TypeError, [G_h 0]).
Proof.
  apply (phase_add_too_wide [1; 2] 4 false [G_h 0]); unfold len; simpl; lia.
Qed.

(** C9 (where the code departs from it). On a register without wires no
    addend fits, yet nothing fails: [to_binary] takes the branch that prints
    and returns None, the angle vector is computed (empty) and both adders
    return normally.  And on one wire with num_sum = 1 and K = 2 the modulo
    adder has appended the rotation of num_sum when the width of K is found
    too small, by the TypeError of subscripting None. *)
Theorem too_wide_addend_not_rejected :
  to_binary 1 (Some 0) = None /\
  get_angles_phase_addition 1 0 = inr [] /\
  (forall inv c,
     phase_add [] 1 inv c = (inr tt, c) /\
     c_phase_add 0 [] 1 inv c = (inr tt, c)) /\
  c_phase_add_mod_K_body [1] 0 2 1 2 0 false [] =
    (inl TypeError, [G_cp 1 0 1]).
Proof.
  split; [reflexivity |]. split; [reflexivity |]. split; [| reflexivity].
  intros inv c. unfold phase_add, c_phase_add, bind, lift.
  destruct inv; simpl; unfold ret; auto.
Qed.

(** ** The root level composer *)

(** The opening statements return for a modulus of 64 bits and registers
    of non-negative size. *)
Lemma np_ceil_log2_exact (k : Z) :
  1 <= k < 2 ^ 64 -> np_ceil_log2 k = inr (Z.log2_up k).
Proof.
  intros Hk. unfold np_ceil_log2.
  destruct (2 ^ 64 <=? k) eqn:E1; [apply Z.leb_le in E1; lia |].
  destruct (k <? - 2 ^ 63) eqn:E2; [apply Z.ltb_lt in E2; lia |].
  destruct (k <=? 0) eqn:E3; [apply Z.leb_le in E3; lia |].
  reflexivity.
Qed.

Lemma QuantumRegister_accepts (size : Z) :
  0 <= size -> QuantumRegister size = inr tt.
Proof.
  intros H. unfold QuantumRegister.
  destruct (size <? 0) eqn:E; [apply Z.ltb_lt in E; lia | reflexivity].
Qed.

Lemma remainders_register_accepted (k : Z) :
  QuantumRegister (Z.log2_up k + 1) = inr tt.
Proof.
  apply QuantumRegister_accepts. pose proof (Z.log2_up_nonneg k). lia.
Qed.

(** C10 (as amended). In the root level variant, for a modulus
    1 <= k < 2^64 and a non-negative number of input wires, every call in
    which classic_register evaluates to false (given as False, or left as
    None with init_H=True) raises NameError and returns no circuit. *)
Theorem root_oracle_multiples_NameError (k nqubits_input approx_QFT : Z)
  (oracle : option (circuit Z)) (qubits_oracle : option (list qubit))
  (init_H : bool) (classic_register : option bool) :
  1 <= k < 2 ^ 64 -> 0 <= nqubits_input ->
  match classic_register with None => negb init_H | Some b => b end = false ->
  root_multiples_functions.oracle_multiples k nqubits_input approx_QFT oracle
    qubits_oracle init_H classic_register = inl NameError.
Proof.
  intros Hk Hn H. unfold root_multiples_functions.oracle_multiples.
  rewrite (np_ceil_log2_exact k Hk). cbn [rbind].
  rewrite (QuantumRegister_accepts nqubits_input Hn). cbn [rbind].
  rewrite remainders_register_accepted. cbn [rbind].
  now rewrite H.
Qed.

Lemma root_oracle_multiples_NameError_witness :
  root_multiples_functions.oracle_multiples 3 3 0 None None true None
    = inl NameError /\
  root_multiples_functions.oracle_multiples 3 3 0 None None false (Some false)
    = inl NameError.
Proof.
  split.
  - apply (root_oracle_multiples_NameError 3 3 0 None None true None);
      [lia | lia | reflexivity].
  - apply (root_oracle_multiples_NameError 3 3 0 None None false (Some false));
      [lia | lia | reflexivity].
Defined.

(** C10 as stated fails: before the circuit is created the function
    computes the number of remainder wires and creates the registers.  A
    modulus of 65 bits raises TypeError and a negative number of input wires
    makes the register constructor raise CircuitError, for every value of
    the other arguments; so does the default call with init_H=True. *)
Lemma root_oracle_multiples_NameError_counterexample :
  (forall nqubits_input approx_QFT oracle qubits_oracle init_H classic_register,
     root_multiples_functions.oracle_multiples (2 ^ 64) nqubits_input
       approx_QFT oracle qubits_oracle init_H classic_register
     = inl TypeError) /\
  (forall approx_QFT oracle qubits_oracle init_H classic_register,
     root_multiples_functions.oracle_multiples 3 (-1) approx_QFT oracle
       qubits_oracle init_H classic_register
     = inl CircuitError) /\
  root_multiples_functions.oracle_multiples (2 ^ 64) 3 0 None None true None
    <> inl NameError.
Proof.
  split; [| split].
  - intros nqubits_input approx_QFT oracle qubits_oracle init_H
      classic_register.
    unfold root_multiples_functions.oracle_multiples.
    change (np_ceil_log2 (2 ^ 64)) with (@inl error Z TypeError).
    reflexivity.
  - intros approx_QFT oracle qubits_oracle init_H classic_register.
    unfold root_multiples_functions.oracle_multiples.
    change (np_ceil_log2 3) with (@inr error Z 2). cbn [rbind].
    change (QuantumRegister (-1)) with (@inl error unit CircuitError).
    reflexivity.
  - discriminate.
Qed.

(** ** The adder cache of oracle_multiples *)

Import multiples_functions.

(** The cache agrees with the log: every logged call is cached, and a cached
    circuit carries the position of its call in the log. *)
Record consistent (s : builder) : Prop := Consistent {
  calls_NoDup : NoDup (adder_calls s);
  calls_cached : forall r, r ∈ adder_calls s -> is_Some (circuits_sums s !! r);
  cached_serial : forall r inst,
    circuits_sums s !! r = Some inst -> adder_calls s !! serial inst = Some r
}.

(** The adder objects a circuit refers to, in append order. *)
Definition adder_refs (l : list operation) : list adder_instance :=
  flat_map (fun o => match o with Op_adder inst _ => [inst] | _ => [] end) l.

Lemma adder_refs_app l1 l2 : adder_refs (l1 ++ l2) = adder_refs l1 ++ adder_refs l2.
Proof. unfold adder_refs. apply flat_map_app. Qed.

(** Statements that touch neither the cache nor the log and append no
    reference to an adder. *)
Definition silent {A} (m : M builder A) : Prop :=
  forall s, circuits_sums (snd (m s)) = circuits_sums s /\
            adder_calls (snd (m s)) = adder_calls s /\
            adder_refs (ops (snd (m s))) = adder_refs (ops s).

Create HintDb silent.

Lemma silent_ret {A} (a : A) : silent (@ret builder A a).
Proof. now intros s. Qed.

Lemma silent_raise {A} (e : error) : silent (@raise builder A e).
Proof. now intros s. Qed.

Lemma silent_lift {A} (r : result A) : silent (@lift builder A r).
Proof. now intros s. Qed.

Lemma silent_bind {A B} (m : M builder A) (f : A -> M builder B) :
  silent m -> (forall a, silent (f a)) -> silent (bind m f).
Proof.
  intros Hm Hf s. unfold bind. specialize (Hm s).
  destruct (m s) as [[e | a] s1]; simpl in *; [exact Hm |].
  destruct (Hf a s1) as (H1 & H2 & H3). destruct Hm as (H4 & H5 & H6).
  repeat split; congruence.
Qed.

Lemma silent_for_each {A} (l : list A) (body : A -> M builder unit) :
  (forall a, silent (body a)) -> silent (for_each l body).
Proof.
  intros Hb. induction l as [|a l IH]; simpl.
  - apply silent_ret.
  - apply silent_bind; auto.
Qed.

Lemma silent_if {A} (b : bool) (m1 m2 : M builder A) :
  silent m1 -> silent m2 -> silent (if b then m1 else m2).
Proof. now destruct b. Qed.

Lemma silent_gate g : silent (append_op (Op_gate g)).
Proof.
  intros s. simpl. repeat split. rewrite adder_refs_app. simpl.
  now rewrite app_nil_r.
Qed.

Lemma silent_circuit sub qargs : silent (append_op (Op_circuit sub qargs)).
Proof.
  intros s. simpl. repeat split. rewrite adder_refs_app. simpl.
  now rewrite app_nil_r.
Qed.

Lemma silent_controlled sub n qargs :
  silent (append_op (Op_controlled sub n qargs)).
Proof.
  intros s. simpl. repeat split. rewrite adder_refs_app. simpl.
  now rewrite app_nil_r.
Qed.

#[local] Hint Resolve silent_ret silent_raise silent_lift silent_bind
  silent_for_each silent_if silent_gate silent_circuit silent_controlled
  : silent.

Lemma silent_each_qubit g qubits : silent (each_qubit g qubits).
Proof. unfold each_qubit. auto with silent. Qed.

#[local] Hint Resolve silent_each_qubit : silent.

Lemma silent_mark nqubits_input n_rem oracle qubits_oracle qubits_control
  state_control :
  silent (mark nqubits_input n_rem oracle qubits_oracle qubits_control
            state_control).
Proof.
  unfold mark.
  destruct oracle as [[|g gs]|]; [auto 10 with silent | | auto 10 with silent].
  destruct qubits_control as [[|c cs]|]; auto 10 with silent.
Qed.

#[local] Hint Resolve silent_mark : silent.

(** The outcome of the cache lookup of one iteration. *)
Lemma cached_adder_spec num_sum k approx_QFT range_remainders s :
  consistent s ->
  match cached_adder num_sum k approx_QFT range_remainders s with
  | (inl _, s') => NoDup (adder_calls s') /\ ops s' = ops s
  | (inr inst, s') =>
      consistent s' /\ ops s' = ops s /\
      circuits_sums s ⊆ circuits_sums s' /\
      circuits_sums s' !! num_sum = Some inst
  end.
Proof.
  intros [Hnd Hcached Hserial]. unfold cached_adder.
  destruct (circuits_sums s !! num_sum) as [inst|] eqn:Hlook.
  - repeat split; assumption || reflexivity.
  - assert (Hfresh : num_sum ∉ adder_calls s).
    { intros Hin. apply Hcached in Hin. rewrite Hlook in Hin.
      now destruct Hin. }
    assert (Hnd' : NoDup (adder_calls s ++ [num_sum])).
    { apply NoDup_app. repeat split; [assumption | | apply NoDup_singleton].
      intros r Hr Hr'. apply list_elem_of_singleton in Hr'. now subst. }
    destruct (c_phase_add_mod_K _ _ _ _ _ _ _) as [e | c]; simpl.
    + split; [exact Hnd' | reflexivity].
    + split; [| split; [reflexivity | split]].
      * constructor; simpl.
        -- exact Hnd'.
        -- intros r Hr. apply lookup_insert_is_Some.
           apply elem_of_app in Hr. destruct Hr as [Hr | Hr].
           ++ destruct (decide (num_sum = r)); [now left | right].
              split; [assumption | now apply Hcached].
           ++ apply list_elem_of_singleton in Hr. now left.
        -- intros r inst Hr. apply lookup_insert_Some in Hr.
           destruct Hr as [[<- <-] | [Hne Hr]]; simpl.
           ++ now rewrite list_lookup_middle.
           ++ apply Hserial in Hr. rewrite lookup_app_l; [exact Hr |].
              now apply lookup_lt_Some in Hr.
      * now apply insert_subseteq.
      * apply lookup_insert_eq.
Qed.

(** A statement that keeps cache and log consistent; when it returns it has
    appended references to the cached adders of [keys], in this order. *)
Definition steady {A} (m : M builder A) (keys : list Z) : Prop :=
  forall s, consistent s ->
    match m s with
    | (inl _, s') => NoDup (adder_calls s')
    | (inr _, s') =>
        consistent s' /\ circuits_sums s ⊆ circuits_sums s' /\
        exists insts,
          adder_refs (ops s') = adder_refs (ops s) ++ insts /\
          Forall2 (fun key inst => circuits_sums s' !! key = Some inst)
                  keys insts
    end.

Lemma steady_silent {A} (m : M builder A) : silent m -> steady m [].
Proof.
  intros Hm s [Hnd Hcached Hserial]. destruct (Hm s) as (Hc & Hl & Hr).
  destruct (m s) as [[e | a] s']; simpl in *.
  - now rewrite Hl.
  - split; [| split].
    + constructor; rewrite ?Hl, ?Hc; assumption.
    + now rewrite Hc.
    + exists []. split; [now rewrite app_nil_r | constructor].
Qed.

Lemma steady_bind {A B} (m : M builder A) (f : A -> M builder B) ks1 ks2 :
  steady m ks1 -> (forall a, steady (f a) ks2) ->
  steady (bind m f) (ks1 ++ ks2).
Proof.
  intros Hm Hf s Hs. unfold bind. specialize (Hm s Hs).
  destruct (m s) as [[e | a] s1]; [exact Hm |].
  destruct Hm as (Hs1 & Hsub1 & insts1 & Hrefs1 & Hall1).
  specialize (Hf a s1 Hs1).
  destruct (f a s1) as [[e | b] s2]; [exact Hf |].
  destruct Hf as (Hs2 & Hsub2 & insts2 & Hrefs2 & Hall2).
  split; [exact Hs2 |]. split; [now transitivity (circuits_sums s1) |].
  exists (insts1 ++ insts2). split.
  - now rewrite Hrefs2, Hrefs1, app_assoc.
  - apply Forall2_app; [| exact Hall2].
    eapply Forall2_impl; [exact Hall1 |].
    intros key inst Hlook. simpl in Hlook.
    eapply lookup_weaken; eassumption.
Qed.

Lemma steady_keys {A} (m : M builder A) ks ks' :
  steady m ks -> ks = ks' -> steady m ks'.
Proof. now intros H <-. Qed.

Lemma steady_append_adder k nqubits_input n_rem approx_QFT i num_sum :
  steady (append_adder k nqubits_input n_rem approx_QFT i num_sum) [num_sum].
Proof.
  intros s Hs. unfold append_adder, bind.
  pose proof (cached_adder_spec num_sum k approx_QFT
                (py_range 1 (n_rem + 1)) s Hs) as Hc.
  destruct (cached_adder _ _ _ _ s) as [[e | inst] s1]; [tauto |].
  destruct Hc as (Hs1 & Hops & Hsub & Hlook).
  unfold lift.
  destruct (py_index (register_bits input_register nqubits_input) i)
    as [e | q].
  - apply Hs1.
  - simpl. destruct Hs1 as [Hnd Hcached Hserial].
    split; [now constructor |]. split; [exact Hsub |].
    exists [inst]. split.
    + now rewrite adder_refs_app, Hops.
    + now repeat constructor.
Qed.

Lemma steady_adder_loop k nqubits_input n_rem approx_QFT (key : Z -> Z)
  (l : list (Z * Z)) :
  steady (for_each l (fun ir =>
            append_adder k nqubits_input n_rem approx_QFT (fst ir)
              (key (snd ir))))
         (map (fun ir => key (snd ir)) l).
Proof.
  induction l as [|ir l IH]; simpl.
  - apply steady_silent, silent_ret.
  - apply (steady_bind _ _ [key (snd ir)]).
    + apply steady_append_adder.
    + intros _. exact IH.
Qed.

Lemma combine_snd {A B} (l1 : list A) (l2 : list B) :
  (length l2 <= length l1)%nat -> map snd (combine l1 l2) = l2.
Proof.
  revert l1. induction l2 as [|b l2 IH]; intros [|a l1] Hlen; simpl in *;
    try reflexivity; try lia.
  f_equal. apply IH. lia.
Qed.

Lemma enumerate_snd {A} (l : list A) : map snd (enumerate l) = l.
Proof.
  unfold enumerate. apply combine_snd. rewrite py_range_length. unfold len. lia.
Qed.

(** The statements of [oracle_multiples]: the references to adders are
    those of fold-in, for the raw remainders, then those of fold-out, for
    the inverse remainders. *)
Lemma steady_oracle_multiples_body k nqubits_input approx_QFT oracle
  qubits_oracle qubits_control state_control init_H :
  let list_remainders := get_remainders_power_2 k (nqubits_input - 1) in
  steady (oracle_multiples_body k nqubits_input approx_QFT oracle
            qubits_oracle qubits_control state_control init_H)
         (list_remainders ++ map (fun r => k - r) list_remainders).
Proof.
  intros list_remainders. unfold oracle_multiples_body.
  fold list_remainders.
  set (n_rem := Z.log2_up k + 1).
  eapply steady_keys.
  - apply (steady_bind _ _ []).
    { apply steady_silent. auto with silent. }
    intros _. apply (steady_bind _ _ []).
    { apply steady_silent. auto with silent. }
    intros _. eapply steady_bind.
    { apply (steady_adder_loop k nqubits_input n_rem approx_QFT (fun r => r)). }
    intros _. apply (steady_bind _ _ []).
    { apply steady_silent. auto with silent. }
    intros _. apply (steady_bind _ _ []).
    { apply steady_silent. auto with silent. }
    intros _. apply (steady_bind _ _ []).
    { apply steady_silent. auto with silent. }
    intros _. eapply steady_bind.
    { apply (steady_adder_loop k nqubits_input n_rem approx_QFT
               (fun r => k - r)). }
    intros _. apply steady_silent. auto with silent.
  - simpl. rewrite app_nil_r.
    rewrite <- (map_map snd (fun r => r)), <- (map_map snd (fun r => k - r)).
    now rewrite enumerate_snd, map_id.
Qed.

Lemma lookup_map {A B} (f : A -> B) (l : list A) (i : nat) :
  map f l !! i = f <$> l !! i.
Proof.
  revert i. induction l as [|a l IH]; intros [|i]; simpl; auto.
Qed.

Lemma consistent_empty : consistent (Builder [] ∅ []).
Proof.
  constructor; simpl.
  - constructor.
  - intros r Hr. now apply elem_of_nil in Hr.
  - intros r inst Hr. now rewrite lookup_empty in Hr.
Qed.

(** C6. In one invocation of oracle_multiples no two calls of
    c_phase_add_mod_K have the same addend, whether the invocation returns
    or raises; and when it returns, the reference appended for an addend in
    either loop is the circuit built by the one call for that addend. *)
Theorem adder_built_once_per_addend (k nqubits_input approx_QFT : Z)
  (oracle : option (circuit Z))
  (qubits_oracle qubits_control : option (list qubit))
  (state_control : option (list Z)) (init_H : bool) :
  let run := oracle_multiples_run k nqubits_input approx_QFT oracle
               qubits_oracle qubits_control state_control init_H in
  let list_remainders := get_remainders_power_2 k (nqubits_input - 1) in
  NoDup (adder_calls (snd run)) /\
  (fst run = inr tt ->
   Forall2 (fun num_sum inst => adder_calls (snd run) !! serial inst = Some num_sum)
           (list_remainders ++ map (fun r => k - r) list_remainders)
           (adder_refs (ops (snd run)))).
Proof.
  intros run list_remainders. subst run. unfold oracle_multiples_run.
  pose proof (steady_oracle_multiples_body k nqubits_input approx_QFT oracle
                qubits_oracle qubits_control state_control init_H
                (Builder [] ∅ []) consistent_empty) as H.
  destruct (oracle_multiples_body _ _ _ _ _ _ _ _ _) as [[e | []] s]; simpl.
  - split; [exact H | discriminate].
  - destruct H as (Hs & _ & insts & Hrefs & Hall). split; [apply Hs |].
    intros _. simpl in Hrefs. rewrite Hrefs.
    eapply Forall2_impl; [exact Hall |].
    intros key inst Hlook. now apply (cached_serial s Hs).
Qed.

(** A call that returns has gone through the opening statements and the
    body. *)
Lemma oracle_multiples_inr (k nqubits_input approx_QFT : Z)
  (oracle : option (circuit Z))
  (qubits_oracle qubits_control : option (list qubit))
  (state_control : option (list Z)) (init_H : bool)
  (classic_register : option bool) (c : quantum_circuit) :
  oracle_multiples k nqubits_input approx_QFT oracle qubits_oracle
    qubits_control state_control init_H classic_register = inr c ->
  exists s,
    oracle_multiples_run k nqubits_input approx_QFT oracle qubits_oracle
      qubits_control state_control init_H = (inr tt, s) /\
    data c = ops s.
Proof.
  unfold oracle_multiples. intros Hrun.
  destruct (np_ceil_log2 k) as [e | n_remainders]; [discriminate |].
  cbn [rbind] in Hrun.
  destruct (QuantumRegister nqubits_input) as [e | []]; [discriminate |].
  cbn [rbind] in Hrun.
  destruct (QuantumRegister (n_remainders + 1)) as [e | []]; [discriminate |].
  cbn [rbind] in Hrun.
  destruct (oracle_multiples_run _ _ _ _ _ _ _ _) as [[e | []] s];
    [discriminate |].
  exists s. split; [reflexivity |]. now inversion Hrun.
Qed.

(** For a modulus of 64 bits and a non-negative number of input wires the
    opening statements return, and the call is what the body makes of it. *)
Lemma oracle_multiples_opened (k nqubits_input approx_QFT : Z)
  (oracle : option (circuit Z))
  (qubits_oracle qubits_control : option (list qubit))
  (state_control : option (list Z)) (init_H : bool)
  (classic_register : option bool) :
  1 <= k < 2 ^ 64 -> 0 <= nqubits_input ->
  oracle_multiples k nqubits_input approx_QFT oracle qubits_oracle
    qubits_control state_control init_H classic_register =
  match oracle_multiples_run k nqubits_input approx_QFT oracle qubits_oracle
          qubits_control state_control init_H with
  | (inl e, _) => inl e
  | (inr _, s) =>
      inr (QuantumCircuit
             (if match classic_register with None => init_H | Some b => b end
              then Some nqubits_input else None)
             (ops s))
  end.
Proof.
  intros Hk Hn. unfold oracle_multiples.
  rewrite (np_ceil_log2_exact k Hk). cbn [rbind].
  rewrite (QuantumRegister_accepts nqubits_input Hn). cbn [rbind].
  rewrite remainders_register_accepted. reflexivity.
Qed.

(** The moduli for which the number of remainder wires is exact. *)
Lemma modulus_of_64_bits (k : Z) : 2 <= k <= 2 ^ 32 -> 1 <= k < 2 ^ 64.
Proof.
  intros Hk. assert (H : 2 ^ 32 < 2 ^ 64) by reflexivity. lia.
Qed.

(** C5 (as amended). In a build that returns, the reference of fold-out for
    the raw remainder r is the very circuit referred to by fold-in for the
    raw remainder r' exactly when r' = K - r; r' need not be r. *)
Theorem fold_out_reuses_fold_in (k nqubits_input approx_QFT : Z)
  (oracle : option (circuit Z))
  (qubits_oracle qubits_control : option (list qubit))
  (state_control : option (list Z)) (init_H : bool)
  (classic_register : option bool) (c : quantum_circuit) :
  oracle_multiples k nqubits_input approx_QFT oracle qubits_oracle
    qubits_control state_control init_H classic_register = inr c ->
  let list_remainders := get_remainders_power_2 k (nqubits_input - 1) in
  exists fold_in_refs fold_out_refs,
    adder_refs (data c) = fold_in_refs ++ fold_out_refs /\
    length fold_in_refs = length list_remainders /\
    length fold_out_refs = length list_remainders /\
    forall (i j : nat) r r' inst inst',
      list_remainders !! i = Some r -> fold_out_refs !! i = Some inst ->
      list_remainders !! j = Some r' -> fold_in_refs !! j = Some inst' ->
      (inst = inst' <-> r' = k - r).
Proof.
  intros Hrun list_remainders.
  apply oracle_multiples_inr in Hrun. destruct Hrun as (s' & Hrun & ->).
  unfold oracle_multiples_run in Hrun.
  pose proof (steady_oracle_multiples_body k nqubits_input approx_QFT oracle
                qubits_oracle qubits_control state_control init_H
                (Builder [] ∅ []) consistent_empty) as H.
  destruct (oracle_multiples_body _ _ _ _ _ _ _ _ _) as [[e | []] s];
    [discriminate |].
  inversion Hrun; subst s'; clear Hrun. simpl.
  destruct H as (Hs & _ & insts & Hrefs & Hall). simpl in Hrefs.
  fold list_remainders in Hall.
  apply Forall2_app_inv_l in Hall.
  destruct Hall as (refs_in & refs_out & Hin & Hout & ->).
  exists refs_in, refs_out. split; [exact Hrefs |].
  split; [symmetry; eapply Forall2_length; exact Hin |].
  split.
  { apply Forall2_length in Hout. now rewrite length_map in Hout. }
  intros i j r r' inst inst' Hr Hinst Hr' Hinst'.
  assert (Hk : circuits_sums s !! (k - r) = Some inst).
  { assert (Hx : map (fun r => k - r) list_remainders !! i = Some (k - r))
      by now rewrite lookup_map, Hr.
    exact (Forall2_lookup_lr _ _ _ i _ _ Hout Hx Hinst). }
  assert (Hk' : circuits_sums s !! r' = Some inst')
    by exact (Forall2_lookup_lr _ _ _ j _ _ Hin Hr' Hinst').
  split.
  - intros <-. apply (cached_serial s Hs) in Hk, Hk'. congruence.
  - intros ->. congruence.
Qed.

Lemma fold_out_reuses_fold_in_witness :
  exists c,
    oracle_multiples 3 2 0 None None None None false None = inr c /\
    exists fold_in_refs fold_out_refs,
      adder_refs (data c) = fold_in_refs ++ fold_out_refs /\
      length fold_in_refs = 2%nat /\
      length fold_out_refs = 2%nat.
Proof.
  eexists. split; [vm_compute; reflexivity |].
  destruct (fold_out_reuses_fold_in 3 2 0 None None None None false None _
              ltac:(vm_compute; reflexivity))
    as (refs_in & refs_out & Hrefs & Hlen_in & Hlen_out & _).
  exists refs_in, refs_out. split; [exact Hrefs |].
  split; [exact Hlen_in | exact Hlen_out].
Defined.

(** C5 as stated fails for K = 3 on two input wires: the raw remainders are
    1 and 2, and the fold-out reference for r = 1 (third reference) is the
    circuit cached by fold-in for the remainder 2 (second reference),
    although 1 is not 3 - 1 and 3 is odd. *)
Lemma fold_out_reuses_fold_in_counterexample :
  exists c inst,
    oracle_multiples 3 2 0 None None None None false None = inr c /\
    get_remainders_power_2 3 (2 - 1) = [1; 2] /\
    adder_refs (data c) !! 1%nat = Some inst /\
    adder_refs (data c) !! 2%nat = Some inst /\
    1 <> 3 - 1 /\ Z.odd 3 = true.
Proof.
  eexists. eexists. split; [vm_compute; reflexivity |].
  split; [reflexivity |]. split; [vm_compute; reflexivity |].
  split; [vm_compute; reflexivity |]. split; [lia | reflexivity].
Qed.

(** ** What the modulo adder computes

    The circuits are never run by the sources, so the meaning of the gates
    is the library's.  It is given here for the states the adder goes
    through on a basis input: every wire either holds a basis bit or is in
    the state (|0> + e^(i pi phase) |1>) / sqrt 2 of a register in the
    Fourier basis.  The library's Fourier transform without swaps takes the
    basis value x to the phases (x mod 2^(j+1)) / 2^j on wire j, and back.
    A gate applied outside these states has no meaning here ([None]), so a
    result [Some] is exact, with no global phase left out. *)

Inductive wire_state : Type :=
| Basis (b : bool)
| Fourier (phase : Q).

Definition state : Type := Z -> wire_state.

Definition upd (st : state) (q : Z) (v : wire_state) : state :=
  fun q' => if q' =? q then v else st q'.

Fixpoint write (qs : list Z) (vs : list wire_state) (st : state) : state :=
  match qs, vs with
  | q :: qs', v :: vs' => upd (write qs' vs' st) q v
  | _, _ => st
  end.

Fixpoint read_bits (st : state) (qs : list Z) : option (list bool) :=
  match qs with
  | [] => Some []
  | q :: qs' =>
      match st q, read_bits st qs' with
      | Basis b, Some bs => Some (b :: bs)
      | _, _ => None
      end
  end.

Fixpoint read_phases (st : state) (qs : list Z) : option (list Q) :=
  match qs with
  | [] => Some []
  | q :: qs' =>
      match st q, read_phases st qs' with
      | Fourier phi, Some phis => Some (phi :: phis)
      | _, _ => None
      end
  end.

(** The value of a register, wire 0 least significant. *)
Fixpoint bits_value (bs : list bool) : Z :=
  match bs with
  | [] => 0
  | b :: bs' => Z.b2z b + 2 * bits_value bs'
  end.

Definition value_bits (w : nat) (x : Z) : list bool :=
  map (fun j : nat => Z.testbit x (Z.of_nat j)) (seq 0 w).

Definition fourier_phases (w : nat) (x : Z) : list Q :=
  map (fun j : nat => draper_angle x (Z.of_nat j)) (seq 0 w).

(** The integer [v] with [phi = v / 2^j], if there is one. *)
Definition phase_int (j : Z) (phi : Q) : option Z :=
  let n := Qnum phi * 2 ^ j in
  let d := Zpos (Qden phi) in
  if n mod d =? 0 then Some (n / d) else None.

(** Wire [j] carries the value [x] when its phase is [x / 2^j] up to full
    turns. *)
Definition carries (x : Z) (j : Z) (phi : Q) : bool :=
  match phase_int j phi with
  | Some v => (v - x) mod 2 ^ (j + 1) =? 0
  | None => false
  end.

(** The basis value a register in the Fourier basis stands for. *)
Definition decode (phis : list Q) : option Z :=
  let w := len phis in
  match phase_int (w - 1) (List.last phis 0%Q) with
  | Some v =>
      let x := v mod 2 ^ w in
      if forallb (fun jp => carries x (fst jp) (snd jp)) (enumerate phis)
      then Some x else None
  | None => None
  end.

Definition apply_gate (g : gate Z) (st : state) : option state :=
  match g with
  | G_x q =>
      match st q with
      | Basis b => Some (upd st q (Basis (negb b)))
      | _ => None
      end
  | G_p theta q =>
      match st q with
      | Fourier phi => Some (upd st q (Fourier (phi + theta)))
      | _ => None
      end
  | G_cp theta c t =>
      match st c, st t with
      | Basis b, Fourier phi =>
          Some (if b then upd st t (Fourier (phi + theta)) else st)
      | _, _ => None
      end
  | G_cx c t =>
      match st c, st t with
      | Basis a, Basis b =>
          if c =? t then None else Some (upd st t (Basis (xorb a b)))
      | _, _ => None
      end
  | G_QFT n approx inverse qs =>
      if (approx =? 0) && (n =? len qs) && bool_decide (NoDup qs) then
        if inverse then
          match read_phases st qs with
          | Some phis =>
              match decode phis with
              | Some x => Some (write qs (map Basis (value_bits (length qs) x)) st)
              | None => None
              end
          | None => None
          end
        else
          match read_bits st qs with
          | Some bs =>
              Some (write qs (map Fourier
                                  (fourier_phases (length qs) (bits_value bs))) st)
          | None => None
          end
      else None
  | _ => None
  end.

Fixpoint run (gates : list (gate Z)) (st : state) : option state :=
  match gates with
  | [] => Some st
  | g :: gates' =>
      match apply_gate g st with
      | Some st' => run gates' st'
      | None => None
      end
  end.

(** A register holding the basis value [x]. *)
Definition basis_state (qs : list Z) (x : Z) (st : state) : state :=
  write qs (map Basis (value_bits (length qs) x)) st.

Definition all_zero : state := fun _ => Basis false.


(** *** Phases modulo full turns *)

(** [phi] is [x / 2^j] up to a multiple of 2 (a full turn in units of pi). *)
Definition phase_of (x j : Z) (phi : Q) : Prop :=
  exists n, Qnum phi * 2 ^ j = (x + 2 ^ (j + 1) * n) * QDen phi.

Lemma phase_of_Qeq x j phi phi' :
  (phi == phi')%Q -> phase_of x j phi -> phase_of x j phi'.
Proof.
  unfold Qeq. intros Heq [n Hn]. exists n.
  apply (Z.mul_cancel_r _ _ (QDen phi)); [lia |]. nia.
Qed.

Lemma phase_of_exact v j phi :
  0 <= j -> (phi == inject_Z v / inject_Z (2 ^ j))%Q -> phase_of v j phi.
Proof.
  intros Hj Heq. exists 0. rewrite Z.mul_0_r, Z.add_0_r.
  assert (Hpos : 0 < 2 ^ j) by (apply Z.pow_pos_nonneg; lia).
  assert (H : (phi * inject_Z (2 ^ j) == inject_Z v)%Q).
  { rewrite Heq. field. intros H0. unfold Qeq in H0. simpl in H0. lia. }
  unfold Qeq in H. simpl in H. lia.
Qed.

Lemma phase_of_shift x x' j phi :
  0 <= j -> (x' - x) mod 2 ^ (j + 1) = 0 -> phase_of x j phi -> phase_of x' j phi.
Proof.
  intros Hj Hmod [n Hn].
  assert (Hpos : 0 < 2 ^ (j + 1)) by (apply Z.pow_pos_nonneg; lia).
  apply Z.mod_divide in Hmod; [| lia]. destruct Hmod as [c Hc].
  exists (n - c). rewrite Hn. f_equal. lia.
Qed.

Lemma phase_of_draper m j : 0 <= j -> phase_of m j (draper_angle m j).
Proof.
  intros Hj. apply (phase_of_shift (m mod 2 ^ (j + 1))); [assumption | |].
  - assert (Hpos : 0 < 2 ^ (j + 1)) by (apply Z.pow_pos_nonneg; lia).
    rewrite Zminus_mod_idemp_r, Z.sub_diag. now apply Z.mod_0_l; lia.
  - now apply phase_of_exact.
Qed.

Lemma phase_of_plus x y j phi theta :
  phase_of x j phi -> phase_of y j theta -> phase_of (x + y) j (phi + theta).
Proof.
  intros [n Hn] [n' Hn']. exists (n + n'). simpl. nia.
Qed.

Lemma phase_of_negate y j theta :
  phase_of y j theta -> phase_of (- y) j (-1 * theta).
Proof.
  intros [n Hn]. exists (- n). simpl.
  destruct (Qnum theta); simpl in *; nia.
Qed.

Lemma phase_int_of x j phi :
  phase_of x j phi -> exists n, phase_int j phi = Some (x + 2 ^ (j + 1) * n).
Proof.
  intros [n Hn]. exists n. unfold phase_int. rewrite Hn.
  rewrite Z.mod_mul by lia. simpl. now rewrite Z.div_mul by lia.
Qed.

Lemma carries_of x x' j phi :
  0 <= j -> (x - x') mod 2 ^ (j + 1) = 0 -> phase_of x j phi ->
  carries x' j phi = true.
Proof.
  intros Hj Hmod Hphi. unfold carries.
  destruct (phase_int_of x j phi Hphi) as [n ->].
  apply Z.eqb_eq.
  replace (x + 2 ^ (j + 1) * n - x') with (x - x' + n * 2 ^ (j + 1)) by lia.
  now rewrite Z_mod_plus_full.
Qed.

(** A list of phases standing for the value [v], wire by wire. *)
Definition phases_of (v : Z) (phis : list Q) : Prop :=
  forall (j : nat) phi, phis !! j = Some phi -> phase_of v (Z.of_nat j) phi.

Lemma last_lookup_default {A} (l : list A) (d : A) :
  l <> [] -> l !! (length l - 1)%nat = Some (List.last l d).
Proof.
  induction l as [|a l IH]; intros Hne; [congruence |].
  destruct l as [|b l]; [reflexivity |].
  specialize (IH ltac:(discriminate)). simpl in *.
  now rewrite Nat.sub_0_r in IH.
Qed.

Lemma enumerate_In {A} (l : list A) j a :
  In (j, a) (enumerate l) -> exists i : nat, j = Z.of_nat i /\ l !! i = Some a.
Proof.
  unfold enumerate, py_range. rewrite Z.sub_0_r. unfold len.
  rewrite Nat2Z.id.
  assert (H : forall start,
             In (j, a) (combine (map (fun i : nat => 0 + Z.of_nat i)
                                     (seq start (length l))) l) ->
             exists i : nat, j = Z.of_nat (start + i) /\ l !! i = Some a).
  { induction l as [|b l IH]; intros start Hin; [destruct Hin |].
    simpl in Hin. destruct Hin as [Heq | Hin].
    - inversion Heq; subst. exists 0%nat. split; [f_equal; lia | reflexivity].
    - destruct (IH (S start) Hin) as (i & -> & Hi).
      exists (S i). split; [f_equal; lia | exact Hi]. }
  intros Hin. destruct (H 0%nat Hin) as (i & Hj & Hi). eauto.
Qed.

Lemma mod_pow2_divide v j w :
  0 <= j -> j + 1 <= w -> (v - v mod 2 ^ w) mod 2 ^ (j + 1) = 0.
Proof.
  intros Hj Hw.
  assert (Hpos : 0 < 2 ^ w) by (apply Z.pow_pos_nonneg; lia).
  pose proof (Z.div_mod v (2 ^ w) ltac:(lia)) as Hdm.
  replace (v - v mod 2 ^ w) with (2 ^ w * (v / 2 ^ w)) by lia.
  generalize (v / 2 ^ w) as q. intros q.
  assert (Hsplit : 2 ^ w = 2 ^ (w - (j + 1)) * 2 ^ (j + 1)).
  { rewrite <- Z.pow_add_r by lia. f_equal. lia. }
  rewrite Hsplit.
  replace (2 ^ (w - (j + 1)) * 2 ^ (j + 1) * q)
    with (2 ^ (w - (j + 1)) * q * 2 ^ (j + 1)) by lia.
  apply Z.mod_mul. apply Z.pow_nonzero; lia.
Qed.

(** The inverse transform reads the value back, reduced to the width. *)
Lemma decode_phases v phis :
  phases_of v phis -> decode phis = Some (v mod 2 ^ len phis).
Proof.
  intros Hphis.
  destruct phis as [|phi0 phis0] eqn:Ephis.
  { change (len (@nil Q)) with 0. now rewrite Z.pow_0_r, Z.mod_1_r. }
  unfold decode.
  rewrite <- Ephis in *. assert (Hne : phis <> []) by (subst; discriminate).
  clear Ephis phi0 phis0.
  pose proof (last_lookup_default phis 0%Q Hne) as Hlast.
  apply Hphis in Hlast.
  assert (Hlen : (0 < length phis)%nat) by (destruct phis; simpl; [congruence | lia]).
  replace (Z.of_nat (length phis - 1)) with (len phis - 1) in Hlast
    by (unfold len; lia).
  destruct (phase_int_of _ _ _ Hlast) as [n ->].
  replace (len phis - 1 + 1) with (len phis) by lia.
  replace (v + 2 ^ len phis * n) with (v + n * 2 ^ len phis) by lia.
  rewrite Z_mod_plus_full.
  rewrite (proj2 (forallb_forall _ _)); [reflexivity |].
  intros [j phi] Hin. simpl.
  apply enumerate_In in Hin. destruct Hin as (i & -> & Hi).
  apply (carries_of v); [lia | | now apply Hphis].
  apply mod_pow2_divide; [lia |].
  apply lookup_lt_Some in Hi. unfold len. lia.
Qed.

(** *** Registers in a state *)

Definition holds_bits (v : Z) (qs : list Z) (st : state) : Prop :=
  map st qs = map Basis (value_bits (length qs) v).

Definition holds_phases (v : Z) (qs : list Z) (st : state) : Prop :=
  exists phis, map st qs = map Fourier phis /\ phases_of v phis.

Definition same_outside (qs : list Z) (st st' : state) : Prop :=
  forall q, q ∉ qs -> st' q = st q.

Lemma upd_same st q v : upd st q v q = v.
Proof. unfold upd. now rewrite Z.eqb_refl. Qed.

Lemma upd_other st q v q' : q' <> q -> upd st q v q' = st q'.
Proof. unfold upd. intros H. apply Z.eqb_neq in H. now rewrite H. Qed.

Lemma map_upd_outside st q v qs : q ∉ qs -> map (upd st q v) qs = map st qs.
Proof.
  intros Hq. apply map_ext_in. intros q' Hin. apply upd_other.
  intros ->. now apply Hq, list_elem_of_In.
Qed.

Lemma write_outside qs vs st q : q ∉ qs -> write qs vs st q = st q.
Proof.
  revert vs. induction qs as [|q0 qs IH]; intros vs Hq; [reflexivity |].
  destruct vs as [|v vs]; [reflexivity |]. simpl.
  apply not_elem_of_cons in Hq. destruct Hq as [Hne Hq].
  rewrite upd_other by assumption. now apply IH.
Qed.

Lemma write_read qs vs st :
  NoDup qs -> length qs = length vs -> map (write qs vs st) qs = vs.
Proof.
  revert vs. induction qs as [|q0 qs IH]; intros [|v vs] Hnd Hlen;
    simpl in *; try reflexivity; try discriminate.
  apply NoDup_cons in Hnd. destruct Hnd as [Hq0 Hnd].
  rewrite upd_same. f_equal.
  rewrite map_upd_outside by assumption. apply IH; [assumption | lia].
Qed.

Lemma read_bits_map st qs bs :
  map st qs = map Basis bs -> read_bits st qs = Some bs.
Proof.
  revert bs. induction qs as [|q qs IH]; intros [|b bs] H; simpl in *;
    try reflexivity; try discriminate.
  inversion H as [[Hq Hqs]]. rewrite Hq. now rewrite (IH bs Hqs).
Qed.

Lemma read_phases_map st qs phis :
  map st qs = map Fourier phis -> read_phases st qs = Some phis.
Proof.
  revert phis. induction qs as [|q qs IH]; intros [|phi phis] H; simpl in *;
    try reflexivity; try discriminate.
  inversion H as [[Hq Hqs]]. rewrite Hq. now rewrite (IH phis Hqs).
Qed.

Lemma value_bits_S w v :
  value_bits (S w) v = Z.testbit v 0 :: value_bits w (v / 2).
Proof.
  unfold value_bits. simpl. f_equal.
  rewrite <- seq_shift, map_map. apply map_ext. intros j.
  rewrite Nat2Z.inj_succ. symmetry. apply Z.div2_bits. lia.
Qed.

Lemma bits_value_bits w v : bits_value (value_bits w v) = v mod 2 ^ Z.of_nat w.
Proof.
  revert v. induction w as [|w IH]; intros v.
  - simpl. now rewrite Z.mod_1_r.
  - rewrite value_bits_S. simpl bits_value. rewrite IH.
    rewrite Nat2Z.inj_succ, Z.pow_succ_r by lia.
    assert (0 < 2 ^ Z.of_nat w) by (apply Z.pow_pos_nonneg; lia).
    rewrite Z.rem_mul_r by lia. f_equal.
    rewrite <- Z.bit0_odd. apply Z.bit0_mod.
Qed.

Lemma phases_of_fourier w v : phases_of v (fourier_phases w v).
Proof.
  intros j phi Hj. unfold fourier_phases in Hj.
  rewrite lookup_map in Hj.
  destruct (seq 0 w !! j) as [i|] eqn:Hi; [| discriminate].
  apply lookup_seq in Hi. destruct Hi as [-> _]. simpl in Hj.
  inversion Hj; subst. apply phase_of_draper. lia.
Qed.

Lemma phases_of_shift v v' phis :
  (v' - v) mod 2 ^ len phis = 0 -> phases_of v phis -> phases_of v' phis.
Proof.
  intros Hmod Hphis j phi Hj.
  apply (phase_of_shift v); [lia | | now apply Hphis].
  apply lookup_lt_Some in Hj.
  assert (Hpos : 0 < 2 ^ len phis) by (apply Z.pow_pos_nonneg; unfold len; lia).
  apply Z.mod_divide in Hmod; [| lia]. destruct Hmod as [c Hc]. rewrite Hc.
  assert (Hsplit : 2 ^ len phis
                   = 2 ^ (len phis - (Z.of_nat j + 1)) * 2 ^ (Z.of_nat j + 1)).
  { rewrite <- Z.pow_add_r by (unfold len; lia). f_equal. lia. }
  rewrite Hsplit, Z.mul_assoc. apply Z.mod_mul. apply Z.pow_nonzero; lia.
Qed.

(** *** The gates of the adders *)

Definition cp_gates (c : Z) (qs : list Z) (thetas : list Q) : list (gate Z) :=
  zip_with (fun theta q => G_cp theta c q) thetas qs.

Definition p_gates (qs : list Z) (thetas : list Q) : list (gate Z) :=
  zip_with (fun theta q => G_p theta q) thetas qs.

Lemma nth_error_lookup {A} (l : list A) (i : nat) : nth_error l i = l !! i.
Proof. revert i. induction l as [|a l IH]; intros [|i]; simpl; auto. Qed.

Lemma py_index_lookup {A} (l : list A) (i : Z) a :
  0 <= i -> l !! Z.to_nat i = Some a -> py_index l i = inr a.
Proof.
  intros Hi Hl. unfold py_index.
  destruct (i <? 0) eqn:E; [apply Z.ltb_lt in E; lia |]. rewrite E.
  now rewrite nth_error_lookup, Hl.
Qed.

(** The loop [for i in range(nqubits)] of both adders, from index [k] on. *)
Lemma rotation_loop (f : Q -> Z -> gate Z) (angles : list Q) (qs : list Z)
  (d : nat) :
  forall (k : nat) c,
    length angles = length qs -> (k + d)%nat = length qs ->
    for_each (py_range (Z.of_nat k) (len qs)) (fun i =>
      do theta <- lift (py_index angles i);
      do qubit <- lift (py_index qs i);
      emit (f theta qubit)) c
    = (inr tt, c ++ zip_with f (drop k angles) (drop k qs)).
Proof.
  induction d as [|d IH]; intros k c Hlen Hk.
  - rewrite py_range_nil by (unfold len; lia).
    rewrite (drop_ge qs) by lia. rewrite (drop_ge angles) by lia.
    simpl. now rewrite app_nil_r.
  - rewrite py_range_cons by (unfold len; lia).
    destruct (lookup_lt_is_Some_2 qs k ltac:(lia)) as [q Hq].
    destruct (lookup_lt_is_Some_2 angles k ltac:(lia)) as [a Ha].
    cbn [for_each]. unfold bind at 1. unfold bind at 1. unfold lift at 1.
    rewrite (py_index_lookup angles (Z.of_nat k) a)
      by (try lia; now rewrite Nat2Z.id).
    unfold bind at 1. unfold lift at 1.
    rewrite (py_index_lookup qs (Z.of_nat k) q)
      by (try lia; now rewrite Nat2Z.id).
    unfold emit at 1.
    replace (Z.of_nat k + 1) with (Z.of_nat (S k)) by lia.
    rewrite IH by lia.
    rewrite (drop_S angles a k Ha), (drop_S qs q k Hq). simpl.
    now rewrite <- app_assoc.
Qed.

Lemma c_phase_add_gates control qs num_sum inv angles c :
  get_angles_phase_addition num_sum (len qs) = inr angles ->
  length angles = length qs ->
  c_phase_add control qs num_sum inv c =
  (inr tt, c ++ cp_gates control qs (if inv then negate angles else angles)).
Proof.
  intros Hangles Hlen. unfold c_phase_add, bind at 1, lift at 1.
  rewrite Hangles.
  pose proof (rotation_loop (fun theta q => G_cp theta control q)
                (if inv then negate angles else angles) qs (length qs) 0 c) as H.
  simpl in H. destruct inv; simpl; apply H; unfold negate;
    rewrite ?length_map; auto.
Qed.

Lemma phase_add_gates qs num_sum inv angles c :
  get_angles_phase_addition num_sum (len qs) = inr angles ->
  length angles = length qs ->
  phase_add qs num_sum inv c =
  (inr tt, c ++ p_gates qs (if inv then negate angles else angles)).
Proof.
  intros Hangles Hlen. unfold phase_add, bind at 1, lift at 1.
  rewrite Hangles.
  pose proof (rotation_loop (fun theta q => G_p theta q)
                (if inv then negate angles else angles) qs (length qs) 0 c) as H.
  simpl in H. destruct inv; simpl; apply H; unfold negate;
    rewrite ?length_map; auto.
Qed.

(** *** Running the blocks *)

Lemma run_app l1 l2 st :
  run (l1 ++ l2) st =
  match run l1 st with Some st' => run l2 st' | None => None end.
Proof.
  revert st. induction l1 as [|g l1 IH]; intros st; simpl; [reflexivity |].
  destruct (apply_gate g st); [apply IH | reflexivity].
Qed.

Lemma same_outside_refl qs st : same_outside qs st st.
Proof. now intros q. Qed.

Lemma same_outside_trans qs st1 st2 st3 :
  same_outside qs st1 st2 -> same_outside qs st2 st3 -> same_outside qs st1 st3.
Proof. intros H1 H2 q Hq. now rewrite H2, H1. Qed.

(** Controlled rotations of a register in the Fourier basis. *)
Lemma run_cp_gates c b qs :
  forall thetas phis st,
    NoDup qs -> c ∉ qs -> st c = Basis b ->
    length thetas = length qs -> map st qs = map Fourier phis ->
    exists st',
      run (cp_gates c qs thetas) st = Some st' /\
      map st' qs = map Fourier (if b then zip_with Qplus phis thetas else phis) /\
      same_outside qs st st'.
Proof.
  induction qs as [|q qs IH]; intros thetas phis st Hnd Hc Hctl Hlen Hmap.
  - destruct thetas; [| discriminate]. destruct phis; [| discriminate].
    exists st. split; [reflexivity |]. split; [now destruct b |].
    apply same_outside_refl.
  - destruct thetas as [|theta thetas]; [discriminate |].
    destruct phis as [|phi phis]; [discriminate |].
    apply NoDup_cons in Hnd. destruct Hnd as [Hq Hnd].
    apply not_elem_of_cons in Hc. destruct Hc as [Hcq Hc].
    simpl in Hmap. inversion Hmap as [[Hq0 Hqs]].
    set (st1 := if b then upd st q (Fourier (phi + theta)) else st).
    assert (Hst1 : map st1 qs = map Fourier phis).
    { subst st1. destruct b; [| assumption].
      now rewrite map_upd_outside. }
    assert (Hctl1 : st1 c = Basis b).
    { subst st1. destruct b; [| assumption]. now rewrite upd_other. }
    destruct (IH thetas phis st1 Hnd Hc Hctl1 ltac:(simpl in Hlen; lia) Hst1)
      as (st' & Hrun & Hmap' & Hout).
    exists st'. split; [| split].
    + unfold cp_gates in *. simpl. rewrite Hctl, Hq0. exact Hrun.
    + simpl. rewrite (Hout q Hq). subst st1.
      destruct b; simpl; [rewrite upd_same | rewrite Hq0]; now rewrite Hmap'.
    + intros q' Hq'. apply not_elem_of_cons in Hq'. destruct Hq' as [Hne Hq'].
      rewrite (Hout q' Hq'). subst st1. destruct b; [| reflexivity].
      now apply upd_other.
Qed.

(** Plain rotations of a register in the Fourier basis. *)
Lemma run_p_gates qs :
  forall thetas phis st,
    NoDup qs -> length thetas = length qs -> map st qs = map Fourier phis ->
    exists st',
      run (p_gates qs thetas) st = Some st' /\
      map st' qs = map Fourier (zip_with Qplus phis thetas) /\
      same_outside qs st st'.
Proof.
  induction qs as [|q qs IH]; intros thetas phis st Hnd Hlen Hmap.
  - destruct thetas; [| discriminate]. destruct phis; [| discriminate].
    exists st. split; [reflexivity |]. split; [reflexivity |].
    apply same_outside_refl.
  - destruct thetas as [|theta thetas]; [discriminate |].
    destruct phis as [|phi phis]; [discriminate |].
    apply NoDup_cons in Hnd. destruct Hnd as [Hq Hnd].
    simpl in Hmap. inversion Hmap as [[Hq0 Hqs]].
    set (st1 := upd st q (Fourier (phi + theta))).
    assert (Hst1 : map st1 qs = map Fourier phis)
      by (subst st1; now rewrite map_upd_outside).
    destruct (IH thetas phis st1 Hnd ltac:(simpl in Hlen; lia) Hst1)
      as (st' & Hrun & Hmap' & Hout).
    exists st'. split; [| split].
    + unfold p_gates in *. simpl. rewrite Hq0. exact Hrun.
    + simpl. rewrite (Hout q Hq). subst st1. rewrite upd_same.
      now rewrite Hmap'.
    + intros q' Hq'. apply not_elem_of_cons in Hq'. destruct Hq' as [Hne Hq'].
      rewrite (Hout q' Hq'). subst st1. now apply upd_other.
Qed.

Lemma phases_of_zip_plus v m phis thetas :
  phases_of v phis -> phases_of m thetas ->
  phases_of (v + m) (zip_with Qplus phis thetas).
Proof.
  intros Hv Hm j phi Hj. apply lookup_zip_with_Some in Hj.
  destruct Hj as (a & b & -> & Ha & Hb).
  apply phase_of_plus; [now apply Hv | now apply Hm].
Qed.

Lemma phases_of_negate m thetas :
  phases_of m thetas -> phases_of (- m) (negate thetas).
Proof.
  intros Hm j phi Hj. unfold negate in Hj. rewrite lookup_map in Hj.
  destruct (thetas !! j) as [theta|] eqn:E; [| discriminate].
  inversion Hj; subst. apply phase_of_negate. now apply Hm.
Qed.

Lemma map_Fourier_length (st : state) (qs : list Z) (phis : list Q) :
  map st qs = map Fourier phis -> length phis = length qs.
Proof.
  intros H. apply (f_equal (@length wire_state)) in H.
  now rewrite !length_map in H.
Qed.

Lemma angles_phases_of m w angles :
  0 <= w -> 0 <= m < 2 ^ w ->
  get_angles_phase_addition m w = inr angles ->
  phases_of m angles /\ len angles = w.
Proof.
  intros Hw Hm Heq.
  destruct (get_angles_entries m w Hw Hm) as (angles' & Heq' & Hlen & Hent).
  rewrite Heq in Heq'. inversion Heq'; subst angles'. split; [| exact Hlen].
  intros j phi Hj.
  assert (Hlt : Z.of_nat j < w).
  { apply lookup_lt_Some in Hj. unfold len in Hlen. lia. }
  destruct (Hent (Z.of_nat j) ltac:(lia)) as (theta & Hnth & Htheta).
  rewrite Nat2Z.id, nth_error_lookup, Hj in Hnth. inversion Hnth; subst.
  apply (phase_of_Qeq _ _ (draper_angle m (Z.of_nat j))).
  - now symmetry.
  - apply phase_of_draper. lia.
Qed.

(** The controlled adder of the constant [m] adds [m] when its control is
    set, subtracts it when built with [inv], on a register in the Fourier
    basis. *)
Lemma run_c_phase_add (c : Z) (b : bool) (qs : list Z) (m : Z) (inv : bool)
  (angles : list Q) (v : Z) (st : state) :
  NoDup qs -> c ∉ qs -> st c = Basis b ->
  phases_of m angles -> length angles = length qs ->
  holds_phases v qs st ->
  exists st',
    run (cp_gates c qs (if inv then negate angles else angles)) st = Some st' /\
    holds_phases (if b then (if inv then v - m else v + m) else v) qs st' /\
    same_outside qs st st'.
Proof.
  intros Hnd Hc Hctl Hm Hlen (phis & Hmap & Hphis).
  set (thetas := if inv then negate angles else angles).
  assert (Hlen' : length thetas = length qs).
  { subst thetas. destruct inv; [unfold negate; now rewrite length_map | easy]. }
  destruct (run_cp_gates c b qs thetas phis st Hnd Hc Hctl Hlen' Hmap)
    as (st' & Hrun & Hmap' & Hout).
  exists st'. split; [exact Hrun |]. split; [| exact Hout].
  eexists. split; [exact Hmap' |].
  destruct b; [| exact Hphis]. subst thetas. destruct inv.
  - apply phases_of_zip_plus; [exact Hphis | now apply phases_of_negate].
  - now apply phases_of_zip_plus.
Qed.

Lemma run_phase_add (qs : list Z) (m : Z) (inv : bool) (angles : list Q)
  (v : Z) (st : state) :
  NoDup qs -> phases_of m angles -> length angles = length qs ->
  holds_phases v qs st ->
  exists st',
    run (p_gates qs (if inv then negate angles else angles)) st = Some st' /\
    holds_phases (if inv then v - m else v + m) qs st' /\
    same_outside qs st st'.
Proof.
  intros Hnd Hm Hlen (phis & Hmap & Hphis).
  set (thetas := if inv then negate angles else angles).
  assert (Hlen' : length thetas = length qs).
  { subst thetas. destruct inv; [unfold negate; now rewrite length_map | easy]. }
  destruct (run_p_gates qs thetas phis st Hnd Hlen' Hmap)
    as (st' & Hrun & Hmap' & Hout).
  exists st'. split; [exact Hrun |]. split; [| exact Hout].
  eexists. split; [exact Hmap' |].
  subst thetas. destruct inv.
  - apply phases_of_zip_plus; [exact Hphis | now apply phases_of_negate].
  - now apply phases_of_zip_plus.
Qed.

(** The direct transform of a register holding a basis value. *)
Lemma run_direct_QFT (qs : list Z) (v : Z) (st : state) :
  NoDup qs -> 0 <= v < 2 ^ len qs -> holds_bits v qs st ->
  exists st',
    run [G_QFT (len qs) 0 false qs] st = Some st' /\
    holds_phases v qs st' /\ same_outside qs st st'.
Proof.
  intros Hnd Hv Hbits. unfold holds_bits in Hbits. simpl.
  rewrite Z.eqb_refl, (bool_decide_eq_true_2 _ Hnd). simpl.
  rewrite (read_bits_map _ _ _ Hbits), bits_value_bits.
  fold (len qs). rewrite Z.mod_small by assumption.
  eexists. split; [reflexivity |]. split.
  - exists (fourier_phases (length qs) v). split.
    + apply write_read; [assumption |].
      unfold fourier_phases. now rewrite !length_map, length_seq.
    + apply phases_of_fourier.
  - intros q Hq. now apply write_outside.
Qed.

(** The inverse transform of a register in the Fourier basis. *)
Lemma run_inverse_QFT (qs : list Z) (v : Z) (st : state) :
  NoDup qs -> holds_phases v qs st ->
  exists st',
    run [G_QFT (len qs) 0 true qs] st = Some st' /\
    holds_bits (v mod 2 ^ len qs) qs st' /\ same_outside qs st st'.
Proof.
  intros Hnd (phis & Hmap & Hphis). simpl.
  rewrite Z.eqb_refl, (bool_decide_eq_true_2 _ Hnd). simpl.
  rewrite (read_phases_map _ _ _ Hmap), (decode_phases v phis Hphis).
  assert (Hlen : len phis = len qs).
  { unfold len. now rewrite (map_Fourier_length st qs phis Hmap). }
  rewrite Hlen.
  eexists. split; [reflexivity |]. split.
  - unfold holds_bits. apply write_read; [assumption |].
    unfold value_bits. now rewrite !length_map, length_seq.
  - intros q Hq. now apply write_outside.
Qed.

Lemma py_index_top (qs : list Z) :
  qs <> [] -> py_index qs (len qs - 1) = inr (List.last qs 0).
Proof.
  intros Hne. apply py_index_lookup.
  - destruct qs; [congruence | unfold len; simpl; lia].
  - replace (Z.to_nat (len qs - 1)) with (length qs - 1)%nat by (unfold len; lia).
    now apply last_lookup_default.
Qed.

Lemma holds_bits_top (v : Z) (qs : list Z) (st : state) :
  qs <> [] -> holds_bits v qs st ->
  st (List.last qs 0) = Basis (Z.testbit v (len qs - 1)).
Proof.
  intros Hne Hbits. unfold holds_bits in Hbits.
  pose proof (last_lookup_default qs 0 Hne) as Hlast.
  assert (Hlen : (0 < length qs)%nat) by (destruct qs; simpl; [congruence | lia]).
  assert (H1 : map st qs !! (length qs - 1)%nat = Some (st (List.last qs 0)))
    by now rewrite lookup_map, Hlast.
  rewrite Hbits, lookup_map in H1. unfold value_bits in H1.
  rewrite lookup_map in H1.
  rewrite (lookup_seq_lt 0 (length qs) (length qs - 1)) in H1 by lia.
  simpl in H1. inversion H1 as [H2]. unfold len. do 2 f_equal. lia.
Qed.

Lemma last_elem_of (qs : list Z) : qs <> [] -> List.last qs 0 ∈ qs.
Proof.
  intros Hne. eapply list_elem_of_lookup_2. now apply last_lookup_default.
Qed.

(** Copying the top bit of the register into the ancilla. *)
Lemma run_cx_top (qs : list Z) (anc : Z) (a : bool) (v : Z) (st : state) :
  qs <> [] -> anc ∉ qs -> st anc = Basis a -> holds_bits v qs st ->
  exists st',
    run [G_cx (List.last qs 0) anc] st = Some st' /\
    st' anc = Basis (xorb (Z.testbit v (len qs - 1)) a) /\
    holds_bits v qs st' /\
    (forall q, q <> anc -> st' q = st q).
Proof.
  intros Hne Hanc Ha Hbits. simpl.
  rewrite (holds_bits_top v qs st Hne Hbits), Ha.
  assert (Hneq : List.last qs 0 <> anc).
  { intros Heq. apply Hanc. rewrite <- Heq. now apply last_elem_of. }
  apply Z.eqb_neq in Hneq. rewrite Hneq.
  eexists. split; [reflexivity |]. split; [apply upd_same |]. split.
  - unfold holds_bits in *. now rewrite map_upd_outside.
  - intros q Hq. now apply upd_other.
Qed.

(** Copying the negated top bit into the ancilla. *)
Lemma run_x_cx_x (qs : list Z) (anc : Z) (a : bool) (v : Z) (st : state) :
  qs <> [] -> anc ∉ qs -> st anc = Basis a -> holds_bits v qs st ->
  exists st',
    run [G_x (List.last qs 0); G_cx (List.last qs 0) anc;
         G_x (List.last qs 0)] st = Some st' /\
    st' anc = Basis (xorb (negb (Z.testbit v (len qs - 1))) a) /\
    holds_bits v qs st' /\
    (forall q, q <> anc -> st' q = st q).
Proof.
  intros Hne Hanc Ha Hbits.
  set (top := List.last qs 0).
  assert (Hneq : top <> anc).
  { intros Heq. apply Hanc. rewrite <- Heq. now apply last_elem_of. }
  pose proof (holds_bits_top v qs st Hne Hbits) as Htop. fold top in Htop.
  simpl. rewrite Htop. rewrite upd_same.
  rewrite (upd_other st top _ anc) by congruence. rewrite Ha.
  apply Z.eqb_neq in Hneq. rewrite Hneq. apply Z.eqb_neq in Hneq.
  rewrite (upd_other _ anc _ top) by assumption. rewrite upd_same.
  eexists. split; [reflexivity |]. split; [| split].
  - rewrite (upd_other _ top _ anc) by congruence. apply upd_same.
  - unfold holds_bits in *. rewrite <- Hbits. apply map_ext_in.
    intros q Hq. destruct (Z.eq_dec q top) as [-> | Hqt].
    + rewrite upd_same, Htop. now rewrite negb_involutive.
    + rewrite upd_other by assumption.
      rewrite upd_other.
      * now apply upd_other.
      * intros ->. now apply Hanc, list_elem_of_In.
  - intros q Hq. destruct (Z.eq_dec q top) as [-> | Hqt].
    + rewrite upd_same, Htop. now rewrite negb_involutive.
    + rewrite upd_other by assumption. rewrite upd_other by assumption.
      now apply upd_other.
Qed.

(** The three stages of the modulo adder, without the outermost pair of
    transforms. *)
Definition stages (qs : list Z) (control anc : Z) (Am AK : list Q)
  : list (gate Z) :=
  let direct := G_QFT (len qs) 0 false qs in
  let inverse := G_QFT (len qs) 0 true qs in
  let top := List.last qs 0 in
  cp_gates control qs Am ++ p_gates qs (negate AK) ++
  [inverse] ++ [G_cx top anc] ++ [direct] ++
  cp_gates anc qs AK ++ cp_gates control qs (negate Am) ++
  [inverse] ++ [G_x top; G_cx top anc; G_x top] ++ [direct] ++
  cp_gates control qs Am.

Lemma c_phase_add_mod_K_gates (qs : list Z) (control anc m K : Z)
  (include_QFTs : bool) (Am AK : list Q) :
  qs <> [] ->
  get_angles_phase_addition m (len qs) = inr Am -> length Am = length qs ->
  get_angles_phase_addition K (len qs) = inr AK -> length AK = length qs ->
  c_phase_add_mod_K qs control anc m K 0 include_QFTs =
  inr ((if include_QFTs then [G_QFT (len qs) 0 false qs] else []) ++
       stages qs control anc Am AK ++
       (if include_QFTs then [G_QFT (len qs) 0 true qs] else [])).
Proof.
  intros Hne Hm Hlm HK HlK.
  unfold c_phase_add_mod_K, c_phase_add_mod_K_body.
  rewrite (py_index_top qs Hne).
  unfold bind, lift, emit, ret.
  destruct include_QFTs;
    repeat first
      [ rewrite (c_phase_add_gates _ qs m _ Am _ Hm Hlm)
      | rewrite (c_phase_add_gates _ qs K _ AK _ HK HlK)
      | rewrite (phase_add_gates qs K _ AK _ HK HlK) ];
    unfold stages;
    repeat first [progress simpl | rewrite <- app_assoc | rewrite app_nil_r];
    reflexivity.
Qed.

Lemma mod_wrap a M : - M <= a < 0 -> a mod M = a + M.
Proof. intros H. symmetry. apply (Z.mod_unique_pos _ _ (-1)); lia. Qed.

Lemma testbit_top u w :
  1 <= w -> 0 <= u < 2 ^ w -> Z.testbit u (w - 1) = (2 ^ (w - 1) <=? u).
Proof.
  intros Hw Hu.
  assert (Hpos : 0 < 2 ^ (w - 1)) by (apply Z.pow_pos_nonneg; lia).
  assert (Hsplit : 2 ^ w = 2 * 2 ^ (w - 1)).
  { rewrite <- Z.pow_succ_r by lia. f_equal. lia. }
  destruct (2 ^ (w - 1) <=? u) eqn:E.
  - apply Z.leb_le in E. apply Z.testbit_true; [lia |].
    assert (Hdiv : u / 2 ^ (w - 1) = 1).
    { symmetry. apply (Z.div_unique_pos _ _ _ (u - 2 ^ (w - 1))); lia. }
    now rewrite Hdiv.
  - apply Z.leb_gt in E. apply Z.testbit_false; [lia |].
    now rewrite Z.div_small by lia.
Qed.

(** The values the register and the ancilla go through. *)
Lemma adder_arithmetic (K w x m : Z) (ctl : bool) :
  2 <= K -> 1 <= w -> K <= 2 ^ (w - 1) -> 0 <= x < K -> 0 <= m < K ->
  let M := 2 ^ w in
  let v1 := if ctl then x + m else x in
  let u1 := (v1 - K) mod M in
  let anc1 := xorb (Z.testbit u1 (w - 1)) false in
  let v3 := if anc1 then u1 + K else u1 in
  let v4 := if ctl then v3 - m else v3 in
  let u2 := v4 mod M in
  let anc2 := xorb (negb (Z.testbit u2 (w - 1))) anc1 in
  let v5 := if ctl then u2 + m else u2 in
  anc2 = false /\
  ((if ctl then (x + m) mod K else x) - v5) mod M = 0.
Proof.
  intros HK Hw Hhalf Hx Hm.
  assert (HM : 2 ^ w = 2 * 2 ^ (w - 1)).
  { rewrite <- Z.pow_succ_r by lia. f_equal. lia. }
  assert (Hrange : forall a, 0 <= a mod 2 ^ w < 2 ^ w)
    by (intros a; apply Z.mod_pos_bound; lia).
  cbv zeta. rewrite !testbit_top by (try apply Hrange; lia).
  destruct ctl.
  - destruct (Z_lt_le_dec (x + m) K) as [Hlt | Hge].
    + (* no wrap-around: the subtraction of K underflows *)
      rewrite (mod_wrap (x + m - K)) by lia.
      replace (2 ^ (w - 1) <=? x + m - K + 2 ^ w) with true
        by (symmetry; apply Z.leb_le; lia).
      cbn [xorb negb].
      replace (x + m - K + 2 ^ w + K - m) with (x + 1 * 2 ^ w) by lia.
      rewrite Z_mod_plus_full, (Z.mod_small x) by lia.
      replace (2 ^ (w - 1) <=? x) with false
        by (symmetry; apply Z.leb_gt; lia).
      split; [reflexivity |].
      rewrite (Z.mod_small (x + m)) by lia. now rewrite Z.sub_diag.
    + (* wrap-around *)
      rewrite (Z.mod_small (x + m - K)) by lia.
      replace (2 ^ (w - 1) <=? x + m - K) with false
        by (symmetry; apply Z.leb_gt; lia).
      cbn [xorb negb].
      replace (x + m - K - m) with (x - K) by lia.
      rewrite (mod_wrap (x - K)) by lia.
      replace (2 ^ (w - 1) <=? x - K + 2 ^ w) with true
        by (symmetry; apply Z.leb_le; lia).
      split; [reflexivity |].
      assert (Hy : (x + m) mod K = x + m - K).
      { symmetry. apply (Z.mod_unique_pos _ _ 1); lia. }
      rewrite Hy.
      replace (x + m - K - (x - K + 2 ^ w + m)) with (-1 * 2 ^ w) by lia.
      apply Z.mod_mul. lia.
  - rewrite (mod_wrap (x - K)) by lia.
    replace (2 ^ (w - 1) <=? x - K + 2 ^ w) with true
      by (symmetry; apply Z.leb_le; lia).
    cbn [xorb negb].
    replace (x - K + 2 ^ w + K) with (x + 1 * 2 ^ w) by lia.
    rewrite Z_mod_plus_full, (Z.mod_small x) by lia.
    replace (2 ^ (w - 1) <=? x) with false
      by (symmetry; apply Z.leb_gt; lia).
    split; [reflexivity |]. now rewrite Z.sub_diag.
Qed.

Section Stages.

Variables (qs : list Z) (control anc : Z).
Hypothesis qs_NoDup : NoDup qs.
Hypothesis qs_nonempty : qs <> [].
Hypothesis control_outside : control ∉ qs.
Hypothesis anc_outside : anc ∉ qs.
Hypothesis control_not_anc : control <> anc.

Variable st0 : state.

(** What stays true of the wires around the register: the control bit, the
    ancilla bit [a], and every other wire as in [st0]. *)
Definition around (ctl a : bool) (st : state) : Prop :=
  st control = Basis ctl /\ st anc = Basis a /\
  forall q, q ∉ anc :: qs -> st q = st0 q.

Lemma around_register ctl a st st' :
  around ctl a st -> same_outside qs st st' -> around ctl a st'.
Proof.
  intros (Hc & Ha & Hrest) Hout. repeat split.
  - now rewrite Hout.
  - now rewrite Hout.
  - intros q Hq. rewrite Hout; [now apply Hrest |].
    intros Hin. apply Hq. now right.
Qed.

Lemma around_ancilla ctl a a' st st' :
  around ctl a st -> (forall q, q <> anc -> st' q = st q) ->
  st' anc = Basis a' -> around ctl a' st'.
Proof.
  intros (Hc & Ha & Hrest) Hout Ha'. repeat split.
  - now rewrite Hout.
  - exact Ha'.
  - intros q Hq. rewrite Hout; [now apply Hrest |].
    intros ->. apply Hq. now left.
Qed.

Variables (m K : Z) (Am AK : list Q).
Hypothesis Am_phases : phases_of m Am.
Hypothesis AK_phases : phases_of K AK.
Hypothesis Am_length : length Am = length qs.
Hypothesis AK_length : length AK = length qs.

(** The three stages on a register in the Fourier basis, value by value. *)
Lemma run_stages (x : Z) (ctl : bool) (st : state) :
  around ctl false st -> holds_phases x qs st ->
  let M := 2 ^ len qs in
  let w := len qs in
  let v1 := if ctl then x + m else x in
  let u1 := (v1 - K) mod M in
  let anc1 := xorb (Z.testbit u1 (w - 1)) false in
  let v3 := if anc1 then u1 + K else u1 in
  let v4 := if ctl then v3 - m else v3 in
  let u2 := v4 mod M in
  let anc2 := xorb (negb (Z.testbit u2 (w - 1))) anc1 in
  let v5 := if ctl then u2 + m else u2 in
  exists st',
    run (stages qs control anc Am AK) st = Some st' /\
    around ctl anc2 st' /\ holds_phases v5 qs st'.
Proof.
  intros Har Hph M w v1 u1 anc1 v3 v4 u2 anc2 v5.
  assert (HM : forall a, 0 <= a mod M < M).
  { intros a. apply Z.mod_pos_bound. apply Z.pow_pos_nonneg; unfold len; lia. }
  unfold stages. 
  (* stage 1 *)
  destruct (run_c_phase_add control ctl qs m false Am x st qs_NoDup
              control_outside (proj1 Har) Am_phases Am_length Hph)
    as (s1 & R1 & P1 & O1).
  pose proof (around_register _ _ _ _ Har O1) as A1.
  destruct (run_phase_add qs K true AK _ s1 qs_NoDup AK_phases AK_length P1)
    as (s2 & R2 & P2 & O2).
  pose proof (around_register _ _ _ _ A1 O2) as A2.
  destruct (run_inverse_QFT qs _ s2 qs_NoDup P2) as (s3 & R3 & B3 & O3).
  pose proof (around_register _ _ _ _ A2 O3) as A3.
  destruct (run_cx_top qs anc false _ s3 qs_nonempty anc_outside
              (proj1 (proj2 A3)) B3) as (s4 & R4 & Ha4 & B4 & O4).
  pose proof (around_ancilla _ _ _ _ _ A3 O4 Ha4) as A4.
  (* stage 2 *)
  destruct (run_direct_QFT qs _ s4 qs_NoDup (HM _) B4) as (s5 & R5 & P5 & O5).
  pose proof (around_register _ _ _ _ A4 O5) as A5.
  destruct (run_c_phase_add anc _ qs K false AK _ s5 qs_NoDup
              anc_outside (proj1 (proj2 A5)) AK_phases AK_length P5)
    as (s6 & R6 & P6 & O6).
  pose proof (around_register _ _ _ _ A5 O6) as A6.
  destruct (run_c_phase_add control ctl qs m true Am _ s6 qs_NoDup
              control_outside (proj1 A6) Am_phases Am_length P6)
    as (s7 & R7 & P7 & O7).
  pose proof (around_register _ _ _ _ A6 O7) as A7.
  destruct (run_inverse_QFT qs _ s7 qs_NoDup P7) as (s8 & R8 & B8 & O8).
  pose proof (around_register _ _ _ _ A7 O8) as A8.
  destruct (run_x_cx_x qs anc _ _ s8 qs_nonempty anc_outside
              (proj1 (proj2 A8)) B8) as (s9 & R9 & Ha9 & B9 & O9).
  pose proof (around_ancilla _ _ _ _ _ A8 O9 Ha9) as A9.
  (* stage 3 *)
  destruct (run_direct_QFT qs _ s9 qs_NoDup (HM _) B9) as (s10 & R10 & P10 & O10).
  pose proof (around_register _ _ _ _ A9 O10) as A10.
  destruct (run_c_phase_add control ctl qs m false Am _ s10 qs_NoDup
              control_outside (proj1 A10) Am_phases Am_length P10)
    as (s11 & R11 & P11 & O11).
  pose proof (around_register _ _ _ _ A10 O11) as A11.
  exists s11. split; [| split].
  - rewrite run_app, R1, run_app, R2, run_app, R3, run_app, R4, run_app, R5.
    rewrite run_app, R6, run_app, R7, run_app, R8, run_app, R9, run_app, R10.
    exact R11.
  - exact A11.
  - exact P11.
Qed.

End Stages.

Lemma log2_up_width K w :
  2 <= K -> w = Z.log2_up K + 1 -> 2 <= w /\ K <= 2 ^ (w - 1) /\ 2 * K <= 2 ^ w.
Proof.
  intros HK ->. pose proof (Z.log2_up_spec K ltac:(lia)) as [_ Hup].
  pose proof (Z.log2_up_pos K ltac:(lia)) as Hpos.
  replace (Z.log2_up K + 1 - 1) with (Z.log2_up K) by lia.
  rewrite Z.pow_add_r, Z.pow_1_r by lia. lia.
Qed.


(** A register holding the basis value [x], every other wire at 0 except the
    control. *)
Definition adder_input (qs : list Z) (control : Z) (x : Z) (active : bool)
  : state :=
  upd (basis_state qs x all_zero) control (Basis active).


Example modulo_adder_K5 :
  exists gates st',
    c_phase_add_mod_K [1; 2; 3; 4] 0 5 4 5 0 true = inr gates /\
    run gates (adder_input [1; 2; 3; 4] 0 3 true) = Some st' /\
    read_bits st' [1; 2; 3; 4] = Some (value_bits 4 2) /\
    st' 5 = Basis false.
Proof.
  eexists. eexists. split; [vm_compute; reflexivity |].
  split; [vm_compute; reflexivity |]. split; reflexivity.
Qed.

Example root_oracle_multiples_with_register :
  exists c,
    root_multiples_functions.oracle_multiples 3 2 0 None None false None
      = inr c /\
    classic_multiples c = Some 2.
Proof. eexists. split; [vm_compute; reflexivity | reflexivity]. Qed.

(** * Further properties of the builders *)

(** ** to_binary as an encoding *)

(** [int(s, 2)] for a string of binary digits, digit by digit from the left;
    a character other than '1' counts as 0. *)
Fixpoint binary_value_from (acc : Z) (s : string) : Z :=
  match s with
  | EmptyString => acc
  | String c s' =>
      binary_value_from (2 * acc + (if Ascii.eqb c "1" then 1 else 0)) s'
  end.

Definition binary_value (s : string) : Z := binary_value_from 0 s.

(** Every character is '0' or '1'. *)
Fixpoint binary_digits_only (s : string) : bool :=
  match s with
  | EmptyString => true
  | String c s' =>
      (Ascii.eqb c "0" || Ascii.eqb c "1") && binary_digits_only s'
  end.

Lemma string_cons_append c (s t : string) :
  (String c s ++ t)%string = String c (s ++ t)%string.
Proof. reflexivity. Qed.

Lemma binary_value_zeros n acc t :
  binary_value_from acc (zeros n ++ t) =
  binary_value_from (acc * 2 ^ Z.of_nat n) t.
Proof.
  revert acc. induction n as [|n IH]; intros acc.
  - simpl zeros. change (EmptyString ++ t)%string with t. f_equal. simpl. lia.
  - simpl zeros. rewrite string_cons_append. cbn [binary_value_from].
    rewrite IH. f_equal. rewrite Nat2Z.inj_succ, Z.pow_succ_r by lia.
    change (Ascii.eqb "0" "1") with false. lia.
Qed.

Lemma binary_value_digits p acc t :
  binary_value_from acc (bin_digits p EmptyString ++ t) =
  binary_value_from (acc * 2 ^ Z.of_nat (Pos.size_nat p) + Zpos p) t.
Proof.
  revert acc t. induction p as [p IH | p IH |]; intros acc t.
  - cbn [bin_digits]. rewrite bin_digits_acc, string_append_assoc, IH.
    rewrite string_cons_append. change (EmptyString ++ t)%string with t.
    cbn [binary_value_from]. f_equal. change (Ascii.eqb "1" "1") with true.
    cbn [Pos.size_nat]. rewrite Nat2Z.inj_succ, Z.pow_succ_r by lia. lia.
  - cbn [bin_digits]. rewrite bin_digits_acc, string_append_assoc, IH.
    rewrite string_cons_append. change (EmptyString ++ t)%string with t.
    cbn [binary_value_from]. f_equal. change (Ascii.eqb "0" "1") with false.
    cbn [Pos.size_nat]. rewrite Nat2Z.inj_succ, Z.pow_succ_r by lia. lia.
  - cbn [bin_digits]. rewrite string_cons_append.
    change (EmptyString ++ t)%string with t.
    cbn [binary_value_from]. f_equal. change (Ascii.eqb "1" "1") with true.
    change (Z.of_nat (Pos.size_nat 1)) with 1. lia.
Qed.

Lemma string_append_empty (s : string) : (s ++ EmptyString)%string = s.
Proof.
  induction s as [|c s IH]; [reflexivity |].
  rewrite string_cons_append. now rewrite IH.
Qed.

Lemma binary_digits_only_append s t :
  binary_digits_only (s ++ t) = binary_digits_only s && binary_digits_only t.
Proof.
  induction s as [|c s IH]; [reflexivity |].
  rewrite string_cons_append. cbn [binary_digits_only]. rewrite IH.
  now rewrite andb_assoc.
Qed.

Lemma binary_digits_only_zeros n : binary_digits_only (zeros n) = true.
Proof. induction n as [|n IH]; [reflexivity |]. simpl. exact IH. Qed.

Lemma binary_digits_only_bin_digits p :
  binary_digits_only (bin_digits p EmptyString) = true.
Proof.
  induction p as [p IH | p IH |]; cbn [bin_digits]; [| | reflexivity].
  - rewrite (bin_digits_acc p (String "1" EmptyString)).
    now rewrite binary_digits_only_append, IH.
  - rewrite (bin_digits_acc p (String "0" EmptyString)).
    now rewrite binary_digits_only_append, IH.
Qed.

(** The digits of [bin(m)[2:]] for [m >= 0]. *)
Lemma bin_value m :
  0 <= m ->
  binary_value (str_drop 2 (bin m)) = m /\
  binary_digits_only (str_drop 2 (bin m)) = true.
Proof.
  intros Hm. destruct m as [|p|p]; [split; reflexivity | | lia].
  simpl str_drop. split; [| apply binary_digits_only_bin_digits].
  unfold binary_value.
  rewrite <- (string_append_empty (bin_digits p EmptyString)).
  rewrite binary_value_digits. simpl. reflexivity.
Qed.

Lemma to_binary_padded m w :
  0 <= m < 2 ^ w -> 1 <= w ->
  to_binary m (Some w) =
  Some (zeros (Z.to_nat (w - bit_length m)) ++ str_drop 2 (bin m))%string.
Proof.
  intros [Hm Hlt] Hw. unfold to_binary. rewrite bin_length by assumption.
  pose proof (proj2 (bit_length_fits m w Hm Hw) Hlt) as Hlen.
  destruct (w <? bit_length m) eqn:E; [apply Z.ltb_lt in E; lia | reflexivity].
Qed.

(** X1. Round trip of [to_binary] with a width: for 0 <= m < 2^w and w >= 1
    the result is a string of exactly w binary digits whose value is m. *)
Theorem to_binary_round_trip (m w : Z) :
  0 <= m < 2 ^ w -> 1 <= w ->
  exists s,
    to_binary m (Some w) = Some s /\
    str_len s = w /\
    binary_digits_only s = true /\
    binary_value s = m.
Proof.
  intros Hm Hw.
  destruct (to_binary_fits m w Hm Hw) as (s & Hs & Hlen & _).
  exists s. split; [exact Hs |]. split; [exact Hlen |].
  pose proof (to_binary_padded m w Hm Hw) as Hpad.
  assert (Hs' : s = (zeros (Z.to_nat (w - bit_length m))
                     ++ str_drop 2 (bin m))%string) by congruence.
  rewrite Hs'.
  destruct (bin_value m (proj1 Hm)) as [Hval Hdig]. split.
  - now rewrite binary_digits_only_append, binary_digits_only_zeros, Hdig.
  - unfold binary_value. rewrite binary_value_zeros. simpl (0 * _).
    exact Hval.
Qed.

Lemma to_binary_round_trip_witness :
  exists s,
    to_binary 5 (Some 4) = Some s /\ str_len s = 4 /\
    binary_digits_only s = true /\ binary_value s = 5.
Proof. apply (to_binary_round_trip 5 4); lia. Defined.

(** X2. With a width w >= 1 and m >= 0, [to_binary] gives None (after
    printing its message) exactly when m does not fit in w bits. *)
Theorem to_binary_None_iff (m w : Z) :
  0 <= m -> 1 <= w -> (to_binary m (Some w) = None <-> 2 ^ w <= m).
Proof.
  intros Hm Hw. split.
  - intros Hnone. destruct (Z_lt_le_dec m (2 ^ w)) as [Hlt | Hge]; [| exact Hge].
    destruct (to_binary_fits m w (conj Hm Hlt) Hw) as (s & Hs & _).
    congruence.
  - now apply to_binary_too_wide.
Qed.

Lemma to_binary_None_iff_witness :
  (to_binary 8 (Some 3) = None <-> 2 ^ 3 <= 8) /\ to_binary 8 (Some 3) = None.
Proof.
  split.
  - apply (to_binary_None_iff 8 3); lia.
  - apply (to_binary_None_iff 8 3); lia.
Defined.

Lemma testbit_size_nat p :
  Z.testbit (Zpos p) (Z.of_nat (Pos.size_nat p) - 1) = true.
Proof.
  pose proof (size_nat_bounds p) as [Hlo Hhi].
  assert (Hs : 1 <= Z.of_nat (Pos.size_nat p)) by (destruct p; simpl; lia).
  rewrite testbit_top by lia. now apply Z.leb_le.
Qed.

(** X3. Round trip of [to_binary] without a width: for m > 0 the result is
    the shortest binary writing of m: it starts with '1', has only binary
    digits and its value is m. *)
Theorem to_binary_shortest (m : Z) :
  0 < m ->
  exists s,
    to_binary m None = Some s /\
    String.get 0 s = Some "1"%char /\
    binary_digits_only s = true /\
    binary_value s = m /\
    2 ^ (str_len s - 1) <= m < 2 ^ str_len s.
Proof.
  intros Hm. destruct m as [|p|p]; try lia.
  eexists. split; [reflexivity |].
  destruct (bin_value (Zpos p) ltac:(lia)) as [Hval Hdig].
  simpl str_drop in *. split; [| split; [exact Hdig | split; [exact Hval |]]].
  - rewrite bin_digits_get by (destruct p; simpl; lia).
    replace (Z.of_nat (Pos.size_nat p - 1 - 0))
      with (Z.of_nat (Pos.size_nat p) - 1)
      by (assert (0 < Pos.size_nat p)%nat by (destruct p; simpl; lia); lia).
    now rewrite testbit_size_nat.
  - unfold str_len. rewrite bin_digits_length. apply size_nat_bounds.
Qed.

Lemma to_binary_shortest_witness :
  exists s, to_binary 6 None = Some s /\ binary_value s = 6.
Proof.
  destruct (to_binary_shortest 6 ltac:(lia)) as (s & Hs & _ & _ & Hv & _).
  exists s. split; [exact Hs | exact Hv].
Defined.

(** ** More on the angles *)

Lemma draper_angle_range m i : 0 <= i -> (0 <= draper_angle m i < 2)%Q.
Proof.
  intros Hi. unfold draper_angle.
  assert (Hpos : 0 < 2 ^ i) by (apply Z.pow_pos_nonneg; lia).
  assert (Hmod : 0 <= m mod 2 ^ (i + 1) < 2 * 2 ^ i).
  { rewrite <- Z.pow_succ_r by lia. apply Z.mod_pos_bound.
    apply Z.pow_pos_nonneg; lia. }
  assert (HposQ : (0 < inject_Z (2 ^ i))%Q).
  { rewrite (Zlt_Qlt 0 (2 ^ i)) in Hpos. exact Hpos. }
  split.
  - apply Qle_shift_div_l; [exact HposQ |]. rewrite Qmult_0_l.
    rewrite (Zle_Qle 0 (m mod 2 ^ (i + 1))) in Hmod. apply Hmod.
  - apply Qlt_shift_div_r; [exact HposQ |].
    change 2%Q with (inject_Z 2). rewrite <- inject_Z_mult.
    rewrite <- Zlt_Qlt. lia.
Qed.

(** X5. On a register of at most 53 wires, where the sums of the source are
    exact in double precision, every coefficient of pi computed for an
    addend that fits lies in [0, 2): no rotation is negative, none is a full
    turn. *)
Theorem get_angles_phase_addition_range (m w : Z) :
  0 <= w <= 53 -> 0 <= m < 2 ^ w ->
  exists angles,
    get_angles_phase_addition m w = inr angles /\
    Forall (fun theta => (0 <= theta < 2)%Q) angles.
Proof.
  intros [Hw _] Hm.
  destruct (get_angles_entries m w Hw Hm) as (angles & Heq & Hlen & Hent).
  exists angles. split; [exact Heq |].
  apply Forall_lookup. intros j theta Hj.
  assert (Hlt : Z.of_nat j < w).
  { apply lookup_lt_Some in Hj. unfold len in Hlen. lia. }
  destruct (Hent (Z.of_nat j) ltac:(lia)) as (theta' & Hnth & Htheta).
  rewrite Nat2Z.id, nth_error_lookup, Hj in Hnth. inversion Hnth; subst.
  rewrite Htheta. apply draper_angle_range. lia.
Qed.

Lemma get_angles_phase_addition_range_witness :
  exists angles,
    get_angles_phase_addition 7 3 = inr angles /\
    Forall (fun theta => (0 <= theta < 2)%Q) angles.
Proof. apply (get_angles_phase_addition_range 7 3); lia. Defined.

(** ** A negative addend *)

(** Two strings of the same length with '1' at the same places. *)
Fixpoint same_ones (s1 s2 : string) : Prop :=
  match s1, s2 with
  | EmptyString, EmptyString => True
  | String c1 s1', String c2 s2' =>
      Ascii.eqb c1 "1" = Ascii.eqb c2 "1" /\ same_ones s1' s2'
  | _, _ => False
  end.

Lemma same_ones_refl s : same_ones s s.
Proof. induction s; simpl; auto. Qed.

Lemma same_ones_length s1 s2 :
  same_ones s1 s2 -> String.length s1 = String.length s2.
Proof.
  revert s2. induction s1 as [|c1 s1 IH]; intros [|c2 s2] H; simpl in *;
    try tauto. f_equal. apply IH. tauto.
Qed.

Lemma same_ones_get s1 s2 j :
  same_ones s1 s2 ->
  match String.get j s1, String.get j s2 with
  | Some c1, Some c2 => Ascii.eqb c1 "1" = Ascii.eqb c2 "1"
  | None, None => True
  | _, _ => False
  end.
Proof.
  revert s2 j. induction s1 as [|c1 s1 IH]; intros [|c2 s2] j H; simpl in *;
    try tauto.
  destruct j as [|j]; [tauto |]. apply IH. tauto.
Qed.

Lemma same_ones_zeros n s1 s2 :
  same_ones s1 s2 -> same_ones (zeros n ++ s1) (zeros n ++ s2).
Proof.
  intros H. induction n as [|n IH]; [exact H |].
  simpl zeros. rewrite !string_cons_append. simpl. auto.
Qed.

(** The angles depend on the string only through its length and the places
    of its '1' characters. *)
Lemma angle_terms_same_ones s1 s2 w i js :
  same_ones s1 s2 ->
  angle_terms (Some s1) w i js = angle_terms (Some s2) w i js.
Proof.
  intros H. induction js as [|j js IH]; [reflexivity |].
  cbn [angle_terms]. rewrite IH. unfold subscript, str_len.
  rewrite (same_ones_length s1 s2 H).
  set (j' := if j <? 0 then j + Z.of_nat (String.length s2) else j).
  destruct (j' <? 0); [reflexivity |].
  pose proof (same_ones_get s1 s2 (Z.to_nat j') H) as Hget.
  destruct (String.get (Z.to_nat j') s1) as [c1|],
           (String.get (Z.to_nat j') s2) as [c2|]; try tauto.
  cbn [rbind]. now rewrite Hget.
Qed.

Lemma angle_list_same_ones s1 s2 w indices :
  same_ones s1 s2 ->
  angle_list (Some s1) w indices = angle_list (Some s2) w indices.
Proof.
  intros H. induction indices as [|i indices IH]; [reflexivity |].
  cbn [angle_list]. now rewrite IH, (angle_terms_same_ones s1 s2 w i _ H).
Qed.

Lemma zeros_succ_append n (s : string) :
  (zeros (S n) ++ s)%string = (zeros n ++ String "0" s)%string.
Proof.
  induction n as [|n IH]; [reflexivity |].
  change (zeros (S (S n))) with (String "0" (zeros (S n))).
  rewrite string_cons_append, IH. reflexivity.
Qed.

(** X4. A negative addend is not read as a subtraction: when the width
    leaves room for the 'b' that [bin] keeps in front of the digits
    (m < 2^(w-1)), the angles for -m are the angles for m. *)
Theorem get_angles_phase_addition_negative (m w : Z) :
  0 < m < 2 ^ (w - 1) ->
  get_angles_phase_addition (- m) w = get_angles_phase_addition m w.
Proof.
  intros Hm.
  assert (Hw1 : 1 <= w - 1).
  { destruct (Z_lt_le_dec (w - 1) 1) as [Hsmall |]; [| assumption].
    destruct (Z_lt_le_dec (w - 1) 0) as [Hneg | Hzero].
    - rewrite Z.pow_neg_r in Hm by assumption. lia.
    - replace (w - 1) with 0 in Hm by lia. simpl in Hm. lia. }
  assert (Hw : bit_length m + 1 <= w).
  { pose proof (proj2 (bit_length_fits m (w - 1) ltac:(lia) Hw1)
                  ltac:(lia)). lia. }
  destruct Hm as [Hm _]. destruct m as [|p|p]; try lia.
  unfold get_angles_phase_addition, to_binary.
  change (- Z.pos p) with (Z.neg p). simpl bit_length in Hw.
  simpl str_drop.
  unfold str_len. cbn [String.length]. rewrite bin_digits_length.
  destruct (w <? Z.of_nat (S (Pos.size_nat p))) eqn:E1;
    [apply Z.ltb_lt in E1; lia |].
  destruct (w <? Z.of_nat (Pos.size_nat p)) eqn:E2;
    [apply Z.ltb_lt in E2; lia |].
  destruct (w <? 0); [reflexivity |].
  apply angle_list_same_ones.
  replace (Z.to_nat (w - Z.of_nat (Pos.size_nat p)))
    with (S (Z.to_nat (w - Z.of_nat (S (Pos.size_nat p))))) by lia.
  rewrite zeros_succ_append. apply same_ones_zeros.
  simpl. split; [reflexivity | apply same_ones_refl].
Qed.

Lemma get_angles_phase_addition_negative_witness :
  get_angles_phase_addition (- 3) 3 = get_angles_phase_addition 3 3 /\
  get_angles_phase_addition (- 3) 3 = inr [1; 3 # 2; 6 # 8]%Q.
Proof.
  split.
  - apply (get_angles_phase_addition_negative 3 3). simpl. lia.
  - reflexivity.
Defined.

(** ** What the adders append *)

Lemma negate_length (l : list Q) : length (negate l) = length l.
Proof. unfold negate. apply length_map. Qed.

(** The vector of angles has one entry per wire whenever it is returned. *)
Lemma angle_list_length num_binary nqubits indices angles :
  angle_list num_binary nqubits indices = inr angles ->
  length angles = length indices.
Proof.
  revert angles. induction indices as [|i indices IH]; intros angles H.
  - inversion H. reflexivity.
  - cbn [angle_list] in H.
    destruct (angle_terms num_binary nqubits i _) as [e | terms];
      [discriminate |].
    destruct (angle_list num_binary nqubits indices) as [e | rest];
      [discriminate |].
    inversion H. simpl. f_equal. now apply IH.
Qed.

Lemma get_angles_length num_sum (qs : list Z) angles :
  get_angles_phase_addition num_sum (len qs) = inr angles ->
  length angles = length qs.
Proof.
  unfold get_angles_phase_addition.
  destruct (len qs <? 0); [discriminate |]. intros H.
  apply angle_list_length in H. rewrite H, py_range_length.
  unfold len. lia.
Qed.

(** An adder that returns had its angles. *)
Lemma phase_add_inr qs num_sum inv c c' :
  phase_add qs num_sum inv c = (inr tt, c') ->
  exists angles,
    get_angles_phase_addition num_sum (len qs) = inr angles /\
    length angles = length qs /\
    c' = c ++ p_gates qs (if inv then negate angles else angles).
Proof.
  intros Hrun.
  destruct (get_angles_phase_addition num_sum (len qs)) as [e | angles] eqn:E.
  - unfold phase_add, bind, lift in Hrun. rewrite E in Hrun.
    destruct inv; discriminate.
  - pose proof (get_angles_length num_sum qs angles E) as Hlen.
    rewrite (phase_add_gates qs num_sum inv angles c E Hlen) in Hrun.
    inversion Hrun. now exists angles.
Qed.

Lemma c_phase_add_inr control qs num_sum inv c c' :
  c_phase_add control qs num_sum inv c = (inr tt, c') ->
  exists angles,
    get_angles_phase_addition num_sum (len qs) = inr angles /\
    length angles = length qs /\
    c' = c ++ cp_gates control qs (if inv then negate angles else angles).
Proof.
  intros Hrun.
  destruct (get_angles_phase_addition num_sum (len qs)) as [e | angles] eqn:E.
  - unfold c_phase_add, bind, lift in Hrun. rewrite E in Hrun.
    destruct inv; discriminate.
  - pose proof (get_angles_length num_sum qs angles E) as Hlen.
    rewrite (c_phase_add_gates control qs num_sum inv angles c E Hlen) in Hrun.
    inversion Hrun. now exists angles.
Qed.

(** X7. Whenever an adder returns it has appended exactly one rotation per
    wire of the register, in the order of the register: the rotation of wire
    [qs[i]] by the angle [angles[i]] that [get_angles_phase_addition]
    computes for the constant and the width of the register (negated with
    [inv]), a P gate for the plain adder and a CP gate with the given
    control for the controlled one; the gates that were there stay in
    place. *)
Theorem adders_append_one_rotation_per_wire (control : Z) (qs : list Z)
  (num_sum : Z) (inv : bool) (c c' : list (gate Z)) :
  (phase_add qs num_sum inv c = (inr tt, c') ->
   exists angles gates,
     get_angles_phase_addition num_sum (len qs) = inr angles /\
     c' = c ++ gates /\
     Forall2 (fun g '(theta, q) => g = G_p theta q) gates
       (zip (if inv then negate angles else angles) qs) /\
     length gates = length qs) /\
  (c_phase_add control qs num_sum inv c = (inr tt, c') ->
   exists angles gates,
     get_angles_phase_addition num_sum (len qs) = inr angles /\
     c' = c ++ gates /\
     Forall2 (fun g '(theta, q) => g = G_cp theta control q) gates
       (zip (if inv then negate angles else angles) qs) /\
     length gates = length qs).
Proof.
  assert (Hzip : forall (f : Q -> Z -> gate Z) (thetas : list Q),
             Forall2 (fun g '(theta, q) => g = f theta q)
                     (zip_with f thetas qs) (zip thetas qs)).
  { intros f thetas. revert qs.
    induction thetas as [|theta thetas IH]; intros [|q qs'];
      simpl; constructor; auto. }
  assert (Hlen : forall (f : Q -> Z -> gate Z) (thetas : list Q),
             length thetas = length qs ->
             length (zip_with f thetas qs) = length qs).
  { intros f thetas H. rewrite length_zip_with. lia. }
  split; intros Hrun.
  - apply phase_add_inr in Hrun. destruct Hrun as (angles & E & L & ->).
    exists angles, (p_gates qs (if inv then negate angles else angles)).
    repeat split; [exact E | apply Hzip |].
    apply Hlen. destruct inv; [now rewrite negate_length | exact L].
  - apply c_phase_add_inr in Hrun. destruct Hrun as (angles & E & L & ->).
    exists angles,
      (cp_gates control qs (if inv then negate angles else angles)).
    repeat split; [exact E | apply Hzip |].
    apply Hlen. destruct inv; [now rewrite negate_length | exact L].
Qed.

Lemma adders_append_one_rotation_per_wire_witness :
  exists angles gates,
    get_angles_phase_addition 1 (len [1; 2]) = inr angles /\
    [G_h 0; G_cp 1%Q 0 1; G_cp (1 # 2)%Q 0 2] = [G_h 0] ++ gates /\
    Forall2 (fun g '(theta, q) => g = G_cp theta 0 q) gates
      (zip angles [1; 2]) /\
    length gates = 2%nat.
Proof.
  apply (proj2 (adders_append_one_rotation_per_wire 0 [1; 2] 1 false [G_h 0]
                  [G_h 0; G_cp 1%Q 0 1; G_cp (1 # 2)%Q 0 2])).
  reflexivity.
Defined.

(** X8. On a register of at least one wire, an adder of a non-negative
    constant fails exactly when the constant does not fit in the register:
    it then raises TypeError and leaves the circuit as it was; otherwise it
    returns. *)
Theorem adders_fail_iff_too_wide (control : Z) (qs : list Z) (num_sum : Z)
  (inv : bool) (c : list (gate Z)) :
  0 <= num_sum -> 1 <= len qs ->
  (2 ^ len qs <= num_sum ->
   phase_add qs num_sum inv c = (inl TypeError, c) /\
   c_phase_add control qs num_sum inv c = (inl TypeError, c)) /\
  (num_sum < 2 ^ len qs ->
   fst (phase_add qs num_sum inv c) = inr tt /\
   fst (c_phase_add control qs num_sum inv c) = inr tt).
Proof.
  intros Hm Hw. split.
  - intros Hge. unfold phase_add, c_phase_add, bind, lift.
    rewrite get_angles_too_wide by assumption. now destruct inv.
  - intros Hlt.
    destruct (get_angles_entries num_sum (len qs) ltac:(lia) ltac:(lia))
      as (angles & Heq & Hlen & _).
    assert (Hlen' : length angles = length qs) by (unfold len in Hlen; lia).
    rewrite (phase_add_gates qs num_sum inv angles c Heq Hlen').
    rewrite (c_phase_add_gates control qs num_sum inv angles c Heq Hlen').
    split; reflexivity.
Qed.

Lemma adders_fail_iff_too_wide_witness :
  phase_add [1; 2] 4 false [G_h 0] = (inl TypeError, [G_h 0]) /\
  fst (c_phase_add 0 [1; 2] 3 false [G_h 0]) = inr tt.
Proof.
  split.
  - apply (adders_fail_iff_too_wide 0 [1; 2] 4 false [G_h 0]);
      unfold len; simpl; lia.
  - apply (adders_fail_iff_too_wide 0 [1; 2] 3 false [G_h 0]);
      unfold len; simpl; lia.
Defined.

(** ** Running the adders *)

Lemma map_eq_pointwise {A B} (f g : A -> B) (l : list A) x :
  map f l = map g l -> x ∈ l -> f x = g x.
Proof.
  intros Hmap Hx. apply list_elem_of_In in Hx.
  induction l as [|a l IH]; [destruct Hx |].
  simpl in Hmap. inversion Hmap. destruct Hx as [-> | Hx]; auto.
Qed.

(** X9. Adding a constant and then subtracting it (the same adder built with
    inv=True) brings every wire of a register in the Fourier basis back to
    its phase, and touches no other wire. *)
Theorem phase_add_then_inverse (qs : list Z) (num_sum : Z) (st : state)
  (phis : list Q) :
  0 <= num_sum < 2 ^ len qs -> NoDup qs ->
  map st qs = map Fourier phis ->
  exists gates st' phis',
    (phase_add qs num_sum false ;; phase_add qs num_sum true) []
      = (inr tt, gates) /\
    run gates st = Some st' /\
    map st' qs = map Fourier phis' /\
    Forall2 Qeq phis' phis /\
    same_outside qs st st'.
Proof.
  intros Hm Hnd Hmap.
  destruct (get_angles_entries num_sum (len qs) ltac:(unfold len; lia) Hm)
    as (angles & Heq & Hlen & _).
  assert (Hlen' : length angles = length qs) by (unfold len in Hlen; lia).
  assert (Hneg : length (negate angles) = length qs)
    by (unfold negate; now rewrite length_map).
  destruct (run_p_gates qs angles phis st Hnd Hlen' Hmap)
    as (s1 & R1 & M1 & O1).
  destruct (run_p_gates qs (negate angles) _ s1 Hnd Hneg M1)
    as (s2 & R2 & M2 & O2).
  exists (p_gates qs angles ++ p_gates qs (negate angles)), s2.
  eexists. split; [| split; [| split; [exact M2 | split]]].
  - unfold bind.
    rewrite (phase_add_gates qs num_sum false angles [] Heq Hlen').
    now rewrite (phase_add_gates qs num_sum true angles _ Heq Hlen').
  - now rewrite run_app, R1.
  - apply Forall2_same_length_lookup. split.
    + rewrite !length_zip_with. unfold negate. rewrite length_map.
      rewrite (map_Fourier_length st qs phis Hmap). lia.
    + intros i x y Hx Hy. apply lookup_zip_with_Some in Hx.
      destruct Hx as (u & t' & -> & Hu & Ht').
      apply lookup_zip_with_Some in Hu.
      destruct Hu as (phi & t & -> & Hphi & Ht).
      unfold negate in Ht'. rewrite lookup_map, Ht in Ht'.
      inversion Ht'; subst. assert (phi = y) by congruence. subst. ring.
  - eapply same_outside_trans; eassumption.
Qed.

Lemma phase_add_then_inverse_witness :
  exists gates st' phis',
    (phase_add [1; 2] 3 false ;; phase_add [1; 2] 3 true) []
      = (inr tt, gates) /\
    run gates (write [1; 2] [Fourier 0; Fourier (1 # 2)] all_zero)
      = Some st' /\
    map st' [1; 2] = map Fourier phis' /\
    Forall2 Qeq phis' [0; 1 # 2]%Q.
Proof.
  destruct (phase_add_then_inverse [1; 2] 3
              (write [1; 2] [Fourier 0; Fourier (1 # 2)] all_zero)
              [0; 1 # 2]%Q)
    as (gates & st' & phis' & H1 & H2 & H3 & H4 & _).
  - unfold len. simpl. lia.
  - apply (bool_decide_unpack _). vm_compute. exact I.
  - reflexivity.
  - exists gates, st', phis'. auto.
Defined.

(** X10. With its control at 0 the controlled adder changes nothing: run on
    a register in the Fourier basis, its gates leave every wire as it was. *)
Theorem c_phase_add_control_off (control : Z) (qs : list Z) (num_sum : Z)
  (inv : bool) (st : state) (phis : list Q) :
  0 <= num_sum < 2 ^ len qs -> NoDup qs -> control ∉ qs ->
  st control = Basis false -> map st qs = map Fourier phis ->
  exists gates st',
    c_phase_add control qs num_sum inv [] = (inr tt, gates) /\
    run gates st = Some st' /\
    forall q, st' q = st q.
Proof.
  intros Hm Hnd Hc Hctl Hmap.
  destruct (get_angles_entries num_sum (len qs) ltac:(unfold len; lia) Hm)
    as (angles & Heq & Hlen & _).
  assert (Hlen' : length angles = length qs) by (unfold len in Hlen; lia).
  set (thetas := if inv then negate angles else angles).
  assert (Hth : length thetas = length qs).
  { subst thetas. destruct inv; [unfold negate; now rewrite length_map | easy]. }
  destruct (run_cp_gates control false qs thetas phis st Hnd Hc Hctl Hth Hmap)
    as (st' & Hrun & Hmap' & Hout).
  exists (cp_gates control qs thetas), st'. split; [| split].
  - now rewrite (c_phase_add_gates control qs num_sum inv angles [] Heq Hlen').
  - exact Hrun.
  - intros q. destruct (decide (q ∈ qs)) as [Hin | Hnin].
    + apply (map_eq_pointwise st' st qs q); [congruence | exact Hin].
    + now apply Hout.
Qed.

Lemma c_phase_add_control_off_witness :
  exists gates st',
    c_phase_add 0 [1; 2] 3 false [] = (inr tt, gates) /\
    run gates (write [1; 2] [Fourier 0; Fourier (1 # 2)] all_zero)
      = Some st' /\
    st' 2 = Fourier (1 # 2).
Proof.
  destruct (c_phase_add_control_off 0 [1; 2] 3 false
              (write [1; 2] [Fourier 0; Fourier (1 # 2)] all_zero)
              [0; 1 # 2]%Q)
    as (gates & st' & H1 & H2 & H3).
  - unfold len. simpl. lia.
  - apply (bool_decide_unpack _). vm_compute. exact I.
  - apply (bool_decide_unpack _). vm_compute. exact I.
  - reflexivity.
  - reflexivity.
  - exists gates, st'. split; [exact H1 |]. split; [exact H2 |].
    now rewrite H3.
Defined.

(** ** The modulo adder as a list of gates, for any approximation degree *)

Definition on_wires (ws : list Z) (g : gate Z) : Prop :=
  forall q, q ∈ gate_qubits g -> q ∈ ws.

Lemma cp_gates_length c qs thetas :
  length thetas = length qs -> length (cp_gates c qs thetas) = length qs.
Proof. intros H. unfold cp_gates. rewrite length_zip_with. lia. Qed.

Lemma p_gates_length qs thetas :
  length thetas = length qs -> length (p_gates qs thetas) = length qs.
Proof. intros H. unfold p_gates. rewrite length_zip_with. lia. Qed.

Lemma cp_gates_on_wires ws c qs thetas :
  c ∈ ws -> (forall q, q ∈ qs -> q ∈ ws) ->
  Forall (on_wires ws) (cp_gates c qs thetas).
Proof.
  intros Hc Hqs. apply Forall_lookup_2. intros i g Hg.
  apply lookup_zip_with_Some in Hg. destruct Hg as (theta & q & -> & _ & Hq).
  intros q' Hq'. simpl in Hq'.
  apply elem_of_cons in Hq'. destruct Hq' as [-> | Hq']; [exact Hc |].
  apply list_elem_of_singleton in Hq'. subst q'.
  apply Hqs. eapply list_elem_of_lookup_2; eassumption.
Qed.

Lemma p_gates_on_wires ws qs thetas :
  (forall q, q ∈ qs -> q ∈ ws) -> Forall (on_wires ws) (p_gates qs thetas).
Proof.
  intros Hqs. apply Forall_lookup_2. intros i g Hg.
  apply lookup_zip_with_Some in Hg. destruct Hg as (theta & q & -> & _ & Hq).
  intros q' Hq'. simpl in Hq'.
  apply list_elem_of_singleton in Hq'. subst q'.
  apply Hqs. eapply list_elem_of_lookup_2; eassumption.
Qed.

Lemma c_phase_add_mod_K_gate_list (qs : list Z) (control anc m K approx : Z)
  (include_QFTs : bool) (Am AK : list Q) :
  qs <> [] ->
  get_angles_phase_addition m (len qs) = inr Am -> length Am = length qs ->
  get_angles_phase_addition K (len qs) = inr AK -> length AK = length qs ->
  c_phase_add_mod_K qs control anc m K approx include_QFTs =
  inr ((if include_QFTs then [G_QFT (len qs) approx false qs] else []) ++
       (cp_gates control qs Am ++ p_gates qs (negate AK) ++
        [G_QFT (len qs) approx true qs] ++ [G_cx (List.last qs 0) anc] ++
        [G_QFT (len qs) approx false qs] ++
        cp_gates anc qs AK ++ cp_gates control qs (negate Am) ++
        [G_QFT (len qs) approx true qs] ++
        [G_x (List.last qs 0); G_cx (List.last qs 0) anc;
         G_x (List.last qs 0)] ++
        [G_QFT (len qs) approx false qs] ++
        cp_gates control qs Am) ++
       (if include_QFTs then [G_QFT (len qs) approx true qs] else [])).
Proof.
  intros Hne Hm Hlm HK HlK.
  unfold c_phase_add_mod_K, c_phase_add_mod_K_body.
  rewrite (py_index_top qs Hne).
  unfold bind, lift, emit, ret.
  destruct include_QFTs;
    repeat first
      [ rewrite (c_phase_add_gates _ qs m _ Am _ Hm Hlm)
      | rewrite (c_phase_add_gates _ qs K _ AK _ HK HlK)
      | rewrite (phase_add_gates qs K _ AK _ HK HlK) ];
    repeat first [progress simpl | rewrite <- app_assoc | rewrite app_nil_r];
    reflexivity.
Qed.

(** A build of the modulo adder that returns had a register with a top wire
    and the angles of both constants. *)
Lemma c_phase_add_mod_K_inr (qs : list Z) (control anc m K approx : Z)
  (include_QFTs : bool) gates :
  c_phase_add_mod_K qs control anc m K approx include_QFTs = inr gates ->
  qs <> [] /\
  exists Am AK,
    get_angles_phase_addition m (len qs) = inr Am /\
    length Am = length qs /\
    get_angles_phase_addition K (len qs) = inr AK /\
    length AK = length qs.
Proof.
  unfold c_phase_add_mod_K, c_phase_add_mod_K_body.
  assert (Hgoal :
    forall l l0 z,
      c_phase_add control qs m false [] = (inr tt, l) ->
      phase_add qs K true [] = (inr tt, l0) ->
      py_index qs (len qs - 1) = inr z ->
      qs <> [] /\
      exists Am AK,
        get_angles_phase_addition m (len qs) = inr Am /\
        length Am = length qs /\
        get_angles_phase_addition K (len qs) = inr AK /\
        length AK = length qs).
  { intros l l0 z E E0 E1. split.
    - intros ->. vm_compute in E1. discriminate.
    - apply c_phase_add_inr in E. destruct E as (Am & EA & LA & _).
      apply phase_add_inr in E0. destruct E0 as (AK & EK & LK & _).
      exists Am, AK. auto. }
  destruct include_QFTs; repeat run_step; simpl; try discriminate; intros _;
    eapply Hgoal; reflexivity.
Qed.

(** C7. The flag include_QFTs controls only the outermost pair of
    transforms: the sequence built with include_QFTs=True is the sequence
    built with include_QFTs=False with the direct transform put in front and
    the inverse transform put behind; nothing else differs, and one build
    fails exactly when the other does, with the same exception.  A sequence
    built with include_QFTs=False is made of three stages of rotations of
    the register wires, one rotation per wire and adder: add num_sum and
    subtract K; add K under the ancilla and subtract num_sum; add num_sum.
    Between the first and the second stage stand the inverse transform, the
    copy of the top wire into the ancilla and the direct transform; between
    the second and the third the inverse transform, the copy of the negated
    top wire and the direct transform.  With the outermost pair every stage
    lies between a direct and an inverse transform of the register.  The
    build returns whenever both constants fit in a register of at least one
    wire and the control, the ancilla and the register are distinct wires
    of the circuit of [nqubits + 2] wires that the function creates. *)
Theorem include_QFTs_outermost_pair (target_register : list Z)
  (control ancilla_qubit num_sum K approx_QFT : Z) :
  let nqubits := len target_register in
  let directQFT := G_QFT nqubits approx_QFT false target_register in
  let inverseQFT := G_QFT nqubits approx_QFT true target_register in
  let build := c_phase_add_mod_K target_register control ancilla_qubit
                 num_sum K approx_QFT in
  build true =
    (try gates <- build false; inr ([directQFT] ++ gates ++ [inverseQFT])) /\
  (forall gates, build false = inr gates ->
   exists top angles_sum angles_K,
     py_index target_register (nqubits - 1) = inr top /\
     get_angles_phase_addition num_sum nqubits = inr angles_sum /\
     length angles_sum = length target_register /\
     get_angles_phase_addition K nqubits = inr angles_K /\
     length angles_K = length target_register /\
     let stage1 := cp_gates control target_register angles_sum ++
                   p_gates target_register (negate angles_K) in
     let stage2 := cp_gates ancilla_qubit target_register angles_K ++
                   cp_gates control target_register (negate angles_sum) in
     let stage3 := cp_gates control target_register angles_sum in
     gates =
       stage1 ++ [inverseQFT; G_cx top ancilla_qubit; directQFT] ++
       stage2 ++ [inverseQFT; G_x top; G_cx top ancilla_qubit; G_x top;
                  directQFT] ++
       stage3 /\
     stage1 <> [] /\ stage2 <> [] /\ stage3 <> []) /\
  (1 <= nqubits -> 0 <= num_sum < 2 ^ nqubits -> 0 <= K < 2 ^ nqubits ->
   NoDup (control :: ancilla_qubit :: target_register) ->
   Forall (fun q => 0 <= q < nqubits + 2)
          (control :: ancilla_qubit :: target_register) ->
   exists gates, build false = inr gates).
Proof.
  intros nqubits directQFT inverseQFT build.
  split; [apply include_QFTs_wraps |]. split.
  - intros gates Hbuild.
    destruct (c_phase_add_mod_K_inr _ _ _ _ _ _ _ _ Hbuild)
      as (Hne & Am & AK & Em & Lm & EK & LK).
    subst build. cbv beta in Hbuild.
    rewrite (c_phase_add_mod_K_gate_list target_register control
               ancilla_qubit num_sum K approx_QFT false Am AK Hne Em Lm EK LK)
      in Hbuild.
    inversion Hbuild as [Hgates]. clear Hbuild.
    exists (List.last target_register 0), Am, AK.
    split; [now apply py_index_top |].
    repeat (split; [assumption |]).
    assert (Hcp : forall c A, length A = length target_register ->
                              cp_gates c target_register A <> []).
    { intros c A LA Hnil. apply (f_equal (@length _)) in Hnil.
      rewrite cp_gates_length in Hnil by exact LA.
      destruct target_register; [congruence | discriminate]. }
    cbv zeta. split; [| split; [| split]].
    + subst directQFT inverseQFT nqubits. cbn [app].
      rewrite <- !app_assoc. cbn [app]. rewrite app_nil_r. reflexivity.
    + intros Hnil. apply app_eq_nil in Hnil. now apply (Hcp control Am Lm).
    + intros Hnil. apply app_eq_nil in Hnil.
      now apply (Hcp ancilla_qubit AK LK).
    + now apply Hcp.
  - intros Hw Hm HK _ _. fold nqubits in Hw.
    assert (Hne : target_register <> []).
    { intros ->. unfold nqubits, len in Hw. simpl in Hw. lia. }
    destruct (get_angles_entries num_sum nqubits ltac:(lia) ltac:(lia))
      as (Am & Em & Lm & _).
    destruct (get_angles_entries K nqubits ltac:(lia) ltac:(lia))
      as (AK & EK & LK & _).
    assert (Lm' : length Am = length target_register)
      by (unfold nqubits, len in Lm; lia).
    assert (LK' : length AK = length target_register)
      by (unfold nqubits, len in LK; lia).
    eexists.
    apply (c_phase_add_mod_K_gate_list target_register control ancilla_qubit
             num_sum K approx_QFT false Am AK Hne Em Lm' EK LK').
Qed.

Lemma include_QFTs_outermost_pair_witness :
  exists gates,
    c_phase_add_mod_K [2; 3] 0 1 1 3 0 false = inr gates /\
    c_phase_add_mod_K [2; 3] 0 1 1 3 0 true =
      inr ([G_QFT 2 0 false [2; 3]] ++ gates ++ [G_QFT 2 0 true [2; 3]]) /\
    length gates = 18%nat.
Proof.
  pose proof (include_QFTs_outermost_pair [2; 3] 0 1 1 3 0) as H.
  cbv zeta in H. destruct H as (Hwrap & Hstages & Hreturns).
  destruct Hreturns as [gates Hgates];
    [unfold len; simpl; lia | unfold len; simpl; lia
    | unfold len; simpl; lia
    | apply (bool_decide_unpack _); vm_compute; exact I
    | unfold len; simpl; repeat constructor; lia |].
  exists gates. split; [exact Hgates |]. split.
  - rewrite Hwrap, Hgates. reflexivity.
  - vm_compute in Hgates. inversion Hgates. reflexivity.
Defined.

(** X11. The outcome of the modulo adder on a register of at least one wire,
    for non-negative [num_sum] and [K] and any approximation degree, when the
    control, the ancilla and the register are distinct wires of the circuit
    of [len + 2] wires that the function creates: when both constants fit in
    the register it returns [5 * len + 8] gates (two more with the outer
    transforms), all of them on the control, the ancilla and the register;
    when one of them does not fit it raises TypeError. *)
Theorem c_phase_add_mod_K_outcome (qs : list Z)
  (control anc num_sum K approx : Z) (include_QFTs : bool) :
  1 <= len qs -> 0 <= num_sum -> 0 <= K ->
  NoDup (control :: anc :: qs) ->
  Forall (fun q => 0 <= q < len qs + 2) (control :: anc :: qs) ->
  (num_sum < 2 ^ len qs -> K < 2 ^ len qs ->
   exists gates,
     c_phase_add_mod_K qs control anc num_sum K approx include_QFTs
       = inr gates /\
     len gates = 5 * len qs + 8 + (if include_QFTs then 2 else 0) /\
     Forall (on_wires (control :: anc :: qs)) gates) /\
  (2 ^ len qs <= num_sum \/ 2 ^ len qs <= K ->
   c_phase_add_mod_K qs control anc num_sum K approx include_QFTs
     = inl TypeError).
Proof.
  intros Hw Hm HK _ _.
  assert (Hne : qs <> []) by (intros ->; unfold len in Hw; simpl in Hw; lia).
  split.
  - intros Hm' HK'.
    destruct (get_angles_entries num_sum (len qs) ltac:(lia) ltac:(lia))
      as (Am & Em & Lm & _).
    destruct (get_angles_entries K (len qs) ltac:(lia) ltac:(lia))
      as (AK & EK & LK & _).
    assert (Lm' : length Am = length qs) by (unfold len in Lm; lia).
    assert (LK' : length AK = length qs) by (unfold len in LK; lia).
    eexists. split; [| split].
    + apply (c_phase_add_mod_K_gate_list qs control anc num_sum K approx
               include_QFTs Am AK Hne Em Lm' EK LK').
    + unfold len.
      repeat first [rewrite length_app | rewrite length_cons].
      rewrite !cp_gates_length, p_gates_length
        by (rewrite ?negate_length; assumption).
      destruct include_QFTs; simpl; lia.
    + assert (Hc : control ∈ control :: anc :: qs) by (apply elem_of_cons; now left).
      assert (Ha : anc ∈ control :: anc :: qs)
        by (apply elem_of_cons; right; apply elem_of_cons; now left).
      assert (Hq : forall q, q ∈ qs -> q ∈ control :: anc :: qs)
        by (intros q Hq; apply elem_of_cons; right; apply elem_of_cons; now right).
      assert (Htop : List.last qs 0 ∈ control :: anc :: qs)
        by (apply Hq, last_elem_of, Hne).
      assert (HQ : forall n a i, on_wires (control :: anc :: qs)
                                   (G_QFT n a i qs))
        by (intros n a i q Hin; apply Hq, Hin).
      assert (Hx : on_wires (control :: anc :: qs) (G_x (List.last qs 0))).
      { intros q Hin. simpl in Hin. apply list_elem_of_singleton in Hin.
        now subst. }
      assert (Hcx : on_wires (control :: anc :: qs)
                      (G_cx (List.last qs 0) anc)).
      { intros q Hin. simpl in Hin. apply elem_of_cons in Hin.
        destruct Hin as [-> | Hin]; [exact Htop |].
        apply list_elem_of_singleton in Hin. now subst. }
      repeat first
        [ apply Forall_app; split
        | apply cp_gates_on_wires; assumption
        | apply p_gates_on_wires; assumption
        | apply Forall_cons; split; [solve [apply HQ | exact Hx | exact Hcx] |]
        | apply Forall_nil_2
        | destruct include_QFTs ].
  - intros Hwide.
    unfold c_phase_add_mod_K, c_phase_add_mod_K_body.
    destruct (Z_lt_le_dec num_sum (2 ^ len qs)) as [Hfit | Hbig].
    + assert (HKbig : 2 ^ len qs <= K) by (destruct Hwide; lia).
      destruct (get_angles_entries num_sum (len qs) ltac:(lia) ltac:(lia))
        as (Am & Em & Lm & _).
      assert (Lm' : length Am = length qs) by (unfold len in Lm; lia).
      pose proof (get_angles_too_wide K (len qs) HK Hw HKbig) as EK.
      unfold bind, emit, ret.
      destruct include_QFTs;
        rewrite (c_phase_add_gates _ qs num_sum _ Am _ Em Lm');
        unfold phase_add, bind, lift; rewrite EK; reflexivity.
    + pose proof (get_angles_too_wide num_sum (len qs) Hm Hw Hbig) as Em.
      unfold bind, emit, ret.
      destruct include_QFTs;
        unfold c_phase_add, bind, lift; rewrite Em; reflexivity.
Qed.

Lemma c_phase_add_mod_K_outcome_witness :
  (exists gates,
     c_phase_add_mod_K [2; 3; 4] 0 1 2 3 0 true = inr gates /\
     len gates = 5 * 3 + 8 + 2 /\
     Forall (on_wires [0; 1; 2; 3; 4]) gates) /\
  c_phase_add_mod_K [2; 3; 4] 0 1 2 8 0 true = inl TypeError.
Proof.
  assert (Hnd : NoDup [0; 1; 2; 3; 4])
    by (apply (bool_decide_unpack _); vm_compute; exact I).
  assert (Hin : Forall (fun q => 0 <= q < len [2; 3; 4] + 2) [0; 1; 2; 3; 4])
    by (unfold len; simpl; repeat constructor; lia).
  split.
  - apply (c_phase_add_mod_K_outcome [2; 3; 4] 0 1 2 3 0 true);
      try assumption; unfold len; simpl; lia.
  - apply (c_phase_add_mod_K_outcome [2; 3; 4] 0 1 2 8 0 true);
      try assumption; unfold len; simpl; lia.
Defined.

(** ** Adding a remainder and then its complement *)

(** The values of the register and the ancilla when the constant is [K]
    itself, as it is for the complement of the remainder 0. *)
Lemma adder_arithmetic_K (K w x : Z) (ctl : bool) :
  2 <= K -> 1 <= w -> K <= 2 ^ (w - 1) -> 0 <= x < K ->
  let M := 2 ^ w in
  let v1 := if ctl then x + K else x in
  let u1 := (v1 - K) mod M in
  let anc1 := xorb (Z.testbit u1 (w - 1)) false in
  let v3 := if anc1 then u1 + K else u1 in
  let v4 := if ctl then v3 - K else v3 in
  let u2 := v4 mod M in
  let anc2 := xorb (negb (Z.testbit u2 (w - 1))) anc1 in
  let v5 := if ctl then u2 + K else u2 in
  anc2 = false /\ (x - v5) mod M = 0.
Proof.
  intros HK Hw Hhalf Hx.
  assert (HM : 2 ^ w = 2 * 2 ^ (w - 1)).
  { rewrite <- Z.pow_succ_r by lia. f_equal. lia. }
  assert (Hrange : forall a, 0 <= a mod 2 ^ w < 2 ^ w)
    by (intros a; apply Z.mod_pos_bound; lia).
  cbv zeta. rewrite !testbit_top by (try apply Hrange; lia).
  destruct ctl.
  - replace (x + K - K) with x by lia.
    rewrite (Z.mod_small x) by lia.
    replace (2 ^ (w - 1) <=? x) with false
      by (symmetry; apply Z.leb_gt; lia).
    cbn [xorb negb].
    rewrite (mod_wrap (x - K)) by lia.
    replace (2 ^ (w - 1) <=? x - K + 2 ^ w) with true
      by (symmetry; apply Z.leb_le; lia).
    split; [reflexivity |].
    replace (x - (x - K + 2 ^ w + K)) with (-1 * 2 ^ w) by lia.
    apply Z.mod_mul. lia.
  - rewrite (mod_wrap (x - K)) by lia.
    replace (2 ^ (w - 1) <=? x - K + 2 ^ w) with true
      by (symmetry; apply Z.leb_le; lia).
    cbn [xorb negb].
    replace (x - K + 2 ^ w + K) with (x + 1 * 2 ^ w) by lia.
    rewrite Z_mod_plus_full, (Z.mod_small x) by lia.
    replace (2 ^ (w - 1) <=? x) with false
      by (symmetry; apply Z.leb_gt; lia).
    split; [reflexivity |]. now rewrite Z.sub_diag.
Qed.

(** The modulo adder without its outer transforms, on a register in the
    Fourier basis, for a constant up to and including [K]. *)
Lemma adder_in_phase (K num_sum x : Z) (qs : list Z) (control anc : Z)
  (active : bool) (st : state) :
  2 <= K -> 0 <= num_sum <= K -> 0 <= x < K ->
  len qs = Z.log2_up K + 1 ->
  NoDup (control :: anc :: qs) ->
  st control = Basis active -> st anc = Basis false ->
  holds_phases x qs st ->
  exists gates st',
    c_phase_add_mod_K qs control anc num_sum K 0 false = inr gates /\
    run gates st = Some st' /\
    holds_phases (if active then (x + num_sum) mod K else x) qs st' /\
    st' anc = Basis false /\
    st' control = Basis active /\
    forall q, q ∉ anc :: qs -> st' q = st q.
Proof.
  intros HK Hm Hx Hlen Hnd Hctl Hanc Hreg.
  remember (len qs) as w eqn:Ew.
  destruct (log2_up_width K w HK Hlen) as (Hw & Hhalf & Hfull).
  apply NoDup_cons in Hnd. destruct Hnd as [Hc Hnd].
  apply NoDup_cons in Hnd. destruct Hnd as [Ha Hnd].
  apply not_elem_of_cons in Hc. destruct Hc as [Hca Hc].
  assert (Hne : qs <> [])
    by (intros E; rewrite E in Ew; unfold len in Ew; simpl in Ew; lia).
  assert (Hmw : 0 <= num_sum < 2 ^ w) by lia.
  assert (HKw : 0 <= K < 2 ^ w) by lia.
  assert (Hw0 : 0 <= w) by lia.
  destruct (get_angles_closed num_sum w Hw0 Hmw) as (Am & HAm & _).
  destruct (get_angles_closed K w Hw0 HKw) as (AK & HAK & _).
  destruct (angles_phases_of num_sum w Am Hw0 Hmw HAm) as [HpAm HlAm].
  destruct (angles_phases_of K w AK Hw0 HKw HAK) as [HpAK HlAK].
  assert (HlAm' : length Am = length qs) by (unfold len in *; lia).
  assert (HlAK' : length AK = length qs) by (unfold len in *; lia).
  rewrite Ew in HAm, HAK.
  rewrite (c_phase_add_mod_K_gates qs control anc num_sum K false Am AK
             Hne HAm HlAm' HAK HlAK').
  assert (Harith :
    let M := 2 ^ w in
    let v1 := if active then x + num_sum else x in
    let u1 := (v1 - K) mod M in
    let anc1 := xorb (Z.testbit u1 (w - 1)) false in
    let v3 := if anc1 then u1 + K else u1 in
    let v4 := if active then v3 - num_sum else v3 in
    let u2 := v4 mod M in
    let anc2 := xorb (negb (Z.testbit u2 (w - 1))) anc1 in
    let v5 := if active then u2 + num_sum else u2 in
    anc2 = false /\
    ((if active then (x + num_sum) mod K else x) - v5) mod M = 0).
  { destruct (Z.eq_dec num_sum K) as [-> | Hlt].
    - destruct (adder_arithmetic_K K w x active HK ltac:(lia) Hhalf Hx)
        as [H1 H2].
      split; [exact H1 |]. destruct active; [| exact H2].
      replace ((x + K) mod K) with x; [exact H2 |].
      apply (Z.mod_unique_pos _ _ 1); lia.
    - apply (adder_arithmetic K w x num_sum active HK ltac:(lia) Hhalf Hx).
      lia. }
  destruct Harith as [Hanc2 Hv5].
  destruct (run_stages qs control anc Hnd Hne Hc Ha Hca st num_sum K Am AK
              HpAm HpAK HlAm' HlAK' x active st
              (conj Hctl (conj Hanc (fun q _ => eq_refl))) Hreg)
    as (s' & Hrun & Har & Hph).
  rewrite <- Ew in Har, Hph. rewrite Hanc2 in Har.
  destruct Har as (Hc' & Ha' & Hrest).
  eexists. exists s'. split; [reflexivity |]. split.
  { simpl. rewrite app_nil_r. exact Hrun. }
  split; [| split; [exact Ha' | split; [exact Hc' | exact Hrest]]].
  destruct Hph as (phis & Hmap & Hphis). exists phis. split; [exact Hmap |].
  eapply phases_of_shift; [| exact Hphis].
  assert (Hl : len phis = w).
  { rewrite Ew. unfold len. now rewrite (map_Fourier_length s' qs phis Hmap). }
  rewrite Hl. exact Hv5.
Qed.



(** ** The multi-controlled gate *)

Lemma py_range_snoc (n : nat) :
  py_range 0 (Z.of_nat (S n)) = py_range 0 (Z.of_nat n) ++ [Z.of_nat n].
Proof.
  unfold py_range.
  replace (Z.to_nat (Z.of_nat (S n) - 0)) with (S n) by lia.
  replace (Z.to_nat (Z.of_nat n - 0)) with n by lia.
  rewrite seq_S, map_app. reflexivity.
Qed.

Lemma enumerated_pairs_snoc start targets t :
  enumerated_pairs start (targets ++ [t]) =
  enumerated_pairs start targets ++
  map (fun control => Pairs control t) (py_range start t).
Proof.
  unfold enumerated_pairs. rewrite flat_map_app. simpl.
  now rewrite app_nil_r.
Qed.

(** Twice the number of pairs of a forward pass, and of a reverse pass. *)
Lemma enumerated_pairs_count (n : nat) :
  2 * len (enumerated_pairs 0 (py_range 0 (Z.of_nat n)))
    = Z.of_nat n * (Z.of_nat n - 1) /\
  2 * len (enumerated_pairs 1 (py_range 0 (Z.of_nat (S n))))
    = Z.of_nat n * (Z.of_nat n - 1).
Proof.
  induction n as [|n [IH0 IH1]].
  - split; reflexivity.
  - split.
    + rewrite py_range_snoc, enumerated_pairs_snoc. unfold len in *.
      rewrite length_app, length_map, py_range_length. lia.
    + rewrite py_range_snoc, enumerated_pairs_snoc. unfold len in *.
      rewrite length_app, length_map, py_range_length. lia.
Qed.

Lemma qubit_pairs_length n_qubits step :
  length (qubit_pairs n_qubits step) =
  length (enumerated_pairs (if step =? 1 then 0 else 1)
                           (py_range 0 n_qubits)).
Proof.
  rewrite qubit_pairs_sorted_enumeration. symmetry.
  apply Permutation_length, sort_with_perm.
Qed.

Lemma qubit_pairs_In n_qubits step c t :
  In (Pairs c t) (qubit_pairs n_qubits step) ->
  0 <= c < t /\ t < n_qubits.
Proof.
  rewrite qubit_pairs_sorted_enumeration. intros Hin.
  apply (Permutation_in _ (Permutation_sym (sort_with_perm _ _ _))) in Hin.
  apply enumerated_pairs_In in Hin. destruct Hin as [Ht Hc].
  apply py_range_In in Ht. destruct (step =? 1); lia.
Qed.

(** The gates of the two passes on [n] wires: [(n - 1) ^ 2] for [n >= 1]. *)
Lemma two_passes_count (n : Z) :
  1 <= n ->
  len (qubit_pairs n 1) + len (qubit_pairs n (-1)) = (n - 1) ^ 2.
Proof.
  intros Hn. unfold len. rewrite !qubit_pairs_length.
  change (1 =? 1) with true. change (-1 =? 1) with false. cbv iota.
  destruct (enumerated_pairs_count (Z.to_nat n)) as [H0 _].
  destruct (enumerated_pairs_count (Z.to_nat (n - 1))) as [_ H1].
  replace (Z.of_nat (S (Z.to_nat (n - 1)))) with n in H1 by lia.
  replace (Z.of_nat (Z.to_nat n)) with n in H0 by lia.
  replace (Z.of_nat (Z.to_nat (n - 1))) with (n - 1) in H1 by lia.
  unfold len in H0, H1. nia.
Qed.

(** Wire [i] of the inner circuit of [mc_gate] on the outer circuit. *)
Definition mc_wire (controls : list Z) (targ : Z) (i : Z) : Z :=
  nth (Z.to_nat i) (controls ++ [targ]) 0.

Definition mc_inner (agate : matrix) (n_qubits : Z) : list (gate Z) :=
  map (c1c2_gate agate n_qubits true 1) (qubit_pairs n_qubits 1) ++
  map (c1c2_gate agate n_qubits true (-1)) (qubit_pairs n_qubits (-1)) ++
  map (c1c2_gate agate (n_qubits - 1) false 1)
      (qubit_pairs (n_qubits - 1) 1) ++
  map (c1c2_gate agate (n_qubits - 1) false (-1))
      (qubit_pairs (n_qubits - 1) (-1)).

Lemma mc_gate_gates agate controls targ c :
  mc_gate agate controls targ c =
  (inr tt, c ++ map (gate_map (mc_wire controls targ))
                    (mc_inner agate (len controls + 1))).
Proof.
  unfold mc_gate, compose. rewrite for_each_emit. f_equal. f_equal. f_equal.
  unfold bind. rewrite !c1c2_emits. simpl.
  unfold mc_inner. now rewrite <- !app_assoc.
Qed.

Lemma mc_wire_control controls targ i :
  0 <= i < len controls -> mc_wire controls targ i ∈ controls.
Proof.
  intros Hi. unfold mc_wire. unfold len in Hi.
  rewrite app_nth1 by lia. apply list_elem_of_In, nth_In. lia.
Qed.

Lemma mc_wire_target controls targ :
  mc_wire controls targ (len controls) = targ.
Proof.
  unfold mc_wire, len. rewrite Nat2Z.id, app_nth2 by lia.
  now rewrite Nat.sub_diag.
Qed.

(** What [mc_gate] may append: a rotation between two controls, or a root of
    the given matrix from a control onto the target. *)
Definition mc_gate_kind (agate : matrix) (controls : list Z) (targ : Z)
  (g : gate Z) : Prop :=
  match g with
  | G_crx _ a b => a ∈ controls /\ b ∈ controls
  | G_cu u _ _ a b => u = agate /\ a ∈ controls /\ b = targ
  | _ => False
  end.

Lemma mc_pass_kind agate controls targ n_qubits (first : bool) step :
  (if first then n_qubits = len controls + 1 else n_qubits = len controls) ->
  Forall (mc_gate_kind agate controls targ)
         (map (gate_map (mc_wire controls targ))
              (map (c1c2_gate agate n_qubits first step)
                   (qubit_pairs n_qubits step))).
Proof.
  intros Hn. rewrite map_map. apply List.Forall_forall. intros g Hg.
  apply in_map_iff in Hg. destruct Hg as ([a b] & <- & Hin).
  apply qubit_pairs_In in Hin. unfold c1c2_gate. cbn [control target].
  destruct first; cbn [andb negb].
  - destruct (b =? n_qubits - 1) eqn:E; cbn [gate_map mc_gate_kind].
    + apply Z.eqb_eq in E. split; [reflexivity |]. split.
      * apply mc_wire_control. lia.
      * replace b with (len controls) by lia. apply mc_wire_target.
    + apply Z.eqb_neq in E. split; apply mc_wire_control; lia.
  - rewrite andb_false_r. cbn [gate_map mc_gate_kind].
    split; apply mc_wire_control; lia.
Qed.

Lemma mc_inner_length (agate : matrix) (controls : list Z) (targ : Z) :
  controls <> [] ->
  len (map (gate_map (mc_wire controls targ))
           (mc_inner agate (len controls + 1)))
    = len controls ^ 2 + (len controls - 1) ^ 2.
Proof.
  intros Hne.
  assert (Hc : 1 <= len controls)
    by (destruct controls; [congruence | unfold len; simpl; lia]).
  pose proof (two_passes_count (len controls + 1) ltac:(lia)) as H1.
  pose proof (two_passes_count (len controls) Hc) as H2.
  unfold mc_inner.
  replace (len controls + 1 - 1) with (len controls) in * by lia.
  unfold len in *. rewrite length_map, !length_app, !length_map. lia.
Qed.

Lemma mc_inner_kind (agate : matrix) (controls : list Z) (targ : Z) :
  Forall (mc_gate_kind agate controls targ)
         (map (gate_map (mc_wire controls targ))
              (mc_inner agate (len controls + 1))).
Proof.
  unfold mc_inner. rewrite !map_app.
  replace (len controls + 1 - 1) with (len controls) by lia.
  repeat (apply Forall_app; split); now apply mc_pass_kind.
Qed.

(** X13. On distinct wires [mc_gate] only appends.  With no control it
    appends nothing; with [c >= 1] controls it appends [c^2 + (c - 1)^2]
    gates, each of them either a controlled rotation between two of the
    controls or a controlled root of the given matrix from a control onto
    the target. *)
Theorem mc_gate_shape (agate : matrix) (controls : list Z) (targ : Z)
  (c : list (gate Z)) :
  NoDup (controls ++ [targ]) ->
  exists gates,
    mc_gate agate controls targ c = (inr tt, c ++ gates) /\
    (controls = [] -> gates = []) /\
    (controls <> [] ->
     len gates = len controls ^ 2 + (len controls - 1) ^ 2) /\
    Forall (mc_gate_kind agate controls targ) gates.
Proof.
  intros _.
  exists (map (gate_map (mc_wire controls targ))
              (mc_inner agate (len controls + 1))).
  split; [apply mc_gate_gates |]. split; [| split].
  - intros ->. reflexivity.
  - apply mc_inner_length.
  - apply mc_inner_kind.
Qed.

Lemma mc_gate_shape_witness :
  exists gates,
    mc_gate [[1; 0]; [0; -1]] [4; 5] 7 [G_h 4] = (inr tt, [G_h 4] ++ gates) /\
    len gates = 5.
Proof.
  destruct (mc_gate_shape [[1; 0]; [0; -1]] [4; 5] 7 [G_h 4])
    as (gates & Hrun & _ & Hlen & _).
  - apply (bool_decide_unpack _). vm_compute. exact I.
  - exists gates. split; [exact Hrun |]. now apply Hlen.
Defined.




(** ** The oracle as a whole *)

(** The seed of [get_remainders_power_2] for [number = 2]: every later
    element is 2, the remainder 0 written as the modulus. *)
Lemma remainders_loop_2 power ps n :
  remainders_loop 2 power ps (1 :: repeat 2 (S n)) =
  1 :: repeat 2 (S n + length ps).
Proof.
  revert n. induction ps as [|p0 ps IH]; intros n.
  - simpl. now rewrite Nat.add_0_r.
  - cbn [remainders_loop].
    assert (Hlast : list_last (1 :: repeat 2 (S n)) = 2).
    { unfold list_last.
      change (1 :: repeat 2 (S n)) with ([1] ++ 2 :: repeat 2 n).
      rewrite (repeat_cons n 2), app_assoc. apply last_last. }
    rewrite Hlast.
    change (if 2 <=? 2 * 2 then 2 * 2 - 2 else 2 * 2) with 2.
    change (2 =? 1) with false. cbv iota.
    change ((1 :: repeat 2 (S n)) ++ [2])
      with (1 :: (repeat 2 (S n) ++ [2])).
    rewrite <- (repeat_cons (S n) 2).
    change (2 :: repeat 2 (S n)) with (repeat 2 (S (S n))).
    rewrite IH. cbn [length]. do 2 f_equal. lia.
Qed.

(** The remainders are as many as the powers and none exceeds the modulus. *)
Lemma get_remainders_power_2_bounds (K p : Z) :
  2 <= K -> 1 <= p ->
  length (get_remainders_power_2 K p) = Z.to_nat (p + 1) /\
  Forall (fun r => 0 <= r <= K) (get_remainders_power_2 K p).
Proof.
  intros HK Hp. destruct (Z.eq_dec K 2) as [-> | Hne].
  - unfold get_remainders_power_2.
    change [1; 2] with (1 :: repeat 2 1).
    rewrite (remainders_loop_2 p (py_range 2 (p + 1)) 0).
    rewrite py_range_length. split.
    + cbn [length]. rewrite repeat_length. lia.
    + constructor; [lia |]. apply List.Forall_forall.
      intros r Hr. apply repeat_spec in Hr. lia.
  - rewrite (get_remainders_power_2_pows K ltac:(lia) p Hp). split.
    + apply pows_length.
    + apply List.Forall_forall. intros r Hr. unfold pows in Hr.
      apply in_map_iff in Hr. destruct Hr as (i & <- & _).
      pose proof (pow2_mod_range K ltac:(lia) i). lia.
Qed.

(** A builder step that returns on every state and appends [n] operations. *)
Definition grows (n : nat) {A} (m : M builder A) : Prop :=
  forall s, exists a s',
    m s = (inr a, s') /\ length (ops s') = (length (ops s) + n)%nat.

(** A builder step that raises [e] on every state. *)
Definition fails (e : error) {A} (m : M builder A) : Prop :=
  forall s, exists s', m s = (inl e, s').

Lemma grows_ret {A} (a : A) : grows 0 (ret a).
Proof. intros s. exists a, s. split; [reflexivity | lia]. Qed.

Lemma grows_lift {A} (r : result A) a : r = inr a -> grows 0 (lift r).
Proof. intros -> s. exists a, s. split; [reflexivity | lia]. Qed.

Lemma grows_append_op o : grows 1 (append_op o).
Proof.
  intros s. eexists. eexists. split; [reflexivity |].
  simpl. now rewrite length_app.
Qed.

Lemma grows_bind {A B} n k (m : M builder A) (f : A -> M builder B) :
  grows n m -> (forall a, grows k (f a)) -> grows (n + k) (bind m f).
Proof.
  intros Hm Hf s. destruct (Hm s) as (a & s1 & E1 & L1).
  destruct (Hf a s1) as (b & s2 & E2 & L2).
  exists b, s2. unfold bind. rewrite E1. split; [exact E2 | lia].
Qed.

Lemma grows_for_each {A} (P : A -> Prop) (l : list A)
  (body : A -> M builder unit) :
  (forall a, P a -> grows 1 (body a)) -> Forall P l ->
  grows (length l) (for_each l body).
Proof.
  intros Hbody. induction 1 as [|a l Ha Hl IH]; cbn [for_each length].
  - apply grows_ret.
  - apply (grows_bind 1 (length l)); [now apply Hbody | intros _; exact IH].
Qed.

Lemma grows_each_qubit g qubits : grows (length qubits) (each_qubit g qubits).
Proof.
  unfold each_qubit. apply (grows_for_each (fun _ => True)).
  - intros q _. apply grows_append_op.
  - apply List.Forall_forall. auto.
Qed.

Lemma fails_bind_l {A B} e (m : M builder A) (f : A -> M builder B) :
  fails e m -> fails e (bind m f).
Proof.
  intros Hm s. destruct (Hm s) as (s' & E). exists s'.
  unfold bind. now rewrite E.
Qed.

Lemma fails_bind_r {A B} e n (m : M builder A) (f : A -> M builder B) :
  grows n m -> (forall a, fails e (f a)) -> fails e (bind m f).
Proof.
  intros Hm Hf s. destruct (Hm s) as (a & s1 & E1 & _).
  destruct (Hf a s1) as (s2 & E2). exists s2. unfold bind. now rewrite E1.
Qed.

Lemma py_index_in_range {A} (l : list A) (i : Z) :
  0 <= i < len l -> exists a, py_index l i = inr a.
Proof.
  intros Hi. unfold len in Hi.
  destruct (l !! Z.to_nat i) as [a|] eqn:E.
  - exists a. apply py_index_lookup; [lia | exact E].
  - apply lookup_ge_None in E. lia.
Qed.

Lemma py_index_out_of_range {A} (l : list A) (i : Z) :
  len l <= i -> py_index l i = inl IndexError.
Proof.
  intros Hi. unfold py_index. unfold len in *.
  destruct (i <? 0) eqn:E; [apply Z.ltb_lt in E; lia |]. rewrite E.
  destruct (nth_error l (Z.to_nat i)) eqn:En; [| reflexivity].
  assert (Hlt : (Z.to_nat i < length l)%nat)
    by (apply nth_error_Some; congruence).
  lia.
Qed.

Lemma register_bits_len r size : 0 <= size -> len (register_bits r size) = size.
Proof.
  intros H. unfold len, register_bits. rewrite length_map, py_range_length. lia.
Qed.

(** The adder the oracle asks for is built whenever the addend is between 0
    and [k]. *)
Lemma oracle_adder_returns (k num_sum approx_QFT : Z) :
  2 <= k -> 0 <= num_sum <= k ->
  let n_rem := Z.log2_up k + 1 in
  exists c,
    c_phase_add_mod_K (py_range 1 (n_rem + 1)) 0
      (len (py_range 1 (n_rem + 1)) + 1) num_sum k approx_QFT false = inr c.
Proof.
  intros Hk Hm n_rem.
  destruct (log2_up_width k n_rem Hk eq_refl) as (Hw & _ & Hfull).
  set (qs := py_range 1 (n_rem + 1)).
  assert (Hlen : len qs = n_rem)
    by (unfold len, qs; rewrite py_range_length; lia).
  assert (Hne : qs <> []).
  { intros E. rewrite E in Hlen. unfold len in Hlen. simpl in Hlen. lia. }
  destruct (get_angles_entries num_sum (len qs) ltac:(lia)
              ltac:(rewrite Hlen; lia)) as (Am & Em & Lm & _).
  destruct (get_angles_entries k (len qs) ltac:(lia)
              ltac:(rewrite Hlen; lia)) as (AK & EK & LK & _).
  eexists.
  apply (c_phase_add_mod_K_gate_list qs 0 (len qs + 1) num_sum k approx_QFT
           false Am AK Hne Em ltac:(unfold len in Lm; lia) EK
           ltac:(unfold len in LK; lia)).
Qed.

Lemma grows_cached_adder (k num_sum approx_QFT : Z) :
  2 <= k -> 0 <= num_sum <= k ->
  grows 0 (cached_adder num_sum k approx_QFT
             (py_range 1 (Z.log2_up k + 1 + 1))).
Proof.
  intros Hk Hm s. unfold cached_adder.
  destruct (circuits_sums s !! num_sum) as [inst|].
  - exists inst, s. split; [reflexivity | lia].
  - destruct (oracle_adder_returns k num_sum approx_QFT Hk Hm) as (c & ->).
    eexists. eexists. split; [reflexivity | simpl; lia].
Qed.

Lemma grows_append_adder (k nqubits_input approx_QFT i num_sum : Z) :
  2 <= k -> 0 <= num_sum <= k -> 0 <= i < nqubits_input ->
  grows 1 (append_adder k nqubits_input (Z.log2_up k + 1) approx_QFT
             i num_sum).
Proof.
  intros Hk Hm Hi. unfold append_adder.
  apply (grows_bind 0 1); [now apply grows_cached_adder |]. intros inst.
  destruct (py_index_in_range (register_bits input_register nqubits_input) i)
    as (q & Hq); [rewrite register_bits_len; lia |].
  apply (grows_bind 0 1); [now apply (grows_lift _ q) |]. intros q'.
  apply grows_append_op.
Qed.

Lemma enumerate_In_range {A} (l : list A) i a :
  In (i, a) (enumerate l) -> 0 <= i < len l /\ In a l.
Proof.
  unfold enumerate. intros Hin. split.
  - apply in_combine_l, py_range_In in Hin. lia.
  - now apply in_combine_r in Hin.
Qed.

Lemma enumerate_length {A} (l : list A) : length (enumerate l) = length l.
Proof.
  unfold enumerate. rewrite length_combine, py_range_length.
  unfold len. lia.
Qed.

Section Folding.

Variables (k nqubits_input approx_QFT : Z).
Hypothesis k_ge_2 : 2 <= k.
Hypothesis input_ge_2 : 2 <= nqubits_input.

Lemma remainders_enumerated :
  Forall (fun ir : Z * Z => 0 <= fst ir < nqubits_input /\ 0 <= snd ir <= k)
         (enumerate (get_remainders_power_2 k (nqubits_input - 1))).
Proof.
  destruct (get_remainders_power_2_bounds k (nqubits_input - 1) k_ge_2
              ltac:(lia)) as [Hlen Hall].
  apply List.Forall_forall. intros [i r] Hin.
  apply enumerate_In_range in Hin. destruct Hin as [Hi Hr]. cbn [fst snd].
  split; [unfold len in Hi; lia |].
  rewrite List.Forall_forall in Hall. now apply Hall.
Qed.

Lemma remainders_count :
  length (enumerate (get_remainders_power_2 k (nqubits_input - 1))) =
  Z.to_nat nqubits_input.
Proof.
  rewrite enumerate_length.
  destruct (get_remainders_power_2_bounds k (nqubits_input - 1) k_ge_2
              ltac:(lia)) as [Hlen _].
  rewrite Hlen. f_equal. lia.
Qed.

Lemma grows_fold_in :
  grows (Z.to_nat nqubits_input)
        (fold_in k nqubits_input (Z.log2_up k + 1) approx_QFT
           (get_remainders_power_2 k (nqubits_input - 1))).
Proof.
  rewrite <- remainders_count. unfold fold_in.
  eapply grows_for_each; [| apply remainders_enumerated].
  intros [i r] [Hi Hr]. cbn [fst snd] in *.
  now apply grows_append_adder.
Qed.

Lemma grows_fold_out :
  grows (Z.to_nat nqubits_input)
        (fold_out k nqubits_input (Z.log2_up k + 1) approx_QFT
           (get_remainders_power_2 k (nqubits_input - 1))).
Proof.
  rewrite <- remainders_count. unfold fold_out.
  eapply grows_for_each; [| apply remainders_enumerated].
  intros [i r] [Hi Hr]. cbn [fst snd] in *.
  apply grows_append_adder; [assumption | lia | assumption].
Qed.

End Folding.

Lemma call_multi_control_z_returns nqubits :
  1 <= nqubits -> call_multi_control_z nqubits = inr (multi_control_z nqubits).
Proof.
  intros Hn. unfold call_multi_control_z.
  destruct (nqubits <=? 0) eqn:E; [apply Z.leb_le in E; lia | reflexivity].
Qed.

Lemma bind_lift_inr {S A B} (a : A) (f : A -> M S B) :
  bind (lift (inr a)) f = f a.
Proof. reflexivity. Qed.

Lemma grows_default_mark nqubits_input n_rem qubits_oracle qubits_control
  state_control :
  2 <= n_rem ->
  grows (Z.to_nat (n_rem - 1) + (1 + Z.to_nat (n_rem - 1)))
        (mark nqubits_input n_rem None qubits_oracle qubits_control
           state_control).
Proof.
  intros Hn. unfold mark.
  rewrite (call_multi_control_z_returns (n_rem - 1)) by lia.
  rewrite bind_lift_inr.
  assert (Hl : length (register_bits remainders (n_rem - 1)) =
               Z.to_nat (n_rem - 1)).
  { unfold register_bits. rewrite length_map, py_range_length. f_equal. lia. }
  rewrite <- Hl.
  apply grows_bind; [apply grows_each_qubit |]. intros _.
  apply grows_bind; [apply grows_append_op |]. intros _.
  apply grows_each_qubit.
Qed.

(** X15. Without an oracle of the caller, for [2 <= k <= 2^32] and at least
    two input wires, [oracle_multiples] returns a circuit, whatever the other
    arguments; the circuit holds [2 * nqubits_input + 3 * len(remainders) + 2]
    operations, and [nqubits_input] more with [init_H]. *)
Theorem oracle_multiples_returns (k nqubits_input approx_QFT : Z)
  (qubits_oracle qubits_control : option (list qubit))
  (state_control : option (list Z)) (init_H : bool)
  (classic_register : option bool) :
  2 <= k <= 2 ^ 32 -> 2 <= nqubits_input ->
  exists c,
    oracle_multiples k nqubits_input approx_QFT None qubits_oracle
      qubits_control state_control init_H classic_register = inr c /\
    len (data c) =
      (if init_H then nqubits_input else 0) +
      2 * nqubits_input + 3 * (Z.log2_up k + 1) + 2.
Proof.
  intros Hk32 Hn.
  rewrite (oracle_multiples_opened k nqubits_input approx_QFT None
             qubits_oracle qubits_control state_control init_H
             classic_register (modulus_of_64_bits k Hk32) ltac:(lia)).
  assert (Hk : 2 <= k) by lia.
  pose proof (Z.log2_up_pos k ltac:(lia)) as Hlog.
  unfold oracle_multiples_run.
  assert (Hbody : grows
    ((if init_H then Z.to_nat nqubits_input else 0) +
     (Z.to_nat (Z.log2_up k + 1) +
      (Z.to_nat nqubits_input +
       (1 + ((Z.to_nat (Z.log2_up k + 1 - 1) +
              (1 + Z.to_nat (Z.log2_up k + 1 - 1))) +
             (1 + (Z.to_nat nqubits_input + 1)))))))
    (oracle_multiples_body k nqubits_input approx_QFT None qubits_oracle
       qubits_control state_control init_H)).
  { unfold oracle_multiples_body.
    apply grows_bind.
    { destruct init_H; [| apply grows_ret].
      replace (Z.to_nat nqubits_input)
        with (length (register_bits input_register nqubits_input))
        by (unfold register_bits; rewrite length_map, py_range_length;
            f_equal; lia).
      apply grows_each_qubit. }
    intros _. apply grows_bind.
    { replace (Z.to_nat (Z.log2_up k + 1))
        with (length (register_bits remainders (Z.log2_up k + 1)))
        by (unfold register_bits; rewrite length_map, py_range_length;
            f_equal; lia).
      apply grows_each_qubit. }
    intros _. apply grows_bind; [now apply grows_fold_in |].
    intros _. apply grows_bind; [apply grows_append_op |].
    intros _. apply grows_bind; [apply grows_default_mark; lia |].
    intros _. apply grows_bind; [apply grows_append_op |].
    intros _. apply grows_bind; [now apply grows_fold_out |].
    intros _. apply grows_append_op. }
  destruct (Hbody (Builder [] ∅ [])) as ([] & s' & E & L).
  rewrite E. eexists. split; [reflexivity |].
  cbn [data]. unfold len. rewrite L. cbn [ops length].
  destruct init_H; lia.
Qed.

Lemma oracle_multiples_returns_witness :
  exists c,
    oracle_multiples 5 4 0 None None None None false None = inr c /\
    len (data c) = 0 + 2 * 4 + 3 * (Z.log2_up 5 + 1) + 2.
Proof.
  apply (oracle_multiples_returns 5 4 0 None None None false None);
    [split; [lia | discriminate] | lia].
Defined.

Lemma fails_lift {A} (r : result A) e : r = inl e -> fails e (@lift builder A r).
Proof. intros -> s. exists s. reflexivity. Qed.

Lemma fails_raise {A} e : fails e (@raise builder A e).
Proof. intros s. exists s. reflexivity. Qed.

(** X16. On a single input wire, for [2 <= k <= 2^32], [oracle_multiples]
    raises IndexError whatever the other arguments: the list of remainders
    has its two seed elements, and the second iteration of the first loop
    reads [input_register[1]]. *)
Theorem oracle_multiples_single_input_wire (k approx_QFT : Z)
  (oracle : option (circuit Z))
  (qubits_oracle qubits_control : option (list qubit))
  (state_control : option (list Z)) (init_H : bool)
  (classic_register : option bool) :
  2 <= k <= 2 ^ 32 ->
  oracle_multiples k 1 approx_QFT oracle qubits_oracle qubits_control
    state_control init_H classic_register = inl IndexError.
Proof.
  intros Hk32.
  rewrite (oracle_multiples_opened k 1 approx_QFT oracle
             qubits_oracle qubits_control state_control init_H
             classic_register (modulus_of_64_bits k Hk32) ltac:(lia)).
  assert (Hk : 2 <= k) by lia.
  unfold oracle_multiples_run.
  assert (Hbody : fails IndexError
    (oracle_multiples_body k 1 approx_QFT oracle qubits_oracle
       qubits_control state_control init_H)).
  { unfold oracle_multiples_body.
    apply (fails_bind_r _
             (if init_H then length (register_bits input_register 1) else 0)).
    { destruct init_H; [apply grows_each_qubit | apply grows_ret]. }
    intros _. eapply fails_bind_r; [apply grows_each_qubit |].
    intros _. apply fails_bind_l.
    change (get_remainders_power_2 k (1 - 1)) with [1; 2].
    unfold fold_in. change (enumerate [1; 2]) with [(0, 1); (1, 2)].
    cbn [for_each fst snd].
    eapply fails_bind_r; [apply grows_append_adder; lia |].
    intros _. apply fails_bind_l. unfold append_adder.
    eapply fails_bind_r; [apply grows_cached_adder; lia |].
    intros inst. apply fails_bind_l. apply fails_lift.
    apply py_index_out_of_range. reflexivity. }
  destruct (Hbody (Builder [] ∅ [])) as (s' & E). now rewrite E.
Qed.

Lemma oracle_multiples_single_input_wire_witness :
  oracle_multiples 3 1 0 None None None None true None = inl IndexError.
Proof.
  apply (oracle_multiples_single_input_wire 3 0 None None None None true None).
  split; [lia | discriminate].
Defined.

(** A builder step that returns on no state. *)
Definition never_returns {A} (m : M builder A) : Prop :=
  forall s, exists e s', m s = (inl e, s').

Lemma never_returns_fails {A} e (m : M builder A) :
  fails e m -> never_returns m.
Proof. intros H s. destruct (H s) as (s' & E). now exists e, s'. Qed.

Lemma never_returns_bind_l {A B} (m : M builder A) (f : A -> M builder B) :
  never_returns m -> never_returns (bind m f).
Proof.
  intros Hm s. destruct (Hm s) as (e & s' & E). exists e, s'.
  unfold bind. now rewrite E.
Qed.

Lemma never_returns_bind_r {A B} (m : M builder A) (f : A -> M builder B) :
  (forall a, never_returns (f a)) -> never_returns (bind m f).
Proof.
  intros Hf s. unfold bind. destruct (m s) as [[e | a] s1].
  - now exists e, s1.
  - apply Hf.
Qed.

(** X17. A controlled oracle needs its own wires: when the caller gives an
    oracle with at least one gate and at least one control wire but leaves
    [qubits_oracle] empty, [oracle_multiples] never returns a circuit; the
    register that stands in for the missing list cannot be added to the list
    of controls. *)
Theorem controlled_oracle_needs_qubits_oracle (k nqubits_input approx_QFT : Z)
  (g : gate Z) (gs : list (gate Z)) (qubits_oracle : option (list qubit))
  (c : qubit) (cs : list qubit) (state_control : option (list Z))
  (init_H : bool) (classic_register : option bool) :
  qubits_oracle = None \/ qubits_oracle = Some [] ->
  exists e,
    oracle_multiples k nqubits_input approx_QFT (Some (g :: gs)) qubits_oracle
      (Some (c :: cs)) state_control init_H classic_register = inl e.
Proof.
  intros Hq.
  unfold oracle_multiples.
  destruct (np_ceil_log2 k) as [e | n_remainders]; [now exists e |].
  cbn [rbind].
  destruct (QuantumRegister nqubits_input) as [e | []]; [now exists e |].
  cbn [rbind].
  destruct (QuantumRegister (n_remainders + 1)) as [e | []]; [now exists e |].
  cbn [rbind]. unfold oracle_multiples_run.
  assert (Hbody : never_returns
    (oracle_multiples_body k nqubits_input approx_QFT (Some (g :: gs))
       qubits_oracle (Some (c :: cs)) state_control init_H)).
  { unfold oracle_multiples_body.
    do 4 (apply never_returns_bind_r; intros _).
    apply never_returns_bind_l. unfold mark.
    apply never_returns_bind_r. intros nots.
    apply never_returns_bind_r. intros _.
    apply never_returns_bind_l.
    destruct Hq as [-> | ->];
      apply (never_returns_fails TypeError), fails_raise. }
  destruct (Hbody (Builder [] ∅ [])) as (e & s' & E).
  exists e. now rewrite E.
Qed.

Lemma controlled_oracle_needs_qubits_oracle_witness :
  exists e,
    oracle_multiples 3 2 0 (Some [G_x 0]) None
      (Some [Qubit input_register 0]) None true None = inl e.
Proof.
  apply (controlled_oracle_needs_qubits_oracle 3 2 0 (G_x 0) [] None
           (Qubit input_register 0) [] None true None).
  now left.
Defined.

(** X18. Without an oracle of the caller (None, or a circuit without
    instructions) and with the classical register in place, the variant in
    the repository root and the variant under [code/] give the same result:
    the same circuit or the same exception. *)
Theorem variants_agree_without_oracle (k nqubits_input approx_QFT : Z)
  (oracle : option (circuit Z))
  (qubits_oracle qubits_control : option (list qubit))
  (state_control : option (list Z)) (init_H : bool)
  (classic_register classic_register' : option bool) :
  oracle = None \/ oracle = Some [] ->
  match classic_register with None => negb init_H | Some b => b end = true ->
  match classic_register' with None => init_H | Some b => b end = true ->
  root_multiples_functions.oracle_multiples k nqubits_input approx_QFT oracle
    qubits_oracle init_H classic_register =
  oracle_multiples k nqubits_input approx_QFT oracle qubits_oracle
    qubits_control state_control init_H classic_register'.
Proof.
  intros Horacle Hroot Hcode.
  unfold root_multiples_functions.oracle_multiples, oracle_multiples,
    oracle_multiples_run.
  rewrite Hroot, Hcode.
  destruct (np_ceil_log2 k) as [e | n_remainders]; [reflexivity |].
  cbn [rbind].
  destruct (QuantumRegister nqubits_input) as [e | []]; [reflexivity |].
  cbn [rbind].
  destruct (QuantumRegister (n_remainders + 1)) as [e | []]; [reflexivity |].
  cbn [root_multiples_functions.read_local rbind].
  destruct Horacle as [-> | ->]; reflexivity.
Qed.

Lemma variants_agree_without_oracle_witness :
  root_multiples_functions.oracle_multiples 3 2 0 None None false None =
  oracle_multiples 3 2 0 None None None None false (Some true).
Proof.
  apply (variants_agree_without_oracle 3 2 0 None None None None false None
           (Some true)); [now left | reflexivity | reflexivity].
Defined.

(** ** Running the oracle

    The bits of the circuit are numbered in the order of the registers
    given to [QuantumCircuit]: the input register, the remainders, the
    ancilla.  An appended sub-circuit acts on the bits it is appended to:
    its wire [i] is the [i]-th of them.  A Hadamard gate takes the basis bit
    [b] to the Fourier wire of phase [b]. *)

Definition qubit_index (nqubits_input n_rem : Z) (q : qubit) : Z :=
  match qreg q with
  | input_register => qidx q
  | remainders => nqubits_input + qidx q
  | ancilla => nqubits_input + n_rem + qidx q
  end.

Definition placed (index : qubit -> Z) (qargs : list qubit) (sub : circuit Z)
  : list (gate Z) :=
  map (gate_map (fun i => nth (Z.to_nat i) (map index qargs) 0)) sub.

Definition run_operation (index : qubit -> Z) (o : operation) (st : state)
  : option state :=
  match o with
  | Op_gate (G_h q) =>
      match st (index q) with
      | Basis b => Some (upd st (index q) (Fourier (if b then 1 else 0)))
      | Fourier _ => None
      end
  | Op_gate g => apply_gate (gate_map index g) st
  | Op_adder inst qargs => run (placed index qargs (adder_circuit inst)) st
  | Op_circuit sub qargs => run (placed index qargs sub) st
  | Op_controlled _ _ _ => None
  end.

Fixpoint run_operations (index : qubit -> Z) (os : list operation)
  (st : state) : option state :=
  match os with
  | [] => Some st
  | o :: os' =>
      match run_operation index o st with
      | Some st' => run_operations index os' st'
      | None => None
      end
  end.

Lemma run_operations_app index os1 os2 st :
  run_operations index (os1 ++ os2) st =
  match run_operations index os1 st with
  | Some st' => run_operations index os2 st'
  | None => None
  end.
Proof.
  revert st. induction os1 as [|o os1 IH]; intros st; simpl; [reflexivity |].
  destruct (run_operation index o st); [apply IH | reflexivity].
Qed.

(** *** Renaming the wires of an adder *)

Lemma cp_gates_map (f : Z -> Z) c qs thetas :
  map (gate_map f) (cp_gates c qs thetas) = cp_gates (f c) (map f qs) thetas.
Proof.
  unfold cp_gates. revert qs.
  induction thetas as [|t thetas IH]; intros [|q qs]; simpl; try reflexivity.
  now rewrite IH.
Qed.

Lemma p_gates_map (f : Z -> Z) qs thetas :
  map (gate_map f) (p_gates qs thetas) = p_gates (map f qs) thetas.
Proof.
  unfold p_gates. revert qs.
  induction thetas as [|t thetas IH]; intros [|q qs]; simpl; try reflexivity.
  now rewrite IH.
Qed.

Lemma last_map_nonempty (f : Z -> Z) (qs : list Z) :
  qs <> [] -> List.last (map f qs) 0 = f (List.last qs 0).
Proof.
  induction qs as [|q qs IH]; intros Hne; [congruence |].
  destruct qs as [|q' qs]; [reflexivity |].
  change (List.last (map f (q :: q' :: qs)) 0)
    with (List.last (map f (q' :: qs)) 0).
  change (List.last (q :: q' :: qs) 0) with (List.last (q' :: qs) 0).
  apply IH. discriminate.
Qed.

Lemma len_map {A B} (f : A -> B) (l : list A) : len (map f l) = len l.
Proof. unfold len. now rewrite length_map. Qed.

Lemma stages_map (f : Z -> Z) qs c a Am AK :
  qs <> [] ->
  map (gate_map f) (stages qs c a Am AK) =
  stages (map f qs) (f c) (f a) Am AK.
Proof.
  intros Hne. unfold stages.
  rewrite !map_app, !cp_gates_map, p_gates_map. cbn [map gate_map].
  now rewrite len_map, last_map_nonempty.
Qed.

(** The adder built on wires [qs], [c], [a] and renamed by [f] is the adder
    built on the renamed wires. *)
Lemma c_phase_add_mod_K_renamed (f : Z -> Z) qs c a m K gates :
  1 <= len qs -> 0 <= m < 2 ^ len qs -> 0 <= K < 2 ^ len qs ->
  c_phase_add_mod_K qs c a m K 0 false = inr gates ->
  c_phase_add_mod_K (map f qs) (f c) (f a) m K 0 false =
  inr (map (gate_map f) gates).
Proof.
  intros Hw Hm HK Hgates.
  assert (Hne : qs <> []) by (intros ->; unfold len in Hw; simpl in Hw; lia).
  assert (Hne' : map f qs <> []) by (destruct qs; [congruence | discriminate]).
  destruct (get_angles_entries m (len qs) ltac:(lia) Hm) as (Am & Em & Lm & _).
  destruct (get_angles_entries K (len qs) ltac:(lia) HK) as (AK & EK & LK & _).
  assert (Lm' : length Am = length qs) by (unfold len in Lm; lia).
  assert (LK' : length AK = length qs) by (unfold len in LK; lia).
  rewrite (c_phase_add_mod_K_gates qs c a m K false Am AK Hne Em Lm' EK LK')
    in Hgates.
  inversion Hgates; subst gates; clear Hgates.
  rewrite (c_phase_add_mod_K_gates (map f qs) (f c) (f a) m K false Am AK
             Hne'); rewrite ?len_map, ?length_map; try assumption.
  cbn [app]. rewrite !app_nil_r. now rewrite stages_map.
Qed.

Lemma py_range_nth lo hi (i : nat) d :
  (i < Z.to_nat (hi - lo))%nat -> nth i (py_range lo hi) d = lo + Z.of_nat i.
Proof.
  intros Hi. unfold py_range.
  rewrite (nth_indep _ d ((fun j : nat => lo + Z.of_nat j) 0%nat))
    by (rewrite length_map, length_seq; exact Hi).
  rewrite (map_nth (fun j : nat => lo + Z.of_nat j)).
  now rewrite seq_nth by exact Hi.
Qed.

Lemma py_range_shift lo n d :
  map (fun j => d + j) (py_range lo (lo + n)) = py_range (d + lo) (d + lo + n).
Proof.
  unfold py_range. rewrite map_map.
  replace (Z.to_nat (lo + n - lo)) with (Z.to_nat n) by lia.
  replace (Z.to_nat (d + lo + n - (d + lo))) with (Z.to_nat n) by lia.
  apply map_ext. intros i. lia.
Qed.

Lemma mod_congruent a b k :
  0 < k -> (a - b) mod k = 0 -> a mod k = b mod k.
Proof.
  intros Hk H. apply Z.mod_divide in H; [| lia]. destruct H as [c Hc].
  replace a with (b + c * k) by lia. apply Z_mod_plus_full.
Qed.

(** The remainders are congruent to the powers of two, also for [k = 2]
    where the remainder 0 is written 2. *)
Lemma get_remainders_power_2_congruent (K p : Z) (i : nat) r :
  2 <= K -> 1 <= p ->
  get_remainders_power_2 K p !! i = Some r -> (r - 2 ^ Z.of_nat i) mod K = 0.
Proof.
  intros HK Hp Hr. destruct (Z.eq_dec K 2) as [-> | Hne].
  - unfold get_remainders_power_2 in Hr.
    change [1; 2] with (1 :: repeat 2 1) in Hr.
    rewrite (remainders_loop_2 p (py_range 2 (p + 1)) 0) in Hr.
    destruct i as [|i].
    + inversion Hr; subst. reflexivity.
    + cbn [lookup list_lookup] in Hr.
      apply list_elem_of_lookup_2, list_elem_of_In, repeat_spec in Hr. subst r.
      rewrite Nat2Z.inj_succ, Z.pow_succ_r by lia.
      replace (2 - 2 * 2 ^ Z.of_nat i) with ((1 - 2 ^ Z.of_nat i) * 2) by lia.
      apply Z.mod_mul. lia.
  - rewrite (get_remainders_power_2_pows K ltac:(lia) p Hp) in Hr.
    rewrite <- nth_error_lookup in Hr.
    assert (Hi : (i < Z.to_nat (p + 1))%nat).
    { rewrite <- (pows_length K (Z.to_nat (p + 1))).
      apply nth_error_Some. congruence. }
    rewrite (pows_lookup K _ i Hi) in Hr. inversion Hr; subst r.
    unfold pow2_mod. rewrite Zminus_mod_idemp_l, Z.sub_diag.
    apply Z.mod_0_l. lia.
Qed.

(** One step of either loop on the value of the remainders register. *)
Definition fold_step (k x : Z) (addend : Z -> Z) (v : Z) (ir : Z * Z) : Z :=
  if Z.testbit x (fst ir) then (v + addend (snd ir)) mod k else v.

Lemma fold_step_range k x addend v ir :
  0 < k -> 0 <= v < k -> 0 <= fold_step k x addend v ir < k.
Proof.
  intros Hk Hv. unfold fold_step.
  destruct (Z.testbit x (fst ir)); [apply Z.mod_pos_bound; lia | exact Hv].
Qed.

Lemma fold_left_step_range k x addend l v :
  0 < k -> 0 <= v < k -> 0 <= fold_left (fold_step k x addend) l v < k.
Proof.
  intros Hk. revert v. induction l as [|ir l IH]; intros v Hv; simpl.
  - exact Hv.
  - apply IH. now apply fold_step_range.
Qed.

(** The loop adds [sign * x] when the addend of wire [i] is congruent to
    [sign * 2^i]. *)
Lemma fold_left_step_value k x sign addend (rs : list Z) lo v :
  0 < k -> 0 <= lo -> 0 <= x -> 0 <= v < k ->
  (forall (j : nat) r, rs !! j = Some r ->
     (addend r - sign * 2 ^ (lo + Z.of_nat j)) mod k = 0) ->
  fold_left (fold_step k x addend)
            (combine (py_range lo (lo + len rs)) rs) v =
  (v + sign * ((x / 2 ^ lo) mod 2 ^ len rs) * 2 ^ lo) mod k.
Proof.
  intros Hk. revert lo v.
  induction rs as [|r rs IH]; intros lo v Hlo Hx Hv Hcong.
  - change (len (@nil Z)) with 0. rewrite Z.pow_0_r, Z.mod_1_r.
    rewrite py_range_nil by lia. simpl.
    rewrite Z.mul_0_r, Z.mul_0_l, Z.add_0_r. symmetry. now apply Z.mod_small.
  - assert (Hlen : len (r :: rs) = 1 + len rs) by (unfold len; simpl; lia).
    rewrite Hlen, py_range_cons by (unfold len; lia).
    replace (lo + (1 + len rs)) with (lo + 1 + len rs) by lia.
    cbn [combine fold_left].
    rewrite IH; [| lia | assumption | now apply fold_step_range |].
    2:{ intros j r' Hj. specialize (Hcong (S j) r' Hj).
        replace (lo + 1 + Z.of_nat j) with (lo + Z.of_nat (S j)) by lia.
        exact Hcong. }
    specialize (Hcong 0%nat r eq_refl).
    replace (lo + Z.of_nat 0) with lo in Hcong by lia.
    assert (Hp : 0 < 2 ^ lo) by (apply Z.pow_pos_nonneg; lia).
    assert (Hq : 0 < 2 ^ len rs) by (apply Z.pow_pos_nonneg; unfold len; lia).
    set (y := x / 2 ^ lo).
    assert (Hy2 : x / 2 ^ (lo + 1) = y / 2).
    { unfold y. rewrite Z.pow_add_r, Z.pow_1_r by lia.
      now rewrite Z.div_div by lia. }
    assert (Hbit : Z.testbit x lo = Z.odd y).
    { unfold y. rewrite <- Z.bit0_odd, Z.div_pow2_bits by lia. f_equal. }
    rewrite Hy2.
    replace (2 ^ (1 + len rs)) with (2 * 2 ^ len rs)
      by (rewrite Z.pow_add_r, Z.pow_1_r by (unfold len; lia); lia).
    rewrite (Z.rem_mul_r y 2 (2 ^ len rs)) by lia.
    rewrite Z.pow_add_r, Z.pow_1_r by lia.
    unfold fold_step. cbn [fst snd]. rewrite Hbit.
    rewrite (Zmod_odd y).
    destruct (Z.odd y).
    + rewrite Zplus_mod_idemp_l. apply mod_congruent; [exact Hk |].
      match goal with
      | |- (?a - ?b) mod k = 0 =>
          replace (a - b) with (addend r - sign * 2 ^ lo) by lia
      end.
      exact Hcong.
    + f_equal. lia.
Qed.

(** The bits an adder of the oracle is appended to, for input wire [i]. *)
Definition adder_qargs (n_rem i : Z) : list qubit :=
  [Qubit input_register i] ++ register_bits remainders n_rem
    ++ [Qubit ancilla 0].

(** The wires of the remainders register and of the ancilla in the circuit
    of [oracle_multiples(k, nqubits_input)]. *)
Definition remainder_wires (k nqubits_input : Z) : list Z :=
  py_range nqubits_input (nqubits_input + (Z.log2_up k + 1)).

Definition ancilla_wire (k nqubits_input : Z) : Z :=
  nqubits_input + (Z.log2_up k + 1).

Definition oracle_index (k nqubits_input : Z) : qubit -> Z :=
  qubit_index nqubits_input (Z.log2_up k + 1).

(** The input register holds the bits of [x]. *)
Definition input_holds (nqubits_input x : Z) (st : state) : Prop :=
  forall i, 0 <= i < nqubits_input -> st i = Basis (Z.testbit x i).

Section OracleRun.

Variables (k nqubits_input : Z).
Hypothesis k_ge_2 : 2 <= k.
Hypothesis input_ge_2 : 2 <= nqubits_input.

Local Abbreviation n_rem := (Z.log2_up k + 1).
Local Abbreviation index := (oracle_index k nqubits_input).
Local Abbreviation R := (remainder_wires k nqubits_input).
Local Abbreviation anc := (ancilla_wire k nqubits_input).
Local Abbreviation adder_wires := (py_range 1 (n_rem + 1)).

Lemma n_rem_ge_2 : 2 <= n_rem /\ 2 * k <= 2 ^ n_rem.
Proof.
  destruct (log2_up_width k n_rem k_ge_2 eq_refl) as (Hw & _ & Hfull).
  split; assumption.
Qed.

Lemma index_remainders :
  map index (register_bits remainders n_rem) = R.
Proof.
  unfold register_bits, remainder_wires. rewrite map_map.
  transitivity (map (fun j => nqubits_input + j) (py_range 0 (0 + n_rem))).
  - apply map_ext. intros j. reflexivity.
  - rewrite py_range_shift. f_equal; lia.
Qed.

Lemma len_R : len R = n_rem.
Proof.
  pose proof n_rem_ge_2. unfold remainder_wires.
  rewrite len_py_range by lia. lia.
Qed.

Lemma R_In q : q ∈ R <-> nqubits_input <= q < nqubits_input + n_rem.
Proof. unfold remainder_wires. rewrite list_elem_of_In. apply py_range_In. Qed.

Lemma index_qargs i :
  map index (adder_qargs n_rem i) = i :: R ++ [anc].
Proof.
  unfold adder_qargs. rewrite !map_app, index_remainders. cbn [map app].
  unfold oracle_index, qubit_index, ancilla_wire. cbn [qreg qidx].
  f_equal. f_equal. f_equal. lia.
Qed.

(** Where the wires of an adder land. *)
Lemma placed_adder_wires i :
  let f := fun j => nth (Z.to_nat j) (map index (adder_qargs n_rem i)) 0 in
  f 0 = i /\ map f adder_wires = R /\ f (len adder_wires + 1) = anc.
Proof.
  pose proof n_rem_ge_2 as [Hw _].
  intros f. unfold f. rewrite index_qargs.
  assert (HlenR : length R = Z.to_nat n_rem).
  { pose proof len_R as H. unfold len in H. lia. }
  split; [reflexivity |]. split.
  - assert (HR : R = map (fun j : nat => nqubits_input + Z.of_nat j)
                         (seq 0 (Z.to_nat n_rem))).
    { unfold remainder_wires, py_range. do 2 f_equal. lia. }
    etransitivity; [| symmetry; exact HR].
    unfold py_range. rewrite map_map.
    replace (Z.to_nat (n_rem + 1 - 1)) with (Z.to_nat n_rem) by lia.
    apply map_ext_in. intros j Hj. apply in_seq in Hj.
    replace (Z.to_nat (1 + Z.of_nat j)) with (S j) by lia.
    cbn [nth]. rewrite app_nth1 by lia.
    unfold remainder_wires. apply py_range_nth. lia.
  - rewrite len_py_range by lia.
    replace (Z.to_nat (n_rem + 1 - 1 + 1)) with (S (length R)) by lia.
    cbn [nth]. rewrite app_nth2 by lia. now rewrite Nat.sub_diag.
Qed.

Lemma R_NoDup : NoDup R.
Proof. apply py_range_NoDup. Qed.

Lemma wires_NoDup i :
  0 <= i < nqubits_input -> NoDup (i :: anc :: R).
Proof.
  intros Hi. pose proof n_rem_ge_2 as [Hw _].
  apply NoDup_cons. split.
  - intros Hin. apply elem_of_cons in Hin. destruct Hin as [E | Hin].
    + unfold ancilla_wire in E. lia.
    + apply R_In in Hin. lia.
  - apply NoDup_cons. split; [| apply R_NoDup].
    intros Hin. apply R_In in Hin. unfold ancilla_wire in Hin. lia.
Qed.

(** What an appended adder of addend [r] on input wire [i] does. *)
Lemma run_adder_operation (inst : adder_instance) (i r v : Z) (b : bool)
  (st : state) :
  c_phase_add_mod_K adder_wires 0 (len adder_wires + 1) r k 0 false
    = inr (adder_circuit inst) ->
  0 <= i < nqubits_input -> 0 <= r <= k -> 0 <= v < k ->
  st i = Basis b -> st anc = Basis false -> holds_phases v R st ->
  exists st',
    run_operation index (Op_adder inst (adder_qargs n_rem i)) st = Some st' /\
    holds_phases (if b then (v + r) mod k else v) R st' /\
    st' anc = Basis false /\
    forall q, q ∉ anc :: R -> st' q = st q.
Proof.
  intros Hinst Hi Hr Hv Hctl Hanc Hreg.
  pose proof n_rem_ge_2 as [Hw Hfull].
  assert (Hlw : len adder_wires = n_rem) by (rewrite len_py_range; lia).
  pose proof (placed_adder_wires i) as Hp. cbv zeta in Hp.
  unfold run_operation, placed.
  set (f := fun j => nth (Z.to_nat j) (map index (adder_qargs n_rem i)) 0)
    in *.
  destruct Hp as (Hf0 & HfR & Hfa).
  pose proof (c_phase_add_mod_K_renamed f
                adder_wires 0 (len adder_wires + 1) r k (adder_circuit inst)
                ltac:(lia) ltac:(rewrite Hlw; lia) ltac:(rewrite Hlw; lia)
                Hinst) as Hren.
  rewrite Hf0, HfR, Hfa in Hren.
  destruct (adder_in_phase k r v R i anc b st k_ge_2 Hr Hv len_R
              (wires_NoDup i Hi) Hctl Hanc Hreg)
    as (gates & st' & Hgates & Hrun & Hph & Ha & _ & Hrest).
  rewrite Hren in Hgates. inversion Hgates; subst gates.
  exists st'. split; [exact Hrun |]. split; [exact Hph |].
  split; [exact Ha | exact Hrest].
Qed.

(** *** The builder, traced *)

(** Every cached circuit is the adder of its key. *)
Definition cache_ok (s : builder) : Prop :=
  forall r inst, circuits_sums s !! r = Some inst ->
    c_phase_add_mod_K adder_wires 0 (len adder_wires + 1) r k 0 false
      = inr (adder_circuit inst).

(** A step that returns, appends operations satisfying [P] and keeps the
    cache right. *)
Definition traced (P : list operation -> Prop) (m : M builder unit) : Prop :=
  forall s, cache_ok s ->
    exists s' new,
      m s = (inr tt, s') /\ ops s' = ops s ++ new /\ cache_ok s' /\ P new.

Lemma traced_ret : traced (fun new => new = []) (ret tt).
Proof.
  intros s Hs. exists s, []. rewrite app_nil_r. auto.
Qed.

Lemma traced_append_op o : traced (fun new => new = [o]) (append_op o).
Proof.
  intros s Hs. eexists. exists [o]. split; [reflexivity |]. auto.
Qed.

Lemma traced_bind (P Q : list operation -> Prop) (m m' : M builder unit) :
  traced P m -> traced Q m' ->
  traced (fun new => exists a b, new = a ++ b /\ P a /\ Q b) (m ;; m').
Proof.
  intros Hm Hm' s Hs.
  destruct (Hm s Hs) as (s1 & a & E1 & O1 & C1 & Pa).
  destruct (Hm' s1 C1) as (s2 & b & E2 & O2 & C2 & Qb).
  exists s2, (a ++ b). unfold bind. rewrite E1. split; [exact E2 |].
  split; [rewrite O2, O1; now rewrite app_assoc |].
  split; [exact C2 |]. now exists a, b.
Qed.

Lemma traced_impl (P Q : list operation -> Prop) (m : M builder unit) :
  (forall new, P new -> Q new) -> traced P m -> traced Q m.
Proof.
  intros HPQ Hm s Hs. destruct (Hm s Hs) as (s' & new & E & O & C & Pn).
  exists s', new. auto.
Qed.

Lemma traced_each_qubit g qubits :
  traced (fun new => new = map (fun q => Op_gate (g q)) qubits)
         (each_qubit g qubits).
Proof.
  unfold each_qubit. induction qubits as [|q qubits IH]; cbn [for_each map].
  - apply traced_ret.
  - eapply traced_impl; [| apply traced_bind; [apply traced_append_op | exact IH]].
    intros new (a & b & -> & -> & ->). reflexivity.
Qed.

Lemma cached_adder_traced r s :
  cache_ok s -> 0 <= r <= k ->
  exists inst s',
    cached_adder r k 0 adder_wires s = (inr inst, s') /\
    ops s' = ops s /\ cache_ok s' /\
    c_phase_add_mod_K adder_wires 0 (len adder_wires + 1) r k 0 false
      = inr (adder_circuit inst).
Proof.
  intros Hs Hr. unfold cached_adder.
  destruct (circuits_sums s !! r) as [inst|] eqn:Hlook.
  - exists inst, s. split; [reflexivity |]. split; [reflexivity |].
    split; [exact Hs | now apply Hs].
  - destruct (oracle_adder_returns k r 0 k_ge_2 Hr) as (c & Hc).
    cbv zeta in Hc. rewrite Hc.
    eexists. eexists. split; [reflexivity |]. split; [reflexivity |].
    split; [| reflexivity].
    intros r' inst'. cbn [circuits_sums].
    intros Hl. apply lookup_insert_Some in Hl.
    destruct Hl as [[<- <-] | [_ Hl]]; [exact Hc | now apply Hs].
Qed.

Lemma input_bit i :
  0 <= i < nqubits_input ->
  py_index (register_bits input_register nqubits_input) i
    = inr (Qubit input_register i).
Proof.
  intros Hi. apply py_index_lookup; [lia |].
  unfold register_bits. rewrite list_lookup_fmap.
  rewrite <- nth_error_lookup.
  replace (Z.to_nat i) with (Z.to_nat (i - 0)) by lia.
  rewrite py_range_nth_error by lia. reflexivity.
Qed.

(** The operation of one iteration, as a property of what is appended. *)
Definition adds (i r : Z) (new : list operation) : Prop :=
  forall st v b,
    0 <= v < k -> st i = Basis b -> st anc = Basis false ->
    holds_phases v R st ->
    exists st',
      run_operations index new st = Some st' /\
      holds_phases (if b then (v + r) mod k else v) R st' /\
      st' anc = Basis false /\
      forall q, q ∉ anc :: R -> st' q = st q.

Lemma traced_append_adder i r :
  0 <= i < nqubits_input -> 0 <= r <= k ->
  traced (fun new => length new = 1%nat /\ adds i r new)
         (append_adder k nqubits_input n_rem 0 i r).
Proof.
  intros Hi Hr s Hs.
  destruct (cached_adder_traced r s Hs Hr) as (inst & s1 & E1 & O1 & C1 & Hc).
  exists (Builder (ops s1 ++ [Op_adder inst (adder_qargs n_rem i)])
                  (circuits_sums s1) (adder_calls s1)).
  exists [Op_adder inst (adder_qargs n_rem i)].
  split; [| split; [| split; [| split]]].
  - unfold append_adder, bind. rewrite E1. unfold lift.
    rewrite (input_bit i Hi). reflexivity.
  - cbn [ops]. now rewrite O1.
  - exact C1.
  - reflexivity.
  - intros st v b Hv Hctl Hanc Hreg.
    destruct (run_adder_operation inst i r v b st Hc Hi Hr Hv Hctl Hanc Hreg)
      as (st' & Hrun & Hrest).
    exists st'. split; [| exact Hrest].
    cbn [run_operations]. now rewrite Hrun.
Qed.

(** The appended operations of a whole loop. *)
Definition folds (step : Z -> Z -> Z) (new : list operation) : Prop :=
  forall x st v,
    0 <= v < k -> input_holds nqubits_input x st -> st anc = Basis false ->
    holds_phases v R st ->
    exists st',
      run_operations index new st = Some st' /\
      holds_phases (step x v) R st' /\
      st' anc = Basis false /\
      forall q, q ∉ anc :: R -> st' q = st q.

Lemma input_wire_outside i :
  0 <= i < nqubits_input -> i ∉ anc :: R.
Proof.
  intros Hi Hin. pose proof n_rem_ge_2 as [Hw _].
  apply elem_of_cons in Hin. destruct Hin as [E | Hin].
  - unfold ancilla_wire in E. lia.
  - apply R_In in Hin. lia.
Qed.

Lemma input_holds_kept x st st' :
  input_holds nqubits_input x st ->
  (forall q, q ∉ anc :: R -> st' q = st q) ->
  input_holds nqubits_input x st'.
Proof.
  intros Hin Hrest i Hi. rewrite Hrest by now apply input_wire_outside.
  now apply Hin.
Qed.

Lemma traced_adder_loop (addend : Z -> Z) (l : list (Z * Z)) :
  Forall (fun ir : Z * Z =>
            0 <= fst ir < nqubits_input /\ 0 <= addend (snd ir) <= k) l ->
  traced (fun new =>
            length new = length l /\
            folds (fun x v => fold_left (fold_step k x addend) l v) new)
         (for_each l (fun ir =>
            append_adder k nqubits_input n_rem 0 (fst ir) (addend (snd ir)))).
Proof.
  induction 1 as [|[i r] l [Hi Hr] Hl IH]; cbn [for_each fst snd] in *.
  - eapply traced_impl; [| apply traced_ret].
    intros new ->. split; [reflexivity |].
    intros x st v Hv Hin Hanc Hreg. exists st. cbn. auto.
  - eapply traced_impl;
      [| apply traced_bind; [apply (traced_append_adder i (addend r) Hi Hr)
                            | exact IH]].
    intros new (a & b & -> & [La Ha] & [Lb Hb]). split.
    + rewrite length_app, La, Lb. reflexivity.
    + intros x st v Hv Hin Hanc Hreg.
      destruct (Ha st v (Z.testbit x i) Hv (Hin i Hi) Hanc Hreg)
        as (s1 & R1 & P1 & A1 & O1).
      assert (Hv1 : 0 <= fold_step k x addend v (i, r) < k)
        by (apply fold_step_range; lia).
      destruct (Hb x s1 (fold_step k x addend v (i, r)) Hv1
                  (input_holds_kept x st s1 Hin O1) A1 P1)
        as (s2 & R2 & P2 & A2 & O2).
      exists s2. rewrite run_operations_app, R1.
      split; [exact R2 |]. split; [exact P2 |]. split; [exact A2 |].
      intros q Hq. rewrite O2 by exact Hq. now apply O1.
Qed.

End OracleRun.

Lemma cache_ok_empty k : cache_ok k (Builder [] ∅ []).
Proof. intros r inst H. cbn in H. now rewrite lookup_empty in H. Qed.

(** Hadamard gates on bits at 0 bring each of them to the Fourier phase 0
    and touch nothing else. *)
Lemma run_hadamards (index : qubit -> Z) (qubits : list qubit) (st : state) :
  NoDup (map index qubits) ->
  (forall q, q ∈ map index qubits -> st q = Basis false) ->
  exists st',
    run_operations index (map (fun q => Op_gate (G_h q)) qubits) st
      = Some st' /\
    (forall q, q ∈ map index qubits -> st' q = Fourier 0) /\
    (forall q, q ∉ map index qubits -> st' q = st q).
Proof.
  revert st. induction qubits as [|q0 qubits IH]; intros st Hnd Hzero.
  - exists st. split; [reflexivity |]. split; [| auto].
    intros q Hq. now apply elem_of_nil in Hq.
  - cbn [map] in Hnd, Hzero. apply NoDup_cons in Hnd. destruct Hnd as [Hq0 Hnd].
    cbn [map run_operations run_operation].
    rewrite (Hzero (index q0)) by (apply elem_of_cons; now left).
    destruct (IH (upd st (index q0) (Fourier 0)) Hnd) as (st' & Hrun & Hin & Hout).
    { intros q Hq. rewrite upd_other; [| intros ->; contradiction].
      apply Hzero. apply elem_of_cons. now right. }
    exists st'. split; [exact Hrun |]. split.
    + intros q Hq. apply elem_of_cons in Hq. destruct Hq as [-> | Hq].
      * rewrite Hout by exact Hq0. apply upd_same.
      * now apply Hin.
    + intros q Hq. apply not_elem_of_cons in Hq. destruct Hq as [Hne Hq].
      rewrite Hout by exact Hq. now apply upd_other.
Qed.

Lemma phases_of_zero (w : nat) : phases_of 0 (repeat 0%Q w).
Proof.
  intros j phi Hj. apply list_elem_of_lookup_2, list_elem_of_In, repeat_spec in Hj.
  subst phi. exists 0. simpl. lia.
Qed.

Lemma map_pointwise {A} (f : Z -> A) (a : A) (qs : list Z) :
  (forall q, q ∈ qs -> f q = a) -> map f qs = repeat a (length qs).
Proof.
  induction qs as [|q qs IH]; intros H; [reflexivity |].
  cbn [map length repeat]. rewrite H by (apply elem_of_cons; now left).
  f_equal. apply IH. intros q' Hq'. apply H. apply elem_of_cons. now right.
Qed.

Lemma run_single (g : gate Z) (st st' : state) :
  run [g] st = Some st' -> apply_gate g st = Some st'.
Proof. simpl. now destruct (apply_gate g st). Qed.

Section OracleParts.

Variables (k nqubits_input : Z).
Hypothesis k_ge_2 : 2 <= k.
Hypothesis input_ge_2 : 2 <= nqubits_input.

Local Abbreviation n_rem := (Z.log2_up k + 1).
Local Abbreviation index := (oracle_index k nqubits_input).
Local Abbreviation R := (remainder_wires k nqubits_input).
Local Abbreviation anc := (ancilla_wire k nqubits_input).
Local Abbreviation list_remainders :=
  (get_remainders_power_2 k (nqubits_input - 1)).
Local Abbreviation remainder_bits := (register_bits remainders n_rem).
Local Abbreviation inverseQFT :=
  (Op_gate (G_QFT n_rem 0 true remainder_bits)).
Local Abbreviation directQFT :=
  (Op_gate (G_QFT n_rem 0 false remainder_bits)).

(** The three parts of the circuit built without an oracle of the caller and
    without [init_H]: the Hadamards, the first loop and an inverse
    transform; the marking block; a transform, the second loop and an
    inverse transform. *)
Lemma oracle_multiples_body_parts
  (qubits_oracle qubits_control : option (list qubit))
  (state_control : option (list Z)) :
  exists s fold_in_ops mark_ops fold_out_ops,
    oracle_multiples_body k nqubits_input 0 None qubits_oracle qubits_control
      state_control false (Builder [] ∅ []) = (inr tt, s) /\
    ops s = (map (fun q => Op_gate (G_h q)) remainder_bits ++ fold_in_ops
               ++ [inverseQFT])
            ++ mark_ops
            ++ ([directQFT] ++ fold_out_ops ++ [inverseQFT]) /\
    length fold_in_ops = Z.to_nat nqubits_input /\
    length fold_out_ops = Z.to_nat nqubits_input /\
    folds k nqubits_input
      (fun x v => fold_left (fold_step k x (fun r => r))
                            (enumerate list_remainders) v) fold_in_ops /\
    folds k nqubits_input
      (fun x v => fold_left (fold_step k x (fun r => k - r))
                            (enumerate list_remainders) v) fold_out_ops.
Proof.
  pose proof (remainders_enumerated k nqubits_input k_ge_2 input_ge_2) as Hl.
  assert (Hin : Forall (fun ir : Z * Z =>
                          0 <= fst ir < nqubits_input /\ 0 <= snd ir <= k)
                       (enumerate list_remainders)) by exact Hl.
  assert (Hout : Forall (fun ir : Z * Z =>
                           0 <= fst ir < nqubits_input /\
                           0 <= k - snd ir <= k)
                        (enumerate list_remainders)).
  { eapply Forall_impl; [exact Hl |]. cbv beta. intros ir H. lia. }
  pose proof (traced_bind k _ _ _ _ (traced_ret k)
    (traced_bind k _ _ _ _ (traced_each_qubit k G_h remainder_bits)
      (traced_bind k _ _ _ _
         (traced_adder_loop k nqubits_input k_ge_2
            (fun r => r) _ Hin)
         (traced_bind k _ _ _ _ (traced_append_op k inverseQFT)
            (traced_bind k _ _ _ _
               (traced_bind k _ _ _ _
                  (traced_each_qubit k G_x
                     (register_bits remainders (n_rem - 1)))
                  (traced_bind k _ _ _ _
                     (traced_append_op k
                        (Op_circuit (multi_control_z (n_rem - 1))
                           (register_bits remainders (n_rem - 1))))
                     (traced_each_qubit k G_x
                        (register_bits remainders (n_rem - 1)))))
               (traced_bind k _ _ _ _ (traced_append_op k directQFT)
                  (traced_bind k _ _ _ _
                     (traced_adder_loop k nqubits_input k_ge_2
                        (fun r => k - r) _ Hout)
                     (traced_append_op k inverseQFT))))))))
    as Hbody.
  destruct (Hbody (Builder [] ∅ []) (cache_ok_empty k))
    as (s & new & E & O & _ & P).
  destruct P as (a0 & b0 & -> & -> & hs & b1 & -> & -> & ins & b2 & ->
                 & [Lin Fin] & iq & b3 & -> & -> & mk & b4 & -> & _
                 & dq & b5 & -> & -> & outs & b6 & -> & [Lout Fout] & ->).
  rewrite (remainders_count k nqubits_input k_ge_2 input_ge_2) in Lin, Lout.
  exists s, ins, mk, outs.
  split.
  { rewrite <- E. unfold oracle_multiples_body, mark.
    rewrite (call_multi_control_z_returns (n_rem - 1))
      by (destruct (n_rem_ge_2 k k_ge_2); lia).
    reflexivity. }
  split.
  { rewrite O. cbn [ops app]. now rewrite <- !app_assoc. }
  auto.
Qed.

Lemma remainders_length :
  len list_remainders = nqubits_input.
Proof.
  destruct (get_remainders_power_2_bounds k (nqubits_input - 1) k_ge_2
              ltac:(lia)) as [Hlen _].
  unfold len. rewrite Hlen. lia.
Qed.

(** The first loop adds [x], the second takes it away. *)
Lemma fold_in_value x v :
  0 <= x < 2 ^ nqubits_input -> 0 <= v < k ->
  fold_left (fold_step k x (fun r => r)) (enumerate list_remainders) v =
  (v + x) mod k.
Proof.
  intros Hx Hv. unfold enumerate.
  replace (len list_remainders) with (0 + len list_remainders) by lia.
  rewrite (fold_left_step_value k x 1 (fun r => r) list_remainders 0 v);
    try lia.
  - rewrite remainders_length, Z.pow_0_r, Z.div_1_r.
    rewrite (Z.mod_small x (2 ^ nqubits_input)) by lia.
    f_equal. lia.
  - intros j r Hj. rewrite Z.mul_1_l, Z.add_0_l.
    apply (get_remainders_power_2_congruent k (nqubits_input - 1) j r);
      [lia | lia | exact Hj].
Qed.

Lemma fold_out_value x v :
  0 <= x < 2 ^ nqubits_input -> 0 <= v < k ->
  fold_left (fold_step k x (fun r => k - r)) (enumerate list_remainders) v =
  (v - x) mod k.
Proof.
  intros Hx Hv. unfold enumerate.
  replace (len list_remainders) with (0 + len list_remainders) by lia.
  rewrite (fold_left_step_value k x (-1) (fun r => k - r) list_remainders 0 v);
    try lia.
  - rewrite remainders_length, Z.pow_0_r, Z.div_1_r.
    rewrite (Z.mod_small x (2 ^ nqubits_input)) by lia.
    f_equal. lia.
  - intros j r Hj. rewrite Z.add_0_l.
    pose proof (get_remainders_power_2_congruent k (nqubits_input - 1) j r
                  k_ge_2 ltac:(lia) Hj) as Hc.
    apply Z.mod_divide in Hc; [| lia]. destruct Hc as [c Hc].
    replace (k - r - -1 * 2 ^ Z.of_nat j) with ((1 - c) * k) by lia.
    apply Z.mod_mul. lia.
Qed.

Lemma run_inverseQFT v st :
  0 <= v < k -> holds_phases v R st ->
  exists st',
    run_operation index inverseQFT st = Some st' /\
    holds_bits v R st' /\ same_outside R st st'.
Proof.
  intros Hv Hph.
  destruct (n_rem_ge_2 k k_ge_2) as [Hw Hfull].
  destruct (run_inverse_QFT R v st (R_NoDup k nqubits_input) Hph)
    as (st' & Hrun & Hbits & Hout).
  rewrite (len_R k nqubits_input k_ge_2) in Hrun, Hbits.
  rewrite Z.mod_small in Hbits by lia.
  exists st'. split; [| split; assumption].
  cbn [run_operation gate_map].
  rewrite (index_remainders k nqubits_input). now apply run_single.
Qed.

Lemma run_directQFT v st :
  0 <= v < k -> holds_bits v R st ->
  exists st',
    run_operation index directQFT st = Some st' /\
    holds_phases v R st' /\ same_outside R st st'.
Proof.
  intros Hv Hbits.
  destruct (n_rem_ge_2 k k_ge_2) as [Hw Hfull].
  destruct (run_direct_QFT R v st (R_NoDup k nqubits_input)
              ltac:(rewrite (len_R k nqubits_input k_ge_2); lia) Hbits)
    as (st' & Hrun & Hph & Hout).
  rewrite (len_R k nqubits_input k_ge_2) in Hrun.
  exists st'. split; [| split; assumption].
  cbn [run_operation gate_map].
  rewrite (index_remainders k nqubits_input). now apply run_single.
Qed.

End OracleParts.

Lemma outside_register_and_ancilla k nqubits_input q :
  q ∉ ancilla_wire k nqubits_input :: remainder_wires k nqubits_input ->
  q ∉ remainder_wires k nqubits_input.
Proof. intros H Hin. apply H. apply elem_of_cons. now right. Qed.

Lemma ancilla_outside_register k nqubits_input :
  2 <= k -> ancilla_wire k nqubits_input ∉ remainder_wires k nqubits_input.
Proof.
  intros Hk Hin. apply R_In in Hin. unfold ancilla_wire in Hin. lia.
Qed.

(** X19. The first part of the circuit computes the remainder.  For
    [2 <= k <= 2^32], at least two input wires, exact transforms and no oracle of
    the caller, the circuit returned without [init_H] starts with
    [len(remainders) + nqubits_input + 1] operations (the Hadamards on the
    remainders, the first loop, the inverse transform) which take the input
    register holding [x], the remainders register at 0 and the ancilla at 0
    to the remainders register holding [x mod k], with the ancilla at 0
    again and every other wire, the input register among them, as before. *)
Theorem oracle_multiples_computes_remainder (k nqubits_input : Z)
  (qubits_oracle qubits_control : option (list qubit))
  (state_control : option (list Z)) (classic_register : option bool) :
  2 <= k <= 2 ^ 32 -> 2 <= nqubits_input ->
  exists c compute rest,
    oracle_multiples k nqubits_input 0 None qubits_oracle qubits_control
      state_control false classic_register = inr c /\
    data c = compute ++ rest /\
    len compute = (Z.log2_up k + 1) + nqubits_input + 1 /\
    forall x st,
      0 <= x < 2 ^ nqubits_input ->
      input_holds nqubits_input x st ->
      (forall q, q ∈ remainder_wires k nqubits_input -> st q = Basis false) ->
      st (ancilla_wire k nqubits_input) = Basis false ->
      exists st',
        run_operations (oracle_index k nqubits_input) compute st = Some st' /\
        holds_bits (x mod k) (remainder_wires k nqubits_input) st' /\
        st' (ancilla_wire k nqubits_input) = Basis false /\
        forall q,
          q ∉ ancilla_wire k nqubits_input :: remainder_wires k nqubits_input ->
          st' q = st q.
Proof.
  intros Hk32 Hn.
  rewrite (oracle_multiples_opened k nqubits_input 0 None
             qubits_oracle qubits_control state_control false
             classic_register (modulus_of_64_bits k Hk32) ltac:(lia)).
  assert (Hk : 2 <= k) by lia.
  destruct (n_rem_ge_2 k Hk) as [Hw Hfull].
  destruct (oracle_multiples_body_parts k nqubits_input Hk Hn qubits_oracle
              qubits_control state_control)
    as (s & ins & mk & outs & E & O & Lin & Lout & Fin & Fout).
  unfold oracle_multiples_run. rewrite E.
  eexists. eexists. eexists. split; [reflexivity |]. cbn [data].
  split; [exact O |]. split.
  { unfold len. rewrite !length_app, length_map. unfold register_bits.
    rewrite length_map, py_range_length, Lin. cbn [length]. lia. }
  intros x st Hx Hin Hzero Hanc.
  pose proof (index_remainders k nqubits_input) as HR.
  destruct (run_hadamards (oracle_index k nqubits_input)
              (register_bits remainders (Z.log2_up k + 1)) st)
    as (s1 & R1 & Z1 & O1).
  { rewrite HR. apply R_NoDup. }
  { rewrite HR. exact Hzero. }
  rewrite HR in Z1, O1.
  assert (P1 : holds_phases 0 (remainder_wires k nqubits_input) s1).
  { exists (repeat 0%Q (length (remainder_wires k nqubits_input))). split.
    - rewrite (map_pointwise s1 (Fourier 0) _ Z1). now rewrite map_repeat.
    - apply phases_of_zero. }
  assert (A1 : s1 (ancilla_wire k nqubits_input) = Basis false).
  { rewrite O1 by now apply ancilla_outside_register. exact Hanc. }
  assert (I1 : input_holds nqubits_input x s1).
  { intros i Hi. rewrite O1; [now apply Hin |].
    intros Hq. apply R_In in Hq. lia. }
  destruct (Fin x s1 0 ltac:(lia) I1 A1 P1) as (s2 & R2 & P2 & A2 & O2).
  rewrite (fold_in_value k nqubits_input Hk Hn x 0 Hx ltac:(lia)) in P2.
  rewrite Z.add_0_l in P2.
  destruct (run_inverseQFT k nqubits_input Hk (x mod k) s2
              ltac:(apply Z.mod_pos_bound; lia) P2)
    as (s3 & R3 & B3 & O3).
  exists s3. split; [| split; [exact B3 | split]].
  - rewrite run_operations_app, R1, run_operations_app, R2.
    cbn [run_operations]. now rewrite R3.
  - rewrite O3 by now apply ancilla_outside_register. exact A2.
  - intros q Hq.
    rewrite O3 by now apply outside_register_and_ancilla.
    rewrite O2 by exact Hq.
    apply O1. now apply outside_register_and_ancilla.
Qed.

Lemma oracle_multiples_computes_remainder_witness :
  exists c compute rest,
    oracle_multiples 3 2 0 None None None None false None = inr c /\
    data c = compute ++ rest /\
    len compute = (Z.log2_up 3 + 1) + 2 + 1 /\
    exists st',
      run_operations (oracle_index 3 2) compute
        (basis_state [0; 1] 3 all_zero) = Some st' /\
      holds_bits (3 mod 3) (remainder_wires 3 2) st'.
Proof.
  destruct (oracle_multiples_computes_remainder 3 2 None None None None)
    as (c & compute & rest & Hc & Hdata & Hlen & Hrun);
    [split; [lia | discriminate] | lia |].
  exists c, compute, rest. split; [exact Hc |]. split; [exact Hdata |].
  split; [exact Hlen |].
  destruct (Hrun 3 (basis_state [0; 1] 3 all_zero)) as (st' & H1 & H2 & _).
  - lia.
  - intros i Hi. assert (i = 0 \/ i = 1) as [-> | ->] by lia; reflexivity.
  - intros q Hq. apply R_In in Hq.
    assert (q = 2 \/ q = 3 \/ q = 4) as [-> | [-> | ->]]
      by (change (Z.log2_up 3 + 1) with 3 in Hq; lia);
      reflexivity.
  - reflexivity.
  - exists st'. split; [exact H1 | exact H2].
Defined.

(** X20. The last part of the circuit takes the input back out.  Under the
    same conditions the returned circuit ends with [nqubits_input + 2]
    operations (a transform, the second loop, the inverse transform) which
    take a remainders register holding [v < k], beside the input register
    holding [x] and the ancilla at 0, to the remainders register holding
    [(v - x) mod k]: the register is back at 0 exactly when [v] was the
    remainder of [x]. *)
Theorem oracle_multiples_uncomputes_remainder (k nqubits_input : Z)
  (qubits_oracle qubits_control : option (list qubit))
  (state_control : option (list Z)) (classic_register : option bool) :
  2 <= k <= 2 ^ 32 -> 2 <= nqubits_input ->
  exists c rest uncompute,
    oracle_multiples k nqubits_input 0 None qubits_oracle qubits_control
      state_control false classic_register = inr c /\
    data c = rest ++ uncompute /\
    len uncompute = nqubits_input + 2 /\
    forall x v st,
      0 <= x < 2 ^ nqubits_input -> 0 <= v < k ->
      input_holds nqubits_input x st ->
      holds_bits v (remainder_wires k nqubits_input) st ->
      st (ancilla_wire k nqubits_input) = Basis false ->
      exists st',
        run_operations (oracle_index k nqubits_input) uncompute st
          = Some st' /\
        holds_bits ((v - x) mod k) (remainder_wires k nqubits_input) st' /\
        st' (ancilla_wire k nqubits_input) = Basis false /\
        forall q,
          q ∉ ancilla_wire k nqubits_input :: remainder_wires k nqubits_input ->
          st' q = st q.
Proof.
  intros Hk32 Hn.
  rewrite (oracle_multiples_opened k nqubits_input 0 None
             qubits_oracle qubits_control state_control false
             classic_register (modulus_of_64_bits k Hk32) ltac:(lia)).
  assert (Hk : 2 <= k) by lia.
  destruct (n_rem_ge_2 k Hk) as [Hw Hfull].
  destruct (oracle_multiples_body_parts k nqubits_input Hk Hn qubits_oracle
              qubits_control state_control)
    as (s & ins & mk & outs & E & O & Lin & Lout & Fin & Fout).
  unfold oracle_multiples_run. rewrite E.
  eexists. eexists. eexists. split; [reflexivity |]. cbn [data].
  split; [rewrite O; rewrite app_assoc; reflexivity |]. split.
  { unfold len. rewrite !length_app, Lout. cbn [length]. lia. }
  intros x v st Hx Hv Hin Hbits Hanc.
  destruct (run_directQFT k nqubits_input Hk v st Hv Hbits)
    as (s1 & R1 & P1 & O1).
  assert (A1 : s1 (ancilla_wire k nqubits_input) = Basis false).
  { rewrite O1 by now apply ancilla_outside_register. exact Hanc. }
  assert (I1 : input_holds nqubits_input x s1).
  { intros i Hi. rewrite O1; [now apply Hin |].
    intros Hq. apply R_In in Hq. lia. }
  destruct (Fout x s1 v Hv I1 A1 P1) as (s2 & R2 & P2 & A2 & O2).
  rewrite (fold_out_value k nqubits_input Hk Hn x v Hx Hv) in P2.
  destruct (run_inverseQFT k nqubits_input Hk ((v - x) mod k) s2
              ltac:(apply Z.mod_pos_bound; lia) P2)
    as (s3 & R3 & B3 & O3).
  exists s3. split; [| split; [exact B3 | split]].
  - cbn [app run_operations]. rewrite R1.
    rewrite run_operations_app, R2. cbn [run_operations]. now rewrite R3.
  - rewrite O3 by now apply ancilla_outside_register. exact A2.
  - intros q Hq.
    rewrite O3 by now apply outside_register_and_ancilla.
    rewrite O2 by exact Hq.
    apply O1. now apply outside_register_and_ancilla.
Qed.

Lemma oracle_multiples_uncomputes_remainder_witness :
  exists c rest uncompute,
    oracle_multiples 3 2 0 None None None None false None = inr c /\
    data c = rest ++ uncompute /\
    len uncompute = 2 + 2 /\
    exists st',
      run_operations (oracle_index 3 2) uncompute
        (basis_state [0; 1; 2; 3; 4] (2 + 4 * 2) all_zero) = Some st' /\
      holds_bits ((2 - 2) mod 3) (remainder_wires 3 2) st'.
Proof.
  destruct (oracle_multiples_uncomputes_remainder 3 2 None None None None)
    as (c & rest & uncompute & Hc & Hdata & Hlen & Hrun);
    [split; [lia | discriminate] | lia |].
  exists c, rest, uncompute. split; [exact Hc |]. split; [exact Hdata |].
  split; [exact Hlen |].
  destruct (Hrun 2 2 (basis_state [0; 1; 2; 3; 4] (2 + 4 * 2) all_zero))
    as (st' & H1 & H2 & _).
  - lia.
  - lia.
  - intros i Hi. assert (i = 0 \/ i = 1) as [-> | ->] by lia; reflexivity.
  - reflexivity.
  - reflexivity.
  - exists st'. split; [exact H1 | exact H2].
Defined.

(** * The comparison oracle

    [code/oracle_less_than.py] calls [to_binary] and [multi_control_z].  It
    reads the digits of [number] before it appends anything; these two reads
    are where it can raise, with exceptions of its own.  The circuit is the
    list of its instructions in append order; an appended block is kept with
    the wires it is appended to. *)

Module oracle_less_than.

Inductive exception : Type :=
| AttributeError   (* [None.rstrip]: [to_binary] printed and returned None *)
| IndexError.      (* [num_binary[0]] on the empty string *)

Inductive instruction : Type :=
| I_x (qubit : Z)
| I_z (qubit : Z)
| I_append (block : circuit Z) (qargs : list Z).

(** [s.rstrip('0')] *)
Fixpoint rstrip (s : string) : string :=
  match s with
  | EmptyString => EmptyString
  | String c s' =>
      match rstrip s' with
      | EmptyString => if Ascii.eqb c "0" then EmptyString
                       else String c EmptyString
      | rest => String c rest
      end
  end.

(** [range(start, stop, -1)] *)
Definition py_range_down (start stop : Z) : list Z :=
  map (fun i : nat => start - Z.of_nat i) (seq 0 (Z.to_nat (start - stop))).

Definition oracle_less_than (number nqubits : Z)
  : exception + list instruction :=
  match to_binary number (Some nqubits) with
  | None => inl AttributeError
  | Some num_binary =>
      let num_binary := rstrip num_binary in
      match num_binary with
      | EmptyString => inl IndexError
      | String first rest =>
          let first_digit :=
            if Ascii.eqb first "1"
            then [I_x (nqubits - 1); I_z (nqubits - 1); I_x (nqubits - 1)]
            else [I_x (nqubits - 1)] in
          let remaining_digits :=
            flat_map (fun pv : Z * ascii =>
                        let position := fst pv + 1 in
                        if Ascii.eqb (snd pv) "0"
                        then [I_x (nqubits - position - 1)]
                        else [I_x (nqubits - position - 1);
                              I_append (multi_control_z (position + 1))
                                (py_range_down (nqubits - 1)
                                               (nqubits - position - 2));
                              I_x (nqubits - position - 1)])
                     (enumerate (list_ascii_of_string rest)) in
          let undo :=
            flat_map (fun pv : Z * ascii =>
                        if Ascii.eqb (snd pv) "0"
                        then [I_x (nqubits - fst pv - 1)]
                        else [])
                     (enumerate (list_ascii_of_string num_binary)) in
          inr (first_digit ++ remaining_digits ++ undo)
      end
  end.

End oracle_less_than.

Import oracle_less_than.

(** ** Its exceptions *)

Lemma rstrip_zeros n : rstrip (zeros n) = EmptyString.
Proof. induction n as [|n IH]; [reflexivity |]. simpl. now rewrite IH. Qed.

(** What [rstrip] takes away is a run of zeros. *)
Lemma rstrip_spec (s : string) :
  exists n, s = (rstrip s ++ zeros n)%string.
Proof.
  induction s as [|c s [n IH]].
  - exists 0%nat. reflexivity.
  - cbn [rstrip]. destruct (rstrip s) as [|c' r] eqn:E.
    + change (EmptyString ++ zeros n)%string with (zeros n) in IH.
      destruct (Ascii.eqb c "0") eqn:Ec.
      * apply Ascii.eqb_eq in Ec. subst c. exists (S n).
        change (EmptyString ++ zeros (S n))%string with (zeros (S n)).
        simpl. now rewrite <- IH.
      * exists n. rewrite string_cons_append.
        change (EmptyString ++ zeros n)%string with (zeros n). now rewrite <- IH.
    + exists n. rewrite string_cons_append. now rewrite <- IH.
Qed.

Lemma binary_value_from_append acc s t :
  binary_value_from acc (s ++ t) = binary_value_from (binary_value_from acc s) t.
Proof.
  revert acc. induction s as [|c s IH]; intros acc; [reflexivity |].
  rewrite string_cons_append. cbn [binary_value_from]. apply IH.
Qed.

Lemma binary_value_from_zeros acc n :
  binary_value_from acc (zeros n) = acc * 2 ^ Z.of_nat n.
Proof.
  rewrite <- (string_append_empty (zeros n)), binary_value_zeros. reflexivity.
Qed.

(** The value of the digits that [rstrip] keeps. *)
Lemma binary_value_rstrip (s : string) :
  exists n : nat,
    (String.length (rstrip s) + n)%nat = String.length s /\
    binary_value s = binary_value (rstrip s) * 2 ^ Z.of_nat n /\
    binary_digits_only (rstrip s) = binary_digits_only s.
Proof.
  destruct (rstrip_spec s) as [n Hn]. exists n. split; [| split].
  - rewrite Hn at 2. now rewrite string_length_append, zeros_length.
  - unfold binary_value. rewrite Hn at 1.
    now rewrite binary_value_from_append, binary_value_from_zeros.
  - rewrite Hn at 2.
    now rewrite binary_digits_only_append, binary_digits_only_zeros,
      andb_true_r.
Qed.

(** The padded digits of a number that fits, with their value. *)
Lemma to_binary_digits (m w : Z) :
  0 <= m < 2 ^ w -> 1 <= w ->
  exists s,
    to_binary m (Some w) = Some s /\
    String.length s = Z.to_nat w /\
    binary_digits_only s = true /\
    binary_value s = m.
Proof.
  intros Hm Hw. rewrite (to_binary_padded m w Hm Hw).
  destruct (bin_value m (proj1 Hm)) as [Hval Hdig].
  pose proof (bin_length m (proj1 Hm)) as Hlen. unfold str_len in Hlen.
  pose proof (proj2 (bit_length_fits m w (proj1 Hm) Hw) (proj2 Hm)) as Hfit.
  eexists. split; [reflexivity |]. split; [| split].
  - rewrite string_length_append, zeros_length. lia.
  - now rewrite binary_digits_only_append, binary_digits_only_zeros, Hdig.
  - unfold binary_value. rewrite binary_value_zeros. simpl (0 * _).
    exact Hval.
Qed.

(** X21. For at least one wire, [oracle_less_than] raises IndexError for
    [number = 0] (no digit is left after the zeros are stripped), raises
    AttributeError for a [number] that does not fit the wires ([to_binary]
    has returned None), and returns a circuit for every number in
    between. *)
Theorem oracle_less_than_outcome (number nqubits : Z) :
  1 <= nqubits -> 0 <= number ->
  (number = 0 -> oracle_less_than number nqubits = inl IndexError) /\
  (2 ^ nqubits <= number ->
   oracle_less_than number nqubits = inl AttributeError) /\
  (0 < number < 2 ^ nqubits ->
   exists instructions, oracle_less_than number nqubits = inr instructions).
Proof.
  intros Hn Hm. split; [| split].
  - intros ->. unfold oracle_less_than.
    assert (H0 : 0 <= 0 < 2 ^ nqubits)
      by (split; [lia | apply Z.pow_pos_nonneg; lia]).
    rewrite (to_binary_padded 0 nqubits H0 Hn).
    change (str_drop 2 (bin 0)) with (zeros 1).
    assert (Hz : forall a b, (zeros a ++ zeros b)%string = zeros (a + b)).
    { intros a b. induction a as [|a IH]; [reflexivity |].
      simpl zeros. rewrite string_cons_append. now rewrite IH. }
    rewrite Hz. cbv zeta. now rewrite rstrip_zeros.
  - intros Hwide. unfold oracle_less_than.
    now rewrite to_binary_too_wide.
  - intros Hfit. unfold oracle_less_than.
    destruct (to_binary_digits number nqubits) as (s & -> & _ & _ & Hv);
      [lia | lia |].
    cbv zeta. destruct (binary_value_rstrip s) as (n & _ & Hval & _).
    destruct (rstrip s) as [|c r].
    + rewrite Hv in Hval. change (binary_value EmptyString) with 0 in Hval. lia.
    + eexists. reflexivity.
Qed.

Lemma oracle_less_than_outcome_witness :
  oracle_less_than 0 3 = inl IndexError /\
  oracle_less_than 8 3 = inl AttributeError /\
  exists instructions, oracle_less_than 5 3 = inr instructions.
Proof.
  split; [| split].
  - apply (oracle_less_than_outcome 0 3); lia.
  - apply (oracle_less_than_outcome 8 3); lia.
  - apply (oracle_less_than_outcome 5 3); lia.
Defined.

(** ** What it marks

    On a basis state an X gate flips a bit and a Z gate puts a sign on the
    state when its bit is 1.  The sign an appended block puts on the state,
    given the bits at its wires, is left open ([block_sign]): the blocks are
    those of [multi_control_z], whose gates are not given a meaning here. *)

Definition run_instruction (block_sign : circuit Z -> list bool -> bool)
  (i : instruction) (st : (Z -> bool) * bool) : (Z -> bool) * bool :=
  match i with
  | I_x q => (fun q' => if q' =? q then negb (fst st q) else fst st q', snd st)
  | I_z q => (fst st, xorb (snd st) (fst st q))
  | I_append block qargs =>
      (fst st, xorb (snd st) (block_sign block (map (fst st) qargs)))
  end.

Definition run_instructions (block_sign : circuit Z -> list bool -> bool)
  (instructions : list instruction) (st : (Z -> bool) * bool)
  : (Z -> bool) * bool :=
  fold_left (fun st i => run_instruction block_sign i st) instructions st.

(** The value of a string of digits, as a list of characters. *)
Definition digits_value (cs : list ascii) : Z :=
  fold_left (fun acc c => 2 * acc + (if Ascii.eqb c "1" then 1 else 0)) cs 0.

Lemma binary_value_from_digits acc s :
  binary_value_from acc s =
  fold_left (fun acc c => 2 * acc + (if Ascii.eqb c "1" then 1 else 0))
            (list_ascii_of_string s) acc.
Proof.
  revert acc. induction s as [|c s IH]; intros acc; [reflexivity |].
  cbn [binary_value_from list_ascii_of_string fold_left]. apply IH.
Qed.

Lemma digits_value_snoc cs c :
  digits_value (cs ++ [c]) =
  2 * digits_value cs + (if Ascii.eqb c "1" then 1 else 0).
Proof. unfold digits_value. now rewrite fold_left_app. Qed.

Lemma binary_digits_only_Forall s :
  binary_digits_only s = true ->
  Forall (fun c => c = "0"%char \/ c = "1"%char) (list_ascii_of_string s).
Proof.
  induction s as [|c s IH]; intros H; cbn in *; [constructor |].
  apply andb_prop in H. destruct H as [Hc Hs].
  constructor; [| now apply IH].
  apply orb_prop in Hc. destruct Hc as [Hc | Hc]; apply Ascii.eqb_eq in Hc; auto.
Qed.

Lemma bits_value_app l1 l2 :
  bits_value (l1 ++ l2) = bits_value l1 + 2 ^ len l1 * bits_value l2.
Proof.
  induction l1 as [|x l1 IH].
  - change (len (@nil bool)) with 0. cbn [app bits_value]. lia.
  - cbn [app bits_value]. rewrite IH.
    replace (len (x :: l1)) with (1 + len l1) by (unfold len; simpl; lia).
    rewrite Z.pow_add_r, Z.pow_1_r by (unfold len; lia). lia.
Qed.

Lemma bits_value_range l : 0 <= bits_value l < 2 ^ len l.
Proof.
  induction l as [|x l IH].
  - change (len (@nil bool)) with 0. cbn. lia.
  - cbn [bits_value].
    replace (len (x :: l)) with (1 + len l) by (unfold len; simpl; lia).
    rewrite Z.pow_add_r, Z.pow_1_r by (unfold len; lia).
    destruct x; cbn [Z.b2z]; lia.
Qed.

Lemma py_range_down_snoc start (p : nat) :
  py_range_down start (start - Z.of_nat (S p)) =
  py_range_down start (start - Z.of_nat p) ++ [start - Z.of_nat p].
Proof.
  unfold py_range_down.
  replace (Z.to_nat (start - (start - Z.of_nat (S p)))) with (S p) by lia.
  replace (Z.to_nat (start - (start - Z.of_nat p))) with p by lia.
  now rewrite seq_S, map_app.
Qed.

Lemma py_range_down_In start (p : nat) q :
  In q (py_range_down start (start - Z.of_nat p)) ->
  start - Z.of_nat p < q <= start.
Proof.
  unfold py_range_down.
  replace (Z.to_nat (start - (start - Z.of_nat p))) with p by lia.
  intros Hin. apply in_map_iff in Hin. destruct Hin as (i & <- & Hi).
  apply in_seq in Hi. lia.
Qed.

Lemma py_range_down_length start (p : nat) :
  length (py_range_down start (start - Z.of_nat p)) = p.
Proof.
  unfold py_range_down. rewrite length_map, length_seq. lia.
Qed.

Ltac compare_cases :=
  repeat match goal with
         | |- context [?a <? ?b] => destruct (Z.ltb_spec a b)
         | |- context [?a =? ?b] => destruct (Z.eqb_spec a b)
         end;
  cbn [andb xorb negb]; try reflexivity; lia.

(** Comparing two numbers after one more binary digit of each. *)
Lemma ltb_digit_0 (x : bool) P T :
  (Z.b2z x + 2 * P <? 2 * T + 0) = (P <? T).
Proof. destruct x; cbn [Z.b2z]; compare_cases. Qed.

Lemma ltb_digit_1 (x : bool) P T :
  (Z.b2z x + 2 * P <? 2 * T + 1) = xorb (P <? T) ((P =? T) && negb x).
Proof. destruct x; cbn [Z.b2z negb]; compare_cases. Qed.

Lemma eqb_digit_0 (x : bool) P T :
  (Z.b2z x + 2 * P =? 2 * T + 0) = (P =? T) && negb x.
Proof. destruct x; cbn [Z.b2z negb]; compare_cases. Qed.

Lemma eqb_digit_1 (x : bool) P T :
  (Z.b2z x + 2 * P =? 2 * T + 1) = (P =? T) && x.
Proof. destruct x; cbn [Z.b2z]; compare_cases. Qed.

Lemma py_range_down_1 start :
  py_range_down start (start - Z.of_nat 1) = [start].
Proof.
  unfold py_range_down.
  replace (Z.to_nat (start - (start - Z.of_nat 1))) with 1%nat by lia.
  cbn. f_equal. lia.
Qed.

Lemma run_instructions_app block_sign l1 l2 st :
  run_instructions block_sign (l1 ++ l2) st =
  run_instructions block_sign l2 (run_instructions block_sign l1 st).
Proof. unfold run_instructions. apply fold_left_app. Qed.

Section Marking.

Variable block_sign : circuit Z -> list bool -> bool.
Hypothesis block_is_controlled_z :
  forall m bs, 2 <= m -> len bs = m ->
    block_sign (multi_control_z m) bs = forallb (fun b => b) bs.

Variables (nqubits : Z) (bits : Z -> bool) (digits : list ascii).
Hypothesis digits_binary :
  Forall (fun c => c = "0"%char \/ c = "1"%char) digits.

(** The wires [X] has been applied to once, among positions [lo, hi). *)
Definition toggled (lo hi : nat) (q : Z) : bool :=
  let j := nqubits - 1 - q in
  (Z.of_nat lo <=? j) && (j <? Z.of_nat hi)
  && Ascii.eqb (nth (Z.to_nat j) digits "1"%char) "0".

(** The value of the [p] top wires. *)
Definition top (p : nat) : Z :=
  bits_value (map bits (py_range (nqubits - Z.of_nat p) nqubits)).

Definition compared (p : nat) (st : (Z -> bool) * bool) : Prop :=
  (forall q, fst st q = xorb (bits q) (toggled 0 p q)) /\
  snd st = (top p <? digits_value (firstn p digits)) /\
  forallb (fun b => b)
          (map (fst st) (py_range_down (nqubits - 1)
                                       (nqubits - 1 - Z.of_nat p)))
    = (top p =? digits_value (firstn p digits)).

Lemma top_S p :
  top (S p) = Z.b2z (bits (nqubits - Z.of_nat p - 1)) + 2 * top p.
Proof.
  unfold top. rewrite py_range_cons by lia.
  replace (nqubits - Z.of_nat (S p)) with (nqubits - Z.of_nat p - 1) by lia.
  replace (nqubits - Z.of_nat p - 1 + 1) with (nqubits - Z.of_nat p) by lia.
  reflexivity.
Qed.

Lemma digits_value_S p c :
  digits !! p = Some c ->
  digits_value (firstn (S p) digits) =
  2 * digits_value (firstn p digits) + (if Ascii.eqb c "1" then 1 else 0).
Proof.
  intros Hc. rewrite (take_S_r digits p c Hc). apply digits_value_snoc.
Qed.

Lemma digit_nth p c : digits !! p = Some c -> nth p digits "1"%char = c.
Proof.
  intros Hc. rewrite <- nth_error_lookup in Hc. now apply nth_error_nth.
Qed.

Lemma digit_binary p c :
  digits !! p = Some c -> c = "0"%char \/ c = "1"%char.
Proof.
  intros Hc. rewrite List.Forall_forall in digits_binary.
  apply digits_binary. rewrite <- nth_error_lookup in Hc.
  eapply nth_error_In; eassumption.
Qed.

Lemma toggled_S_other p q :
  q <> nqubits - Z.of_nat p - 1 -> toggled 0 (S p) q = toggled 0 p q.
Proof.
  intros Hq. unfold toggled. cbv zeta. f_equal. f_equal.
  destruct (nqubits - 1 - q <? Z.of_nat p) eqn:E1;
    destruct (nqubits - 1 - q <? Z.of_nat (S p)) eqn:E2;
    try reflexivity;
    [apply Z.ltb_lt in E1; apply Z.ltb_ge in E2
    | apply Z.ltb_ge in E1; apply Z.ltb_lt in E2]; lia.
Qed.

Lemma toggled_here p c :
  digits !! p = Some c ->
  toggled 0 p (nqubits - Z.of_nat p - 1) = false /\
  toggled 0 (S p) (nqubits - Z.of_nat p - 1) = Ascii.eqb c "0".
Proof.
  intros Hc. unfold toggled. cbv zeta.
  replace (nqubits - 1 - (nqubits - Z.of_nat p - 1)) with (Z.of_nat p) by lia.
  rewrite Nat2Z.id, (digit_nth p c Hc). split.
  - rewrite Z.ltb_irrefl. now rewrite andb_false_r.
  - replace (Z.of_nat 0 <=? Z.of_nat p) with true
      by (symmetry; apply Z.leb_le; lia).
    replace (Z.of_nat p <? Z.of_nat (S p)) with true
      by (symmetry; apply Z.ltb_lt; lia).
    reflexivity.
Qed.

(** The bits at the wires of the block of position [p], when only the wire
    of that position has changed. *)
Lemma block_bits p (cur cur' : Z -> bool) :
  (forall q, q <> nqubits - Z.of_nat p - 1 -> cur' q = cur q) ->
  map cur' (py_range_down (nqubits - 1) (nqubits - 1 - Z.of_nat (S p))) =
  map cur (py_range_down (nqubits - 1) (nqubits - 1 - Z.of_nat p))
  ++ [cur' (nqubits - Z.of_nat p - 1)].
Proof.
  intros Hsame. rewrite py_range_down_snoc, map_app. cbn [map].
  replace (nqubits - 1 - Z.of_nat p) with (nqubits - Z.of_nat p - 1) by lia.
  f_equal. apply map_ext_in. intros q Hq.
  apply Hsame.
  replace (nqubits - Z.of_nat p - 1) with (nqubits - 1 - Z.of_nat p) in Hq
    by lia.
  apply py_range_down_In in Hq. lia.
Qed.

Lemma forallb_snoc (l : list bool) x :
  forallb (fun b => b) (l ++ [x]) = forallb (fun b => b) l && x.
Proof. rewrite forallb_app. cbn. now rewrite andb_true_r. Qed.

(** One digit after the first. *)
Lemma compared_step (lo : nat) c st :
  digits !! S lo = Some c -> compared (S lo) st ->
  compared (S (S lo))
    (run_instructions block_sign
       (if Ascii.eqb c "0"
        then [I_x (nqubits - (Z.of_nat lo + 1) - 1)]
        else [I_x (nqubits - (Z.of_nat lo + 1) - 1);
              I_append (multi_control_z (Z.of_nat lo + 1 + 1))
                (py_range_down (nqubits - 1)
                               (nqubits - (Z.of_nat lo + 1) - 2));
              I_x (nqubits - (Z.of_nat lo + 1) - 1)])
       st).
Proof.
  intros Hc (Hbits & Hsign & Hall).
  replace (Z.of_nat lo + 1) with (Z.of_nat (S lo)) by lia.
  remember (S lo) as p eqn:Ep.
  assert (Hp : (1 <= p)%nat) by lia. clear Ep.
  destruct st as [cur sign]. cbn [fst snd] in *.
  destruct (toggled_here p c Hc) as [Hold Hnew].
  pose proof (top_S p) as HP. pose proof (digits_value_S p c Hc) as HT.
  pose proof (Hbits (nqubits - Z.of_nat p - 1)) as Hw.
  rewrite Hold, xorb_false_r in Hw.
  destruct (digit_binary p c Hc) as [-> | ->].
  - (* the digit 0: one X *)
    change (Ascii.eqb "0" "0") with true in *. cbv iota.
    change (Ascii.eqb "0" "1") with false in HT. cbv iota in HT.
    unfold run_instructions. cbn [fold_left run_instruction fst snd].
    split; [| split]; cbn [fst snd].
    + intros q. destruct (q =? nqubits - Z.of_nat p - 1) eqn:E.
      * apply Z.eqb_eq in E. subst q. rewrite Hnew, Hw.
        now destruct (bits _).
      * apply Z.eqb_neq in E. rewrite toggled_S_other by exact E. apply Hbits.
    + rewrite Hsign, HP, HT. symmetry. apply ltb_digit_0.
    + rewrite (block_bits p cur); [| intros q Hq; apply Z.eqb_neq in Hq;
                                     now rewrite Hq].
      rewrite forallb_snoc, Hall, (Z.eqb_refl (nqubits - Z.of_nat p - 1)).
      rewrite Hw, HP, HT. symmetry. apply eqb_digit_0.
  - (* the digit 1: X, the block, X *)
    change (Ascii.eqb "1" "0") with false in *. cbv iota.
    change (Ascii.eqb "1" "1") with true in HT. cbv iota in HT.
    unfold run_instructions. cbn [fold_left run_instruction fst snd].
    replace (nqubits - Z.of_nat p - 2) with (nqubits - 1 - Z.of_nat (S p))
      by lia.
    rewrite (block_bits p cur); [| intros q Hq; apply Z.eqb_neq in Hq;
                                   now rewrite Hq].
    rewrite block_is_controlled_z;
      [| lia
       | unfold len; rewrite length_app, length_map, py_range_down_length;
         cbn [length]; lia].
    rewrite forallb_snoc, Hall, (Z.eqb_refl (nqubits - Z.of_nat p - 1)), Hw.
    split; [| split]; cbn [fst snd].
    + intros q. destruct (q =? nqubits - Z.of_nat p - 1) eqn:E.
      * apply Z.eqb_eq in E. subst q. rewrite Hnew.
        now destruct (bits _).
      * apply Z.eqb_neq in E.
        rewrite toggled_S_other by exact E. apply Hbits.
    + rewrite Hsign, HP, HT. symmetry. apply ltb_digit_1.
    + rewrite (block_bits p cur).
      2:{ intros q Hq. apply Z.eqb_neq in Hq. now rewrite Hq. }
      rewrite forallb_snoc, Hall, (Z.eqb_refl (nqubits - Z.of_nat p - 1)).
      rewrite negb_involutive, HP, HT. symmetry. apply eqb_digit_1.
Qed.

(** The loop over the digits after the first. *)
Lemma compared_loop (cs : list ascii) (lo : nat) st :
  drop (S lo) digits = cs -> compared (S lo) st ->
  compared (S lo + length cs)
    (run_instructions block_sign
       (flat_map (fun pv : Z * ascii =>
                    let position := fst pv + 1 in
                    if Ascii.eqb (snd pv) "0"
                    then [I_x (nqubits - position - 1)]
                    else [I_x (nqubits - position - 1);
                          I_append (multi_control_z (position + 1))
                            (py_range_down (nqubits - 1)
                                           (nqubits - position - 2));
                          I_x (nqubits - position - 1)])
                 (combine (py_range (Z.of_nat lo) (Z.of_nat lo + len cs)) cs))
       st).
Proof.
  revert lo st. induction cs as [|c cs IH]; intros lo st Hdrop Hst.
  - change (len (@nil ascii)) with 0. rewrite py_range_nil by lia.
    cbn. now rewrite Nat.add_0_r.
  - assert (Hc : digits !! S lo = Some c).
    { rewrite <- (Nat.add_0_r (S lo)), <- lookup_drop, Hdrop. reflexivity. }
    assert (Hrest : drop (S (S lo)) digits = cs).
    { replace (S (S lo)) with (S lo + 1)%nat by lia.
      rewrite <- drop_drop, Hdrop. reflexivity. }
    replace (len (c :: cs)) with (1 + len cs) by (unfold len; simpl; lia).
    rewrite py_range_cons by (unfold len; lia).
    cbn [combine flat_map]. rewrite run_instructions_app.
    replace (py_range (Z.of_nat lo + 1) (Z.of_nat lo + (1 + len cs)))
      with (py_range (Z.of_nat (S lo)) (Z.of_nat (S lo) + len cs))
      by (f_equal; lia).
    replace (S lo + length (c :: cs))%nat with (S (S lo) + length cs)%nat
      by (simpl; lia).
    apply (IH (S lo)); [exact Hrest |].
    exact (compared_step lo c st Hc Hst).
Qed.

(** The first digit. *)
Lemma compared_first c :
  digits !! 0%nat = Some c ->
  compared 1
    (run_instructions block_sign
       (if Ascii.eqb c "1"
        then [I_x (nqubits - 1); I_z (nqubits - 1); I_x (nqubits - 1)]
        else [I_x (nqubits - 1)])
       (bits, false)).
Proof.
  intros Hc.
  destruct (toggled_here 0 c Hc) as [_ Hnew].
  replace (nqubits - Z.of_nat 0 - 1) with (nqubits - 1) in Hnew by lia.
  pose proof (top_S 0) as HP.
  replace (nqubits - Z.of_nat 0 - 1) with (nqubits - 1) in HP by lia.
  assert (H0 : top 0 = 0).
  { unfold top. rewrite py_range_nil by lia. reflexivity. }
  rewrite H0 in HP.
  pose proof (digits_value_S 0 c Hc) as HT.
  change (digits_value (firstn 0 digits)) with 0 in HT.
  assert (Hother : forall q, q <> nqubits - 1 -> toggled 0 1 q = false).
  { intros q Hq. rewrite (toggled_S_other 0 q) by lia.
    unfold toggled. cbv zeta.
    destruct (nqubits - 1 - q <? Z.of_nat 0) eqn:E;
      [apply Z.ltb_lt in E | now rewrite andb_false_r].
    destruct (Z.of_nat 0 <=? nqubits - 1 - q) eqn:E'; [| reflexivity].
    apply Z.leb_le in E'. lia. }
  unfold compared. rewrite py_range_down_1.
  destruct (digit_binary 0 c Hc) as [-> | ->].
  - change (Ascii.eqb "0" "1") with false in *. cbv iota in *.
    change (Ascii.eqb "0" "0") with true in Hnew.
    unfold run_instructions. cbn [fold_left run_instruction fst snd].
    split; [| split]; cbn [fst snd map forallb].
    + intros q. destruct (q =? nqubits - 1) eqn:E.
      * apply Z.eqb_eq in E. subst q. rewrite Hnew. now destruct (bits _).
      * apply Z.eqb_neq in E. rewrite Hother by exact E.
        now rewrite xorb_false_r.
    + rewrite HP, HT. destruct (bits (nqubits - 1)); reflexivity.
    + rewrite ?(Z.eqb_refl (nqubits - 1)), HP, HT.
      destruct (bits (nqubits - 1)); reflexivity.
  - change (Ascii.eqb "1" "1") with true in *. cbv iota in *.
    change (Ascii.eqb "1" "0") with false in Hnew.
    unfold run_instructions. cbn [fold_left run_instruction fst snd].
    rewrite !(Z.eqb_refl (nqubits - 1)).
    split; [| split]; cbn [fst snd map forallb].
    + intros q. destruct (q =? nqubits - 1) eqn:E.
      * apply Z.eqb_eq in E. subst q. rewrite Hnew. now destruct (bits _).
      * apply Z.eqb_neq in E. rewrite Hother by exact E.
        now rewrite xorb_false_r.
    + rewrite HP, HT. destruct (bits (nqubits - 1)); reflexivity.
    + rewrite ?(Z.eqb_refl (nqubits - 1)), HP, HT.
      destruct (bits (nqubits - 1)); reflexivity.
Qed.

(** The last loop, which applies X again wherever a digit is 0. *)
Lemma undo_loop (cs : list ascii) (lo : nat) st :
  drop lo digits = cs ->
  (forall q, fst st q = xorb (bits q) (toggled lo (length digits) q)) ->
  let st' :=
    run_instructions block_sign
      (flat_map (fun pv : Z * ascii =>
                   if Ascii.eqb (snd pv) "0"
                   then [I_x (nqubits - fst pv - 1)]
                   else [])
                (combine (py_range (Z.of_nat lo) (Z.of_nat lo + len cs)) cs))
      st in
  (forall q, fst st' q = bits q) /\ snd st' = snd st.
Proof.
  revert lo st. induction cs as [|c cs IH]; intros lo st Hdrop Hst.
  - change (len (@nil ascii)) with 0. rewrite py_range_nil by lia.
    cbn. split; [| reflexivity]. intros q. rewrite Hst.
    assert (Hlen : (length digits <= lo)%nat).
    { apply (f_equal (@length ascii)) in Hdrop.
      rewrite length_drop in Hdrop. simpl in Hdrop. lia. }
    unfold toggled. cbv zeta.
    destruct (Z.of_nat lo <=? nqubits - 1 - q) eqn:E1;
      destruct (nqubits - 1 - q <? Z.of_nat (length digits)) eqn:E2;
      cbn [andb]; try apply xorb_false_r.
    apply Z.leb_le in E1. apply Z.ltb_lt in E2. lia.
  - assert (Hc : digits !! lo = Some c).
    { rewrite <- (Nat.add_0_r lo), <- lookup_drop, Hdrop. reflexivity. }
    assert (Hrest : drop (S lo) digits = cs).
    { replace (S lo) with (lo + 1)%nat by lia.
      rewrite <- drop_drop, Hdrop. reflexivity. }
    assert (Hlt : (lo < length digits)%nat)
      by (apply lookup_lt_Some in Hc; exact Hc).
    replace (len (c :: cs)) with (1 + len cs) by (unfold len; simpl; lia).
    rewrite py_range_cons by (unfold len; lia).
    cbn [combine flat_map]. rewrite run_instructions_app. cbn [fst snd].
    replace (py_range (Z.of_nat lo + 1) (Z.of_nat lo + (1 + len cs)))
      with (py_range (Z.of_nat (S lo)) (Z.of_nat (S lo) + len cs))
      by (f_equal; lia).
    assert (Hstep : forall q,
      toggled lo (length digits) q =
      xorb (toggled (S lo) (length digits) q)
           ((q =? nqubits - Z.of_nat lo - 1) && Ascii.eqb c "0")).
    { intros q. unfold toggled. cbv zeta.
      destruct (q =? nqubits - Z.of_nat lo - 1) eqn:E.
      - apply Z.eqb_eq in E. subst q.
        replace (nqubits - 1 - (nqubits - Z.of_nat lo - 1)) with (Z.of_nat lo)
          by lia.
        rewrite Nat2Z.id, (digit_nth lo c Hc).
        replace (Z.of_nat lo <=? Z.of_nat lo) with true
          by (symmetry; apply Z.leb_le; lia).
        replace (Z.of_nat lo <? Z.of_nat (length digits)) with true
          by (symmetry; apply Z.ltb_lt; lia).
        replace (Z.of_nat (S lo) <=? Z.of_nat lo) with false
          by (symmetry; apply Z.leb_gt; lia).
        cbn [andb]. now destruct (Ascii.eqb c "0").
      - apply Z.eqb_neq in E. cbn [andb]. rewrite xorb_false_r.
        f_equal. f_equal.
        destruct (Z.of_nat lo <=? nqubits - 1 - q) eqn:E1;
          destruct (Z.of_nat (S lo) <=? nqubits - 1 - q) eqn:E2;
          try reflexivity;
          [apply Z.leb_le in E1; apply Z.leb_gt in E2
          | apply Z.leb_gt in E1; apply Z.leb_le in E2]; lia. }
    destruct (Ascii.eqb c "0") eqn:Ec.
    + change (run_instructions block_sign
                [I_x (nqubits - Z.of_nat lo - 1)] st)
        with (fun q' => if q' =? nqubits - Z.of_nat lo - 1
                        then negb (fst st (nqubits - Z.of_nat lo - 1))
                        else fst st q', snd st).
      destruct (IH (S lo)
                  (fun q' => if q' =? nqubits - Z.of_nat lo - 1
                             then negb (fst st (nqubits - Z.of_nat lo - 1))
                             else fst st q', snd st) Hrest)
        as [Hb Hs].
      { intros q. cbn [fst]. specialize (Hstep q). rewrite andb_true_r in Hstep.
        destruct (q =? nqubits - Z.of_nat lo - 1) eqn:E.
        - apply Z.eqb_eq in E. subst q. rewrite Hst, Hstep.
          destruct (bits (nqubits - Z.of_nat lo - 1));
            destruct (toggled (S lo) (length digits)
                        (nqubits - Z.of_nat lo - 1)); reflexivity.
        - rewrite Hst, Hstep. now rewrite xorb_false_r. }
      split; [exact Hb | exact Hs].
    + change (run_instructions block_sign [] st) with st.
      apply (IH (S lo) st Hrest).
      intros q. rewrite Hst, Hstep. rewrite andb_false_r.
      now rewrite xorb_false_r.
Qed.

End Marking.

Lemma py_range_split k n :
  0 <= k <= n -> py_range 0 n = py_range 0 k ++ py_range k n.
Proof.
  intros Hk. unfold py_range.
  replace (Z.to_nat (n - 0)) with (Z.to_nat (k - 0) + Z.to_nat (n - k))%nat
    by lia.
  rewrite seq_app, map_app. f_equal.
  replace (0 + Z.to_nat (k - 0))%nat with (Z.to_nat (k - 0) + 0)%nat by lia.
  rewrite <- (fmap_add_seq (Z.to_nat (k - 0)) 0 (Z.to_nat (n - k))).
  change (map ?f (?g <$> ?l)) with (map f (map g l)).
  rewrite map_map. apply map_ext. intros i. lia.
Qed.

Lemma list_ascii_length s :
  length (list_ascii_of_string s) = String.length s.
Proof. induction s as [|c s IH]; [reflexivity |]. simpl. now rewrite IH. Qed.

(** X22. What the circuit of [oracle_less_than] does to a basis state, if
    every appended block [multi_control_z(m)] puts a sign on the state
    exactly when all its [m] wires are 1: for [0 < number < 2^nqubits] all
    bits come out as they went in (every X is undone), and the state has
    got the sign exactly when the value of the [nqubits] wires is below
    [number]. *)
Theorem oracle_less_than_marks
  (block_sign : circuit Z -> list bool -> bool)
  (number nqubits : Z) (bits : Z -> bool) :
  (forall m bs, 2 <= m -> len bs = m ->
     block_sign (multi_control_z m) bs = forallb (fun b => b) bs) ->
  1 <= nqubits -> 0 < number < 2 ^ nqubits ->
  exists instructions,
    oracle_less_than number nqubits = inr instructions /\
    (forall q,
       fst (run_instructions block_sign instructions (bits, false)) q
         = bits q) /\
    snd (run_instructions block_sign instructions (bits, false))
      = (bits_value (map bits (py_range 0 nqubits)) <? number).
Proof.
  intros Hblock Hn Hm.
  destruct (to_binary_digits number nqubits ltac:(lia) Hn)
    as (s & Es & Ls & Ds & Vs).
  destruct (binary_value_rstrip s) as (n0 & Ln0 & Vn0 & Dn0).
  unfold oracle_less_than. rewrite Es. cbv zeta.
  destruct (rstrip s) as [|c0 r] eqn:Et.
  { rewrite Vs in Vn0. change (binary_value EmptyString) with 0 in Vn0. lia. }
  eexists. split; [reflexivity |].
  set (digits := list_ascii_of_string (String c0 r)).
  assert (Hdig : Forall (fun c => c = "0"%char \/ c = "1"%char) digits).
  { apply binary_digits_only_Forall. congruence. }
  assert (Hlen : length digits = S (length (list_ascii_of_string r)))
    by reflexivity.
  rewrite !run_instructions_app.
  pose proof (compared_first block_sign nqubits bits digits Hdig c0 eq_refl)
    as H1.
  set (st1 := run_instructions block_sign _ (bits, false)) in *.
  pose proof (compared_loop block_sign Hblock nqubits bits digits Hdig
                (list_ascii_of_string r) 0 st1 eq_refl H1) as H2.
  change (Z.of_nat 0 + len (list_ascii_of_string r))
    with (len (list_ascii_of_string r)) in H2.
  change (py_range (Z.of_nat 0)) with (py_range 0) in H2.
  fold (enumerate (list_ascii_of_string r)) in H2.
  set (st2 := run_instructions block_sign _ st1) in *.
  replace (1 + length (list_ascii_of_string r))%nat with (length digits) in H2
    by (rewrite Hlen; lia).
  destruct H2 as (Hbits2 & Hsign2 & _).
  pose proof (undo_loop block_sign nqubits bits digits digits 0 st2 eq_refl
                Hbits2) as H3.
  cbv zeta in H3.
  change (Z.of_nat 0 + len digits) with (len digits) in H3.
  change (py_range (Z.of_nat 0)) with (py_range 0) in H3.
  fold (enumerate digits) in H3.
  destruct H3 as [Hbits3 Hsign3].
  split; [exact Hbits3 |].
  rewrite Hsign3, Hsign2. rewrite firstn_all.
  (* the numbers behind the comparison *)
  assert (HT : digits_value digits = binary_value (String c0 r)).
  { unfold digits_value, binary_value, digits.
    now rewrite binary_value_from_digits. }
  assert (Hm' : (length digits + n0)%nat = Z.to_nat nqubits).
  { unfold digits. rewrite list_ascii_length. lia. }
  rewrite HT.
  assert (Hnum : number = binary_value (String c0 r) * 2 ^ Z.of_nat n0)
    by congruence.
  unfold top.
  replace (nqubits - Z.of_nat (length digits)) with (Z.of_nat n0) by lia.
  rewrite (py_range_split (Z.of_nat n0) nqubits) by lia.
  rewrite map_app, bits_value_app.
  pose proof (bits_value_range (map bits (py_range 0 (Z.of_nat n0)))) as Hlow.
  replace (len (map bits (py_range 0 (Z.of_nat n0)))) with (Z.of_nat n0) in *
    by (unfold len; rewrite length_map, py_range_length; lia).
  assert (Hpos : 0 < 2 ^ Z.of_nat n0) by (apply Z.pow_pos_nonneg; lia).
  rewrite Hnum.
  set (P := bits_value (map bits (py_range (Z.of_nat n0) nqubits))) in *.
  set (T := binary_value (String c0 r)) in *.
  set (low := bits_value (map bits (py_range 0 (Z.of_nat n0)))) in *.
  set (B := 2 ^ Z.of_nat n0) in *.
  destruct (Z.ltb_spec P T) as [Hlt | Hge];
    destruct (Z.ltb_spec (low + B * P) (T * B)) as [Hlt' | Hge'];
    try reflexivity; exfalso; nia.
Qed.

Lemma oracle_less_than_marks_witness :
  exists instructions,
    oracle_less_than 5 3 = inr instructions /\
    snd (run_instructions (fun _ bs => forallb (fun b => b) bs) instructions
           (fun q => Z.testbit 4 q, false))
      = (bits_value (map (fun q => Z.testbit 4 q) (py_range 0 3)) <? 5).
Proof.
  destruct (oracle_less_than_marks (fun _ bs => forallb (fun b => b) bs)
              5 3 (fun q => Z.testbit 4 q))
    as (instructions & H1 & _ & H3).
  - intros m bs _ _. reflexivity.
  - lia.
  - lia.
  - exists instructions. split; [exact H1 | exact H3].
Defined.

(** * Two more facts about the oracle of the multiples *)

(** X23. The list of remainders serves every modulus from 2 on: for
    [K >= 2] and [p >= 1] it has [p + 1] elements, and the element at index
    [i] lies between 0 and [K] and is congruent to [2^i] modulo [K].  (For
    [K = 2] the remainder 0 is written as 2.) *)
Theorem get_remainders_power_2_modulo (K p : Z) :
  2 <= K -> 1 <= p ->
  length (get_remainders_power_2 K p) = Z.to_nat (p + 1) /\
  forall (i : nat) r,
    get_remainders_power_2 K p !! i = Some r ->
    0 <= r <= K /\ (r - 2 ^ Z.of_nat i) mod K = 0.
Proof.
  intros HK Hp.
  destruct (get_remainders_power_2_bounds K p HK Hp) as [Hlen Hall].
  split; [exact Hlen |]. intros i r Hr. split.
  - rewrite List.Forall_forall in Hall. apply Hall.
    apply list_elem_of_In. eapply list_elem_of_lookup_2. exact Hr.
  - now apply (get_remainders_power_2_congruent K p i r).
Qed.

Lemma get_remainders_power_2_modulo_witness :
  length (get_remainders_power_2 2 3) = 4%nat /\
  (2 - 2 ^ Z.of_nat 2) mod 2 = 0.
Proof.
  destruct (get_remainders_power_2_modulo 2 3 ltac:(lia) ltac:(lia))
    as [Hlen Hall].
  split; [exact Hlen |].
  exact (proj2 (Hall 2%nat 2 eq_refl)).
Defined.

(** X24. The length of [state_control] is checked against the wires it
    describes, after the first loop has been appended: for
    [2 <= k <= 2^32], at least two input wires and an oracle with at least
    one gate, a non-empty
    [state_control] whose length differs from that of [qubits_control] (or,
    without controls, from that of a non-empty [qubits_oracle]) makes
    [oracle_multiples] raise AssertionError. *)
Theorem state_control_length_is_asserted (k nqubits_input approx_QFT : Z)
  (g : gate Z) (gs : list (gate Z)) (qubits_oracle : option (list qubit))
  (q : qubit) (qs : list qubit) (s : Z) (ss : list Z)
  (init_H : bool) (classic_register : option bool) :
  2 <= k <= 2 ^ 32 -> 2 <= nqubits_input -> len (q :: qs) <> len (s :: ss) ->
  oracle_multiples k nqubits_input approx_QFT (Some (g :: gs)) qubits_oracle
    (Some (q :: qs)) (Some (s :: ss)) init_H classic_register
    = inl AssertionError /\
  oracle_multiples k nqubits_input approx_QFT (Some (g :: gs)) (Some (q :: qs))
    None (Some (s :: ss)) init_H classic_register
    = inl AssertionError.
Proof.
  intros Hk32 Hn Hlen.
  assert (Hk : 2 <= k) by lia.
  assert (Hnots : qubits_apply_not_gate (q :: qs) (Some (s :: ss))
                  = inl AssertionError).
  { unfold qubits_apply_not_gate.
    destruct (len (q :: qs) =? len (s :: ss)) eqn:E; [| reflexivity].
    apply Z.eqb_eq in E. contradiction. }
  assert (Hprefix : forall qo qc,
    fails AssertionError
      (mark nqubits_input (Z.log2_up k + 1) (Some (g :: gs)) qo qc
         (Some (s :: ss))) ->
    fails AssertionError
      (oracle_multiples_body k nqubits_input approx_QFT (Some (g :: gs)) qo qc
         (Some (s :: ss)) init_H)).
  { intros qo qc Hmark. unfold oracle_multiples_body.
    apply (fails_bind_r _
             (if init_H
              then length (register_bits input_register nqubits_input)
              else 0)).
    { destruct init_H; [apply grows_each_qubit | apply grows_ret]. }
    intros _. eapply fails_bind_r; [apply grows_each_qubit |].
    intros _. eapply fails_bind_r; [now apply grows_fold_in |].
    intros _. eapply fails_bind_r; [apply grows_append_op |].
    intros _. apply fails_bind_l. exact Hmark. }
  rewrite !(fun o qo qc =>
             oracle_multiples_opened k nqubits_input approx_QFT o qo qc
               (Some (s :: ss)) init_H classic_register
               (modulus_of_64_bits k Hk32) ltac:(lia)).
  unfold oracle_multiples_run. split.
  - assert (Hmark : fails AssertionError
        (mark nqubits_input (Z.log2_up k + 1) (Some (g :: gs)) qubits_oracle
           (Some (q :: qs)) (Some (s :: ss)))).
    { unfold mark. apply fails_bind_l. apply fails_lift.
      destruct qubits_oracle as [[|? ?]|]; exact Hnots. }
    destruct (Hprefix _ _ Hmark (Builder [] ∅ [])) as (s' & E).
    now rewrite E.
  - assert (Hmark : fails AssertionError
        (mark nqubits_input (Z.log2_up k + 1) (Some (g :: gs))
           (Some (q :: qs)) None (Some (s :: ss)))).
    { unfold mark. apply fails_bind_l. apply fails_lift. exact Hnots. }
    destruct (Hprefix _ _ Hmark (Builder [] ∅ [])) as (s' & E).
    now rewrite E.
Qed.

Lemma state_control_length_is_asserted_witness :
  oracle_multiples 3 2 0 (Some [G_x 0]) (Some [Qubit input_register 0])
    None (Some [0; 1]) false None = inl AssertionError.
Proof.
  apply (state_control_length_is_asserted 3 2 0 (G_x 0) [] None
           (Qubit input_register 0) [] 0 [1] false None);
    [split; [lia | discriminate] | lia |].
  unfold len. simpl. lia.
Defined.
